(** * Hybrid search fusion of the Chroma vector-database adapter

    A shallow embedding of [packages/core/src/vectordb/chroma-vectordb.ts]
    (class [ChromaVectorDatabase]): the metadata mapping of [insert], the
    result transformation of [search], the fusion loop of [hybridSearch]
    and the filter conversion of [query].

    - JavaScript numbers are IEEE 754 binary64 values, modelled by the
      standard library's [spec_float] at precision 53 and [emax] 1024, so
      that every rounding of the source is the rounding of the model.
    - JavaScript strings are sequences of code units, modelled by [string]
      (units below 256).
    - Objects used as mappings ([metadata]) are [gmap string JsValue]; the
      [Map] of [hybridSearch], whose iteration order is its insertion
      order, is an association list.
    - The Chroma client is an environment of operations run in a
      state-and-error monad over an arbitrary state of client and store.
    - [console.log] and [console.error] calls are not modelled. *)

From Stdlib Require Import ZArith Lia Bool Ascii String SpecFloat.
From stdpp Require Import gmap strings list fin_maps sorting.

(* ===================================================================== *)
(** * Part I: the model                                                   *)
(* ===================================================================== *)

(** ** JavaScript numbers *)

Module Num.
Local Open Scope Z_scope.

Definition number : Type := spec_float.

Definition prec : Z := 53.
Definition emax : Z := 1024.
(** The exponent of the smallest subnormal, 2^-1074. *)
Definition emin : Z := SpecFloat.emin prec emax.

Definition add : number -> number -> number := SFadd prec emax.
Definition sub : number -> number -> number := SFsub prec emax.
Definition div : number -> number -> number := SFdiv prec emax.

(** An integer literal, and a decimal literal [n/d] (correctly rounded, as
    the literal [0.9] is the double nearest to 9/10). *)
Definition of_Z (z : Z) : number := binary_normalize prec emax z 0 false.
Definition lit (n d : Z) : number := div (of_Z n) (of_Z d).

Definition zero : number := S754_zero false.
Definition one : number := of_Z 1.
Definition two : number := of_Z 2.

(** [ToBoolean] of a number: [0], [-0] and [NaN] are falsy. *)
Definition truthy (x : number) : bool :=
  match x with
  | S754_zero _ | S754_nan => false
  | _ => true
  end.

(** [Math.max(a, b)]: [NaN] if either is, and [+0] above [-0].  The
    adapter only calls it with [a] the literal 0. *)
Definition max (a b : number) : number :=
  match SFcompare a b with
  | None => S754_nan
  | Some Lt => b
  | Some Gt => a
  | Some Eq => match a with S754_zero true => b | _ => a end
  end.

(** The sign a sort comparator's result is read by: positive, negative, or
    neither (zero; [NaN] is read as [+0] by [Array.prototype.sort]). *)
Definition sign (v : number) : comparison :=
  match v with
  | S754_finite s _ _ | S754_infinity s => if s then Lt else Gt
  | _ => Eq
  end.

(** *** The order of the values denoted

    Every finite binary64 value is an integer multiple of 2^[emin]; [ticks]
    is that integer.  [NaN] has none. *)
Inductive xticks : Type := MinusInf | Ticks (t : Z) | PlusInf.

Definition ticks (x : number) : option xticks :=
  match x with
  | S754_nan => None
  | S754_infinity s => Some (if s then MinusInf else PlusInf)
  | S754_zero _ => Some (Ticks 0)
  | S754_finite s m e => Some (Ticks (cond_Zopp s (Zpos m) * 2 ^ (e - emin)))
  end.

Definition xcompare (a b : xticks) : comparison :=
  match a, b with
  | MinusInf, MinusInf => Eq
  | MinusInf, _ => Lt
  | _, MinusInf => Gt
  | PlusInf, PlusInf => Eq
  | PlusInf, _ => Gt
  | _, PlusInf => Lt
  | Ticks s, Ticks t => Z.compare s t
  end.

Definition xle (a b : xticks) : Prop := xcompare a b <> Gt.

(** [le x y]: neither is [NaN] and the value of [x] is at most that of [y]
    (JavaScript's [x <= y]); [eqv x y] is JavaScript's [x == y]. *)
Definition le (x y : number) : Prop :=
  match ticks x, ticks y with
  | Some a, Some b => xle a b
  | _, _ => False
  end.

Definition eqv (x y : number) : Prop :=
  match ticks x, ticks y with
  | Some a, Some b => xcompare a b = Eq
  | _, _ => False
  end.

(** A finite value's exponent is in range below (what [valid_binary]
    implies, and all the proofs need). *)
Definition wf (x : number) : Prop :=
  match x with
  | S754_finite _ _ e => emin <= e
  | _ => True
  end.

(** *** Auxiliary notions for the rounding proofs *)

(** The right shift [shr_fexp] applies to mantissa [m] at exponent [e]. *)
Definition rnd_shift (m e : Z) : Z := Z.max 0 (fexp prec emax (Zdigits2 m + e) - e).

(** The float [binary_round_aux] builds from its final mantissa and exponent. *)
Definition rnd_result (sx : bool) (m3 e3 : Z) : number :=
  match m3 with
  | Z0 => S754_zero sx
  | Zpos m => if e3 <=? emax - prec then S754_finite sx m e3 else S754_infinity sx
  | Zneg _ => S754_nan
  end.

(** A result of rounding with sign [s]: not [NaN], of that sign, in range. *)
Definition rounded (s : bool) (x : number) : Prop :=
  match x with
  | S754_zero s' => s' = s
  | S754_infinity s' => s' = s
  | S754_finite s' _ e => s' = s /\ emin <= e
  | S754_nan => False
  end.

Definition rounded_nonzero (s : bool) (x : number) : Prop :=
  match x with
  | S754_infinity s' => s' = s
  | S754_finite s' _ e => s' = s /\ emin <= e
  | _ => False
  end.

End Num.

Abbreviation number := Num.number.

(** ** JavaScript strings *)

Module Str.

(** The characters the filter conversion looks at. *)
Definition open_bracket : ascii := "091"%char.
Definition close_bracket : ascii := "093"%char.
Definition comma : ascii := "044"%char.
Definition quote : ascii := "039"%char.
Definition dquote : ascii := "034"%char.
Definition space : ascii := "032"%char.

(** [WhiteSpace] and [LineTerminator] code units below 256, what
    [String.prototype.trim] strips. *)
Definition is_whitespace (c : ascii) : bool :=
  match nat_of_ascii c with
  | 9 | 10 | 11 | 12 | 13 | 32 | 160 => true
  | _ => false
  end.

(** [s.trim()]: leading and trailing white space removed. *)
Fixpoint trim_start (l : list ascii) : list ascii :=
  match l with
  | c :: l' => if is_whitespace c then trim_start l' else l
  | [] => []
  end.

Definition trim_chars (l : list ascii) : list ascii :=
  rev (trim_start (rev (trim_start l))).

Definition trim (s : string) : string :=
  string_of_list_ascii (trim_chars (list_ascii_of_string s)).

(** [s.includes(sub)]. *)
Fixpoint includes (sub s : string) : bool :=
  String.prefix sub s ||
  match s with
  | String _ s' => includes sub s'
  | EmptyString => false
  end.

(** The longest run of characters other than [c], and what follows it. *)
Fixpoint span_not (c : ascii) (l : list ascii) : list ascii * list ascii :=
  match l with
  | [] => ([], [])
  | x :: l' =>
      if Ascii.eqb x c then ([], l)
      else let '(run, rest) := span_not c l' in (x :: run, rest)
  end.

(** Group 1 of the first match of [/\[([^\]]+)\]/]: at the leftmost [[]
    that is followed by a non-empty run of characters other than []] and
    then by a []], that run. *)
Fixpoint match_brackets (l : list ascii) : option (list ascii) :=
  match l with
  | [] => None
  | c :: l' =>
      if Ascii.eqb c open_bracket then
        match span_not close_bracket l' with
        | ((_ :: _) as run, _ :: _) => Some run
        | _ => match_brackets l'
        end
      else match_brackets l'
  end.

(** [s.split(c)] for a one-character separator. *)
Fixpoint split_on (c : ascii) (l : list ascii) : list (list ascii) :=
  match l with
  | [] => [[]]
  | x :: l' =>
      if Ascii.eqb x c then [] :: split_on c l'
      else match split_on c l' with
           | p :: ps => (x :: p) :: ps
           | [] => [[x]]
           end
  end.

(** [s.replace(q, '')] for the global pattern [q] matching a single
    or a double quote: every quote character is removed. *)
Definition strip_quotes (l : list ascii) : list ascii :=
  List.filter (fun c => negb (Ascii.eqb c quote || Ascii.eqb c dquote)) l.

End Str.

(** ** JavaScript values held in metadata *)

Inductive JsValue : Type :=
  | JUndefined
  | JNull
  | JBool (b : bool)
  | JNumber (x : number)
  | JString (s : string).

Definition js_truthy (v : JsValue) : bool :=
  match v with
  | JUndefined | JNull => false
  | JBool b => b
  | JNumber x => Num.truthy x
  | JString s => negb (String.eqb s "")
  end.

(** [a || b]. *)
Definition js_or (a b : JsValue) : JsValue := if js_truthy a then a else b.

(** A metadata object: own string keys to values. *)
Abbreviation Metadata := (gmap string JsValue).

(** [o.k]: [undefined] when [o] has no key [k]. *)
Definition js_get (o : Metadata) (k : string) : JsValue := default JUndefined (o !! k).

(** [x || 0] on an optional number, [s || ''] on an optional string,
    [n || d] on an optional integer. *)
Definition num_or_zero (o : option number) : number :=
  match o with
  | Some x => if Num.truthy x then x else Num.zero
  | None => Num.zero
  end.

Definition str_or_empty (o : option string) : string := default "" o.

Definition int_or (o : option Z) (d : Z) : Z :=
  match o with
  | Some n => if (n =? 0)%Z then d else n
  | None => d
  end.

(** ** Data model *)

(** Modelled from the spec: the document shape of [./types], which is not
    among the sources (section 3: id, vector, content, relativePath,
    startLine, endLine, fileExtension, metadata).  [S] and [N] are the
    types of its structural text and line fields: [string] and [number]
    as declared ([VectorDocument], what [insert] receives), and [JsValue]
    for a document built from a backend row ([ReadDocument]), whose fields
    hold whatever the row's flat mapping held. *)
Record DocumentOf (S N : Type) : Type := {
  id : string;
  vector : list number;
  content : string;
  relativePath : S;
  startLine : N;
  endLine : N;
  fileExtension : S;
  metadata : Metadata;
}.
Arguments id {S N}.
Arguments vector {S N}.
Arguments content {S N}.
Arguments relativePath {S N}.
Arguments startLine {S N}.
Arguments endLine {S N}.
Arguments fileExtension {S N}.
Arguments metadata {S N}.

Abbreviation VectorDocument := (DocumentOf string number).
Abbreviation ReadDocument := (DocumentOf JsValue JsValue).

(** [VectorSearchResult] and [HybridSearchResult]: both are
    [{ document, score }]. *)
Record SearchResult : Type := {
  document : ReadDocument;
  score : number;
}.
Abbreviation VectorSearchResult := SearchResult.
Abbreviation HybridSearchResult := SearchResult.

(** A backend predicate ([where]): the [$in] clause the adapter builds, or
    an object the caller of [search] supplies as [options.filter]. *)
Inductive Where : Type :=
  | WhereIn (field : string) (values : list string)
  | WhereObject (o : Metadata).

(** The request and option shapes are declared in [./types], which is not
    among the sources; their fields here are the ones the adapter reads
    or writes, limits being integers as in section 3 of the spec. *)

(** [request.data]: a dense vector, a text, or anything else. *)
Inductive RequestData : Type :=
  | DataArray (v : list number)
  | DataString (s : string)
  | DataNumber (x : number)
  | DataUndefined.

Module HybridSearchRequest.
Record t : Type := {
  data : RequestData;
  anns_field : string;
  param : Metadata;
  limit : Z;
}.
End HybridSearchRequest.

Module HybridSearchOptions.
Record t : Type := {
  limit : option Z;
  filterExpr : option string;
}.
End HybridSearchOptions.

Module SearchOptions.
Record t : Type := {
  topK : option Z;
  filter : option Where;
  filterExpr : option string;
}.
End SearchOptions.

(** What [collection.query] is called with, and what it answers. *)
Record QueryParams : Type := {
  queryEmbeddings : option (list (list number));
  queryTexts : option (list RequestData);
  nResults : Z;
  include : list string;
  where_ : option Where;
}.

Record QueryResponse : Type := {
  ids : option (list (list string));
  metadatas : option (list (list (option Metadata)));
  documents : option (list (list (option string)));
  distances : option (list (list (option number)));
}.

(** What [collection.add] is called with. *)
Record AddParams : Type := {
  add_ids : list string;
  add_embeddings : list (list number);
  add_documents : list string;
  add_metadatas : list Metadata;
}.

(** ** The Chroma client

    The adapter's collaborators, over a state [World] of the client and
    the remote store; each call may change the state and may throw. *)
Class Chroma : Type := {
  World : Type;
  Exn : Type;
  Collection : Type;
  ensureInitialized : World -> (Exn + unit) * World;
  getCollection : string -> World -> (Exn + Collection) * World;
  collection_query : Collection -> QueryParams -> World -> (Exn + QueryResponse) * World;
  collection_add : Collection -> AddParams -> World -> (Exn + unit) * World;
}.

Section Adapter.
Context `{Chroma}.

(** An asynchronous computation of the adapter: state passing, with a
    thrown error or a value. *)
Definition M (A : Type) : Type := World -> (Exn + A) * World.

Definition ret {A} (a : A) : M A := fun w => (inr a, w).

Definition bind {A B} (m : M A) (k : A -> M B) : M B :=
  fun w =>
    match m w with
    | (inl e, w') => (inl e, w')
    | (inr a, w') => k a w'
    end.

(** [try { m } catch (error) { console.error(..); throw error; }] *)
Definition try_rethrow {A} (m : M A) : M A :=
  fun w =>
    match m w with
    | (inl error, w') => (inl error, w')
    | (inr a, w') => (inr a, w')
    end.

End Adapter.

Notation "'await' x := m 'in' k" := (bind m (fun x => k))
  (at level 10, x name, m at level 100, k at level 200).

Section AdapterOperations.
Context `{Chroma}.

(** *** Reading a backend row *)

(** [rows?.[0]?.[i]]: [undefined] (here [None]) when the table, its first
    row or the entry is missing or null. *)
Definition at_row {A} (rows : option (list (list (option A)))) (i : nat) : option A :=
  match rows with
  | Some (row :: _) => mjoin (row !! i)
  | _ => None
  end.

Definition reserved : list string :=
  ["relativePath"; "startLine"; "endLine"; "fileExtension"].

(** [Object.fromEntries(Object.entries(metadata).filter(([key]) =>
    !reserved.includes(key)))] *)
Definition residual (metadata : Metadata) : Metadata :=
  filter (fun kv => kv.1 ∉ reserved) metadata.

(** The document literal of [search] and of the text branch of
    [hybridSearch] (the two are the same text but for [vector]). *)
Definition read_document (vec : list number) (id_ : string) (document_ : string)
    (metadata_ : Metadata) : ReadDocument :=
  {| id := id_;
     vector := vec;
     content := document_;
     relativePath := js_or (js_get metadata_ "relativePath") (JString "");
     startLine := js_or (js_get metadata_ "startLine") (JNumber Num.zero);
     endLine := js_or (js_get metadata_ "endLine") (JNumber Num.zero);
     fileExtension := js_or (js_get metadata_ "fileExtension") (JString "");
     metadata := residual metadata_ |}.

(** [Math.max(0, 1 - distance)] *)
Definition distance_to_score (distance : number) : number :=
  Num.max Num.zero (Num.sub Num.one distance).

(** The body of the loop over [results.ids[0]]. *)
Definition read_result (vec : list number) (results : QueryResponse) (i : nat)
    (id_ : string) : SearchResult :=
  let metadata_ := default ∅ (at_row (metadatas results) i) in
  let document_ := str_or_empty (at_row (documents results) i) in
  let distance := num_or_zero (at_row (distances results) i) in
  let score_ := distance_to_score distance in
  {| document := read_document vec id_ document_ metadata_; score := score_ |}.

(** [if (results.ids && results.ids[0]) for (i ...) searchResults.push(..)] *)
Definition read_results (vec : list number) (results : QueryResponse) : list SearchResult :=
  match ids results with
  | Some (ids0 :: _) => imap (read_result vec results) ids0
  | _ => []
  end.

(** *** insert *)

(** The metadata literal of [insert]: the four structural fields, then the
    document's own metadata spread over them. *)
Definition insert_metadata (doc : VectorDocument) : Metadata :=
  metadata doc ∪
  <["relativePath" := JString (relativePath doc)]>
  (<["startLine" := JNumber (startLine doc)]>
  (<["endLine" := JNumber (endLine doc)]>
  (<["fileExtension" := JString (fileExtension doc)]> ∅))).

Definition insert (collectionName : string) (docs : list VectorDocument) : M unit :=
  await _ := ensureInitialized in
  try_rethrow (
    await collection := try_rethrow (getCollection collectionName) in
    collection_add collection
      {| add_ids := id <$> docs;
         add_embeddings := vector <$> docs;
         add_documents := content <$> docs;
         add_metadatas := insert_metadata <$> docs |}).

(** *** search *)

Definition include_fields : list string := ["documents"; "metadatas"; "distances"].

Definition search (collectionName : string) (queryVector : list number)
    (options : option SearchOptions.t) : M (list VectorSearchResult) :=
  await _ := ensureInitialized in
  try_rethrow (
    await collection := try_rethrow (getCollection collectionName) in
    let topK := int_or (options ≫= SearchOptions.topK) 10 in
    let queryParams :=
      {| queryEmbeddings := Some [queryVector];
         queryTexts := None;
         nResults := topK;
         include := include_fields;
         where_ := options ≫= SearchOptions.filter |} in
    await results := collection_query collection queryParams in
    ret (read_results queryVector results)).

(** *** hybridSearch *)

(** The [Map] of results by document id, in insertion order. *)
Definition Map_get {V} (m : list (string * V)) (k : string) : option V :=
  snd <$> List.find (fun kv => String.eqb kv.1 k) m.

Fixpoint Map_set {V} (m : list (string * V)) (k : string) (v : V) : list (string * V) :=
  match m with
  | [] => [(k, v)]
  | (k', v') :: m' => if String.eqb k' k then (k', v) :: m' else (k', v') :: Map_set m' k v
  end.

Definition Map_values {V} (m : list (string * V)) : list V := snd <$> m.

(** The body of the loop that adds one modality's results to the map:
    a stored entry keeps its place and its document and has its score
    overwritten ([existing.score = ...]), a new one is set at the end. *)
Definition merge_result (results : list (string * HybridSearchResult))
    (result : VectorSearchResult) : list (string * HybridSearchResult) :=
  match Map_get results (id (document result)) with
  | Some existing =>
      Map_set results (id (document result))
        {| document := document existing;
           score := Num.div (Num.add (score existing) (score result)) Num.two |}
  | None =>
      Map_set results (id (document result))
        {| document := document result; score := score result |}
  end.

(** The predicate of the text branch: any non-empty [filterExpr] gives the
    same fixed clause. *)
Definition default_where : Where := WhereIn "fileExtension" [".ts"; ".js"; ".py"].

Definition text_where (options : option HybridSearchOptions.t) : option Where :=
  match options ≫= HybridSearchOptions.filterExpr with
  | Some expr => if String.eqb expr "" then None else Some default_where
  | None => None
  end.

Definition is_dense (request : HybridSearchRequest.t) : option (list number) :=
  match HybridSearchRequest.data request with
  | DataArray v =>
      if String.eqb (HybridSearchRequest.anns_field request) "vector" then Some v else None
  | _ => None
  end.

Definition is_lexical (request : HybridSearchRequest.t) : bool :=
  String.eqb (HybridSearchRequest.anns_field request) "sparse_vector" ||
  match HybridSearchRequest.data request with
  | DataString _ => true
  | _ => false
  end.

(** One iteration's search: the dense branch, the text branch, or neither. *)
Definition modality_search (collectionName : string)
    (options : option HybridSearchOptions.t) (request : HybridSearchRequest.t)
    : M (list VectorSearchResult) :=
  match is_dense request with
  | Some v =>
      search collectionName v
        (Some {| SearchOptions.topK := Some (HybridSearchRequest.limit request);
                 SearchOptions.filter := None;
                 SearchOptions.filterExpr := options ≫= HybridSearchOptions.filterExpr |})
  | None =>
      if is_lexical request then
        await collection := try_rethrow (getCollection collectionName) in
        let queryParams :=
          {| queryEmbeddings := None;
             queryTexts := Some [HybridSearchRequest.data request];
             nResults := HybridSearchRequest.limit request;
             include := include_fields;
             where_ := text_where options |} in
        await textResults := collection_query collection queryParams in
        ret (read_results [] textResults)
      else ret []
  end.

(** [for (const request of searchRequests) { ... }] *)
Fixpoint fusion_loop (collectionName : string) (options : option HybridSearchOptions.t)
    (searchRequests : list HybridSearchRequest.t)
    (results : list (string * HybridSearchResult))
    : M (list (string * HybridSearchResult)) :=
  match searchRequests with
  | [] => ret results
  | request :: rest =>
      await searchResults := modality_search collectionName options request in
      fusion_loop collectionName options rest (foldl merge_result results searchResults)
  end.

(** [(a, b) => b.score - a.score] *)
Definition compareFn (a b : HybridSearchResult) : number := Num.sub (score b) (score a).

(** [Array.prototype.sort]: a stable sort; for a consistent comparator its
    result is the one ordering a stable sort can give, computed here by
    inserting each element, in order, behind every element that does not
    have to follow it. *)
Fixpoint sort_insert {A} (comparefn : A -> A -> number) (x : A) (l : list A) : list A :=
  match l with
  | [] => [x]
  | y :: l' =>
      match Num.sign (comparefn y x) with
      | Gt => x :: y :: l'
      | _ => y :: sort_insert comparefn x l'
      end
  end.

Definition Array_sort {A} (comparefn : A -> A -> number) (l : list A) : list A :=
  foldl (fun sorted x => sort_insert comparefn x sorted) [] l.

(** [l.slice(0, end)] for an integer [end]: a negative [end] counts from
    the end of the array. *)
Definition Array_slice0 {A} (l : list A) (end_ : Z) : list A :=
  take (Z.to_nat (if (end_ <? 0)%Z then (Z.of_nat (length l) + end_)%Z else end_)) l.

Definition hybridSearch (collectionName : string)
    (searchRequests : list HybridSearchRequest.t)
    (options : option HybridSearchOptions.t) : M (list HybridSearchResult) :=
  await _ := ensureInitialized in
  try_rethrow (
    let limit := int_or (options ≫= HybridSearchOptions.limit) 10 in
    await results := fusion_loop collectionName options searchRequests [] in
    let hybridResults :=
      Array_slice0 (Array_sort compareFn (Map_values results)) limit in
    ret hybridResults).

End AdapterOperations.

(** *** query: the conversion of the filter expression *)

(** [where] as [query] computes it from [filter]; [None] is the
    [undefined] passed on when no key was set. *)
Definition query_where (filter_ : string) : option Where :=
  if negb (String.eqb filter_ "") && negb (String.eqb (Str.trim filter_) "") then
    if Str.includes "fileExtension in" filter_ then
      match Str.match_brackets (list_ascii_of_string filter_) with
      | Some group =>
          Some (WhereIn "fileExtension"
                  ((fun ext => string_of_list_ascii (Str.strip_quotes (Str.trim_chars ext)))
                     <$> Str.split_on Str.comma group))
      | None => None
      end
    else None
  else None.

(** ** Scripted backends

    A client whose queries are answered by a fixed function of the query
    and logged in the state, for running the adapter on concrete calls. *)
Definition scripted (respond : QueryParams -> string + QueryResponse) : Chroma :=
  {| World := list QueryParams;
     Exn := string;
     Collection := string;
     ensureInitialized := fun w => (inr tt, w);
     getCollection := fun name w => (inr name, w);
     collection_query := fun _ q w => (respond q, w ++ [q]);
     collection_add := fun _ _ w => (inr tt, w) |}.

(** One row of ids with their distances, no documents, no metadata. *)
Definition rows (ids_ : list string) (distances_ : list number) : QueryResponse :=
  {| ids := Some [ids_];
     metadatas := None;
     documents := None;
     distances := Some [Some <$> distances_] |}.

Definition dense_request (v : list number) (n : Z) : HybridSearchRequest.t :=
  {| HybridSearchRequest.data := DataArray v;
     HybridSearchRequest.anns_field := "vector";
     HybridSearchRequest.param := ∅;
     HybridSearchRequest.limit := n |}.

Definition text_request (q : string) (n : Z) : HybridSearchRequest.t :=
  {| HybridSearchRequest.data := DataString q;
     HybridSearchRequest.anns_field := "sparse_vector";
     HybridSearchRequest.param := ∅;
     HybridSearchRequest.limit := n |}.

Definition options_of (limit_ : Z) (filterExpr_ : option string) : option HybridSearchOptions.t :=
  Some {| HybridSearchOptions.limit := Some limit_;
          HybridSearchOptions.filterExpr := filterExpr_ |}.

(** The scenario of the spec: the dense search finds x at distance 0.1 and
    y at 0.3 (scores 0.9 and 0.7), the text search x at 0.5 and z at 0.2
    (scores 0.5 and 0.8). *)
Definition scenario_respond (q : QueryParams) : string + QueryResponse :=
  match queryEmbeddings q with
  | Some _ => inr (rows ["x"; "y"] [Num.lit 1 10; Num.lit 3 10])
  | None => inr (rows ["x"; "z"] [Num.lit 5 10; Num.lit 2 10])
  end.

Definition scenario_requests : list HybridSearchRequest.t :=
  [dense_request [Num.lit 1 2; Num.lit 1 4] 10; text_request "fusion" 10].

(** A backend on which the text search fails after the dense one worked. *)
Definition text_down_respond (q : QueryParams) : string + QueryResponse :=
  match queryEmbeddings q with
  | Some _ => inr (rows ["x"; "y"] [Num.lit 1 10; Num.lit 3 10])
  | None => inl "backend unavailable"
  end.

(** A backend that finds nothing. *)
Definition empty_respond (q : QueryParams) : string + QueryResponse :=
  inr (rows [] []).

(** The pairs of id and score of a result list. *)
Definition id_scores (l : list SearchResult) : list (string * number) :=
  (fun r => (id (document r), score r)) <$> l.

(** ** Notions the statements use *)

(** The value of a score as a number of ticks; scores are never [NaN]. *)
Definition rank (x : number) : Num.xticks := default (Num.Ticks 0) (Num.ticks x).

#[global] Instance xticks_eq_dec : EqDecision Num.xticks.
Proof. solve_decision. Defined.

(** [falling key x y]: [x] may stand before [y] in an order of falling keys. *)
Definition falling {A} (key : A -> Num.xticks) (x y : A) : Prop :=
  Num.xle (key y) (key x).

(** The position at which [k] first occurs in [l]. *)
Fixpoint first_index (k : string) (l : list string) : option nat :=
  match l with
  | [] => None
  | x :: l' => if decide (x = k) then Some 0 else S <$> first_index k l'
  end.

(** The keys of the map, in insertion order; and the order in which a
    sequence of keys extends them, each key at its first occurrence. *)
Definition Map_keys {V} (m : list (string * V)) : list string := fst <$> m.

Definition first_seen (keys l : list string) : list string :=
  foldl (fun keys x => if decide (x ∈ keys) then keys else keys ++ [x]) keys l.

(** An entry of the map of [hybridSearch]: filed under its document's id,
    with a score that is a score, and a document satisfying [Q]. *)
Definition entry_ok (Q : ReadDocument -> Prop) (kv : string * SearchResult) : Prop :=
  id (document kv.2) = kv.1 /\ Num.rounded false (score kv.2) /\ Q (document kv.2).

Definition result_ok (Q : ReadDocument -> Prop) (r : SearchResult) : Prop :=
  Num.rounded false (score r) /\ Q (document r).

(** The ids of the results of all modality searches of a call, in the order
    the fusion loop meets them. *)
Definition seen_ids (found : list (list SearchResult)) : list string :=
  (fun r => id (document r)) <$> concat found.

(** The score of a result as a key of the sort. *)
Definition score_key (r : SearchResult) : Num.xticks := rank (score r).

Section Collect.
Context `{Chroma}.

(** The result lists of the modality searches of a call, request by request. *)
Fixpoint modality_results (collectionName : string) (options : option HybridSearchOptions.t)
    (searchRequests : list HybridSearchRequest.t) : M (list (list VectorSearchResult)) :=
  match searchRequests with
  | [] => ret []
  | request :: rest =>
      await searchResults := modality_search collectionName options request in
      await more := modality_results collectionName options rest in
      ret (searchResults :: more)
  end.

End Collect.

(** The vector a request's results carry: the request's own on the dense
    branch, the empty one otherwise. *)
Definition request_vector (request : HybridSearchRequest.t) (d : ReadDocument) : Prop :=
  match is_dense request with
  | Some v => vector d = v
  | None => vector d = []
  end.

(** The ids of a result list. *)
Definition result_ids (l : list SearchResult) : list string :=
  (fun r => id (document r)) <$> l.

(** A metadata object that uses none of the four structural keys. *)
Definition no_reserved (m : Metadata) : Prop :=
  forall k, k ∈ reserved -> m !! k = None.

(** A number that [x || 0] leaves as it is: not [NaN] and not [-0]. *)
Definition plain_number (x : number) : Prop :=
  x <> S754_nan /\ x <> S754_zero true.

(** A document as [read_document] would build it from fields that kept
    their declared types. *)
Definition as_read (vec : list number) (doc : VectorDocument) : ReadDocument :=
  {| id := id doc;
     vector := vec;
     content := content doc;
     relativePath := JString (relativePath doc);
     startLine := JNumber (startLine doc);
     endLine := JNumber (endLine doc);
     fileExtension := JString (fileExtension doc);
     metadata := metadata doc |}.

(** A filter expression [fileExtension in [q1, q2, ...]] with each value
    between double quotes. *)
Definition quoted (v : string) : string :=
  String Str.dquote (v ++ String Str.dquote EmptyString).

(** The same as characters. *)
Definition qchars (v : string) : list ascii :=
  Str.dquote :: list_ascii_of_string v ++ [Str.dquote].

Fixpoint quoted_list (vs : list string) : string :=
  match vs with
  | [] => ""
  | [v] => quoted v
  | v :: vs' => quoted v ++ ", " ++ quoted_list vs'
  end.

Definition in_expression (field : string) (vs : list string) : string :=
  field ++ " in [" ++ quoted_list vs ++ "]".

(** A value the conversion hands back unchanged: no bracket, comma or quote. *)
Definition plain_char (c : ascii) : bool :=
  negb (Ascii.eqb c Str.close_bracket || Ascii.eqb c Str.comma ||
        Ascii.eqb c Str.quote || Ascii.eqb c Str.dquote).

Definition plain (v : string) : Prop :=
  forallb plain_char (list_ascii_of_string v) = true.

(** ** Concrete calls *)

(** The scenario run with limit 3 and no filter, and its outcome. *)
Definition scenario_run : (string + list HybridSearchResult) * list QueryParams :=
  @hybridSearch (scripted scenario_respond) "code" scenario_requests (options_of 3 None) [].

Definition scenario_out : list HybridSearchResult :=
  match fst scenario_run with
  | inr out => out
  | inl _ => []
  end.

(** A call with a filter expression on a backend that logs its queries. *)
Definition filtered_run : (string + list HybridSearchResult) * list QueryParams :=
  @hybridSearch (scripted empty_respond) "code" scenario_requests
    (options_of 5 (Some (in_expression "fileExtension" [".ts"]))) [].

(** A request that is neither dense nor text: a number under [vector]. *)
Definition odd_request : HybridSearchRequest.t :=
  {| HybridSearchRequest.data := DataNumber (Num.of_Z 5);
     HybridSearchRequest.anns_field := "vector";
     HybridSearchRequest.param := ∅;
     HybridSearchRequest.limit := 10 |}.

(** The document of the usage notes, with one key of its own. *)
Definition example_document : VectorDocument :=
  {| id := "doc1";
     vector := [Num.lit 1 10; Num.lit 2 10; Num.lit 3 10];
     content := "function example() { return 1; }";
     relativePath := "src/example.ts";
     startLine := Num.of_Z 1;
     endLine := Num.of_Z 3;
     fileExtension := ".ts";
     metadata := {["author" := JString "developer"]} |}.

(** A document whose own metadata uses a structural key, and one whose
    first line is not a number. *)
Definition clash_document : VectorDocument :=
  {| id := "doc2";
     vector := [];
     content := "text";
     relativePath := "a.ts";
     startLine := Num.of_Z 1;
     endLine := Num.of_Z 3;
     fileExtension := ".ts";
     metadata := {["relativePath" := JString "b.ts"]} |}.

Definition nan_line_document : VectorDocument :=
  {| id := "doc3";
     vector := [];
     content := "text";
     relativePath := "a.ts";
     startLine := S754_nan;
     endLine := Num.of_Z 3;
     fileExtension := ".ts";
     metadata := ∅ |}.

(** A backend row at distance 0.25. *)
Definition near_rows : QueryResponse := rows ["x"] [Num.lit 1 4].

(** ** The rest of the adapter

    The operations on collections, [delete] and [query], over the further
    calls of the client they make. *)

(** What [client.listCollections] answers with: objects with a [name]. *)
Module CollectionInfo.
Record t : Type := {
  name : string;
}.
End CollectionInfo.

(** What [client.createCollection] is called with; an absent field is a
    key the configuration object was not given. *)
Record CollectionConfig (E : Type) : Type := {
  config_name : string;
  config_embeddingFunction : option E;
  config_metadata : option Metadata;
}.
Arguments config_name {E}.
Arguments config_embeddingFunction {E}.
Arguments config_metadata {E}.

(** What [collection.get] is called with, and what it answers. *)
Record GetParams : Type := {
  get_where : option Where;
  get_include : list string;
  get_nResults : option Z;
}.

Record GetResponse : Type := {
  get_ids : option (list string);
  get_metadatas : option (list (option Metadata));
  get_documents : option (list (option string));
}.

(** The further collaborators: the client's calls on collections, the
    calls [get] and [delete] of a collection, and the embedding function
    the adapter holds once it is initialised. *)
Class ChromaStore (C : Chroma) : Type := {
  EmbeddingFunction : Type;
  embeddingFunction : World -> option EmbeddingFunction;
  client_createCollection : CollectionConfig EmbeddingFunction -> M unit;
  client_deleteCollection : string -> M unit;
  client_listCollections : M (list CollectionInfo.t);
  collection_get : Collection -> GetParams -> M GetResponse;
  collection_delete : Collection -> list string -> M unit;
}.

(** A value of a record [query] returns: a value the backend row held, or
    a member the row object inherits from [Object.prototype]. *)
Inductive AnyValue : Type :=
  | Own (v : JsValue)
  | Inherited (member : string).

Abbreviation QueryRecord := (gmap string AnyValue).

(** The names [Object.prototype] defines. *)
Definition object_prototype : list string :=
  ["constructor"; "__defineGetter__"; "__defineSetter__"; "hasOwnProperty";
   "__lookupGetter__"; "__lookupSetter__"; "isPrototypeOf"; "propertyIsEnumerable";
   "toString"; "valueOf"; "__proto__"; "toLocaleString"].

(** [result[field]], [None] for [undefined]: the row's own value, or else
    what the name finds on the prototype. *)
Definition get_field (result : Metadata) (field : string) : option AnyValue :=
  match result !! field with
  | Some JUndefined => None
  | Some v => Some (Own v)
  | None => if bool_decide (field ∈ object_prototype) then Some (Inherited field) else None
  end.

(** [filteredResult[field] = value] on the own properties of
    [filteredResult] and on whether it still inherits from
    [Object.prototype]: as long as it does, an assignment to [__proto__]
    runs the inherited setter, which creates no property, and makes the
    object inherit from nothing when the value is [null]. *)
Definition set_field (o : QueryRecord * bool) (field : string) (value : AnyValue)
    : QueryRecord * bool :=
  if String.eqb field "__proto__" && o.2 then
    match value with
    | Own JNull => (o.1, false)
    | _ => o
    end
  else (<[field := value]> o.1, o.2).

(** [for (const field of outputFields) if (result[field] !== undefined)
    filteredResult[field] = result[field]] *)
Definition pick_fields (outputFields : list string) (result : Metadata) : QueryRecord :=
  (foldl (fun o field =>
            match get_field result field with
            | Some value => set_field o field value
            | None => o
            end)
         (∅, true) outputFields).1.

(** The object [{ id, content, ...metadata }] of row [i]. *)
Definition query_row (results : GetResponse) (i : nat) (id_ : string) : Metadata :=
  let metadata_ := default ∅ (get_metadatas results ≫= fun l => mjoin (l !! i)) in
  let document_ := str_or_empty (get_documents results ≫= fun l => mjoin (l !! i)) in
  metadata_ ∪ <["id" := JString id_]> (<["content" := JString document_]> ∅).

Definition query_record (outputFields : list string) (results : GetResponse) (i : nat)
    (id_ : string) : QueryRecord :=
  let result := query_row results i id_ in
  match outputFields with
  | _ :: _ => pick_fields outputFields result
  | [] => Own <$> result
  end.

(** [if (results.ids) for (i ...) queryResults.push(..)] *)
Definition query_records (outputFields : list string) (results : GetResponse)
    : list QueryRecord :=
  match get_ids results with
  | Some ids_ => imap (query_record outputFields results) ids_
  | None => []
  end.

Section StoreOperations.
Context `{ChromaStore}.

(** [try { m } catch (error) { console.error(..); handler }] *)
Definition try_catch {A} (m : M A) (handler : Exn -> M A) : M A :=
  fun w =>
    match m w with
    | (inl error, w') => handler error w'
    | (inr a, w') => (inr a, w')
    end.

(** [this.embeddingFunction] *)
Definition this_embeddingFunction : M (option EmbeddingFunction) :=
  fun w => (inr (embeddingFunction w), w).

(** *** createCollection, createHybridCollection, dropCollection *)

Definition createCollection (collectionName : string) (dimension : number)
    (description : option string) : M unit :=
  await _ := ensureInitialized in
  try_rethrow (
    await embedding := this_embeddingFunction in
    let collectionConfig :=
      {| config_name := collectionName;
         config_embeddingFunction := embedding;
         config_metadata :=
           match description with
           | Some text =>
               if String.eqb text "" then None
               else Some (<["description" := JString text]> ∅)
           | None => None
           end |} in
    client_createCollection collectionConfig).

Definition createHybridCollection (collectionName : string) (dimension : number)
    (description : option string) : M unit :=
  createCollection collectionName dimension description.

Definition dropCollection (collectionName : string) : M unit :=
  await _ := ensureInitialized in
  try_rethrow (client_deleteCollection collectionName).

(** *** hasCollection, listCollections *)

Definition hasCollection (collectionName : string) : M bool :=
  await _ := ensureInitialized in
  try_catch
    (await collections := client_listCollections in
     ret (existsb (fun collection => String.eqb (CollectionInfo.name collection) collectionName)
            collections))
    (fun _ => ret false).

Definition listCollections : M (list string) :=
  await _ := ensureInitialized in
  try_rethrow (
    await collections := client_listCollections in
    ret (CollectionInfo.name <$> collections)).

(** *** insertHybrid, delete *)

Definition insertHybrid (collectionName : string) (docs : list VectorDocument) : M unit :=
  insert collectionName docs.

(** [delete], under a name that is free. *)
Definition delete_ (collectionName : string) (ids_ : list string) : M unit :=
  await _ := ensureInitialized in
  try_rethrow (
    await collection := try_rethrow (getCollection collectionName) in
    collection_delete collection ids_).

(** *** query *)

Definition query (collectionName filter_ : string) (outputFields : list string)
    (limit : option Z) : M (list QueryRecord) :=
  await _ := ensureInitialized in
  try_rethrow (
    await collection := try_rethrow (getCollection collectionName) in
    let queryParams :=
      {| get_where := query_where filter_;
         get_include := ["documents"; "metadatas"];
         get_nResults :=
           match limit with
           | Some n => if (n =? 0)%Z then None else Some n
           | None => None
           end |} in
    await results := collection_get collection queryParams in
    ret (query_records outputFields results)).

End StoreOperations.

(** A scripted store: a fixed listing of collections, a collection whose
    [get] is answered by a fixed function of its parameters. *)
Definition scripted_store (listing : string + list CollectionInfo.t)
    (answer : GetParams -> string + GetResponse) : ChromaStore (scripted empty_respond) :=
  @Build_ChromaStore (scripted empty_respond) unit
    (fun _ => None)
    (fun _ (w : list QueryParams) => (inr tt, w))
    (fun _ (w : list QueryParams) => (inr tt, w))
    (fun w : list QueryParams => (listing, w))
    (fun _ p (w : list QueryParams) => (answer p, w))
    (fun _ _ (w : list QueryParams) => (inr tt, w)).

(** ** Further notions the statements use *)

(** The query a request of [hybridSearch] leads to, if any: a dense one
    asks for [request.limit || 10] rows and carries no predicate, a text
    one asks for [request.limit] rows under [text_where]. *)
Definition request_query (options : option HybridSearchOptions.t)
    (request : HybridSearchRequest.t) : option QueryParams :=
  match is_dense request with
  | Some v =>
      Some {| queryEmbeddings := Some [v];
              queryTexts := None;
              nResults := int_or (Some (HybridSearchRequest.limit request)) 10;
              include := include_fields;
              where_ := None |}
  | None =>
      if is_lexical request then
        Some {| queryEmbeddings := None;
                queryTexts := Some [HybridSearchRequest.data request];
                nResults := HybridSearchRequest.limit request;
                include := include_fields;
                where_ := text_where options |}
      else None
  end.

(** A number that is positive and at least 2^[k]. *)
Definition at_least (k : Z) (x : number) : Prop :=
  match x with
  | S754_finite s m e =>
      s = false /\ (Num.emin <= e)%Z /\
      (2 ^ (k - Num.emin) <= Zpos m * 2 ^ (e - Num.emin))%Z
  | S754_infinity s => s = false
  | _ => False
  end.

(** [(a + b) / 2], the step of the running average. *)
Definition average (a b : number) : number := Num.div (Num.add a b) Num.two.

(** The results with document id [k], in order. *)
Definition occurrences (k : string) (rs : list SearchResult) : list SearchResult :=
  filter (fun r => id (document r) = k) rs.

(** The rows a store answers [get] with when it hands back, unchanged,
    what one [add] gave it. *)
Definition stored (p : AddParams) : GetResponse :=
  {| get_ids := Some (add_ids p);
     get_metadatas := Some (Some <$> add_metadatas p);
     get_documents := Some (Some <$> add_documents p) |}.

(** What [insert] hands to [collection.add]. *)
Definition insert_params (docs : list VectorDocument) : AddParams :=
  {| add_ids := id <$> docs;
     add_embeddings := vector <$> docs;
     add_documents := content <$> docs;
     add_metadatas := insert_metadata <$> docs |}.

(** ** Further concrete calls *)

(** The scenario run with limit -1. *)
Definition negative_run : (string + list HybridSearchResult) * list QueryParams :=
  @hybridSearch (scripted scenario_respond) "code" scenario_requests (options_of (-1) None) [].

Definition negative_out : list HybridSearchResult :=
  match fst negative_run with
  | inr out => out
  | inl _ => []
  end.

(** A search of the scenario's backend. *)
Definition search_run : (string + list VectorSearchResult) * list QueryParams :=
  @search (scripted scenario_respond) "code" [Num.lit 1 2] None [].

Definition search_out : list VectorSearchResult :=
  match fst search_run with
  | inr out => out
  | inl _ => []
  end.

(** An answer with one id and nothing else. *)
Definition bare_rows : QueryResponse :=
  {| ids := Some [["x"]]; metadatas := None; documents := None; distances := None |}.

(** A store with two collections that holds the document of the usage
    notes, and one whose listing fails. *)
Definition example_store : ChromaStore (scripted empty_respond) :=
  scripted_store
    (inr [{| CollectionInfo.name := "code" |}; {| CollectionInfo.name := "docs" |}])
    (fun _ => inr (stored (insert_params [example_document]))).

Definition query_run (outputFields : list string)
    : (string + list QueryRecord) * list QueryParams :=
  @query _ example_store "code" "" outputFields (Some 10%Z) [].

Definition query_out (outputFields : list string) : list QueryRecord :=
  match fst (query_run outputFields) with
  | inr out => out
  | inl _ => []
  end.

(** A backend row at distance -1. *)
Definition far_rows : QueryResponse := rows ["x"] [Num.of_Z (-1)].

(** A client that was never initialised: every call on it would answer,
    but [ensureInitialized] throws. *)
Definition offline : Chroma :=
  {| World := list QueryParams;
     Exn := string;
     Collection := string;
     ensureInitialized := fun w => (inl "Chroma client not initialized", w);
     getCollection := fun name w => (inr name, w);
     collection_query := fun _ q w => (inr (rows [] []), w ++ [q]);
     collection_add := fun _ _ w => (inr tt, w) |}.

Definition offline_store : ChromaStore offline :=
  @Build_ChromaStore offline unit
    (fun _ => None)
    (fun _ (w : list QueryParams) => (inr tt, w))
    (fun _ (w : list QueryParams) => (inr tt, w))
    (fun w : list QueryParams => (inr [], w))
    (fun _ _ (w : list QueryParams) => (inr (stored (insert_params [])), w))
    (fun _ _ (w : list QueryParams) => (inr tt, w)).

(* ===================================================================== *)
(** * Part II: facts                                                      *)
(* ===================================================================== *)

(** ** Rounding to binary64

    What the proofs below need of [binary_round_aux]: the mantissa it
    keeps is a quotient by a power of two, incremented at most once, so
    rounding neither changes the sign, nor loses a non-zero value in
    range, nor crosses a power of two. *)

Module NumFacts.
Import Num.
Local Open Scope Z_scope.

Lemma digits2_pos_bounds p :
  2 ^ (Zpos (digits2_pos p) - 1) <= Zpos p < 2 ^ Zpos (digits2_pos p).
Proof.
  induction p as [p IH|p IH|]; cbn [digits2_pos].
  - rewrite Pos2Z.inj_succ.
    replace (Z.succ (Zpos (digits2_pos p)) - 1) with (Z.succ (Zpos (digits2_pos p) - 1)) by lia.
    rewrite !Z.pow_succ_r by lia. lia.
  - rewrite Pos2Z.inj_succ.
    replace (Z.succ (Zpos (digits2_pos p)) - 1) with (Z.succ (Zpos (digits2_pos p) - 1)) by lia.
    rewrite !Z.pow_succ_r by lia. lia.
  - cbn. lia.
Qed.

Lemma shr_1_m mrs : 0 <= shr_m mrs -> shr_m (shr_1 mrs) = shr_m mrs / 2.
Proof.
  destruct mrs as [m r s]; cbn [shr_m]; intros Hm.
  rewrite <- Z.div2_div.
  destruct m as [|[p|p|]|p]; cbn [shr_1 shr_m]; try reflexivity; lia.
Qed.

Lemma div_pow2_nonneg m k : 0 <= m -> 0 <= m / 2 ^ k.
Proof.
  intros Hm. destruct (Z.le_gt_cases 0 k) as [Hk|Hk].
  - apply Z.div_pos; [lia|]. apply Z.pow_pos_nonneg; lia.
  - rewrite Z.pow_neg_r by lia. rewrite Z.div_0_r. lia.
Qed.

(** Shifting right by [p] bits divides the mantissa by 2^[p]. *)
Lemma iter_pos_shr_m p : forall mrs, 0 <= shr_m mrs ->
  shr_m (SpecFloat.iter_pos shr_1 p mrs) = shr_m mrs / 2 ^ Zpos p.
Proof.
  assert (Hpp : forall q, 0 < 2 ^ Zpos q) by (intros; apply Z.pow_pos_nonneg; lia).
  induction p as [p IH|p IH|]; intros mrs Hm; cbn [SpecFloat.iter_pos].
  - assert (H1 : 0 <= shr_m (shr_1 mrs)) by (rewrite shr_1_m by auto; apply Z.div_pos; lia).
    assert (H2 : 0 <= shr_m (SpecFloat.iter_pos shr_1 p (shr_1 mrs))) by (rewrite IH by auto; auto using div_pow2_nonneg).
    rewrite IH, IH, shr_1_m by auto.
    pose proof (Hpp p).
    rewrite !Z.div_div by lia.
    f_equal. rewrite Pos2Z.inj_xI, Z.pow_add_r, Z.pow_mul_r by lia.
    change (2 ^ 2) with (2 * 2). rewrite Z.pow_mul_l. change (2 ^ 1) with 2. lia.
  - assert (H2 : 0 <= shr_m (SpecFloat.iter_pos shr_1 p mrs)) by (rewrite IH by auto; auto using div_pow2_nonneg).
    rewrite IH, IH by auto. pose proof (Hpp p).
    rewrite !Z.div_div by lia.
    f_equal. rewrite Pos2Z.inj_xO. rewrite <- Z.pow_add_r by lia. f_equal. lia.
  - rewrite shr_1_m by auto. reflexivity.
Qed.

Lemma shr_spec mrs e n : 0 <= shr_m mrs ->
  shr_m (fst (shr mrs e n)) = shr_m mrs / 2 ^ Z.max 0 n /\ snd (shr mrs e n) = e + Z.max 0 n.
Proof.
  intros Hm. destruct n as [|p|p]; cbn [shr fst snd].
  - rewrite Z.max_id. change (2 ^ 0) with 1. rewrite Z.div_1_r. lia.
  - rewrite iter_pos_shr_m by auto. rewrite Z.max_r by lia. auto.
  - rewrite Z.max_l by lia. change (2 ^ 0) with 1. rewrite Z.div_1_r. lia.
Qed.

Lemma shr_fexp_spec m e l : 0 <= m ->
  let n := Z.max 0 (fexp prec emax (Zdigits2 m + e) - e) in
  shr_m (fst (shr_fexp prec emax m e l)) = m / 2 ^ n /\ snd (shr_fexp prec emax m e l) = e + n.
Proof.
  intros Hm n. unfold shr_fexp.
  assert (Hr : shr_m (shr_record_of_loc m l) = m) by (destruct l as [|[]]; reflexivity).
  pose proof (shr_spec (shr_record_of_loc m l) e (fexp prec emax (Zdigits2 m + e) - e)) as H.
  rewrite Hr in H. apply H; auto.
Qed.

Lemma round_nearest_even_bounds m l : m <= round_nearest_even m l <= m + 1.
Proof. destruct l as [|[]]; cbn [round_nearest_even]; try destruct (Z.even m); lia. Qed.

(** [binary_round_aux] in closed form: shift, round to nearest even, shift
    again, and build the result. *)
Lemma binary_round_aux_spec sx mx ex lx : 0 <= mx ->
  exists m2,
    mx / 2 ^ rnd_shift mx ex <= m2 <= mx / 2 ^ rnd_shift mx ex + 1 /\
    binary_round_aux prec emax sx mx ex lx =
      rnd_result sx (m2 / 2 ^ rnd_shift m2 (ex + rnd_shift mx ex))
                    (ex + rnd_shift mx ex + rnd_shift m2 (ex + rnd_shift mx ex)).
Proof.
  intros Hm. unfold binary_round_aux.
  pose proof (shr_fexp_spec mx ex lx Hm) as [H1m H1e]. cbv zeta in H1m, H1e.
  fold (rnd_shift mx ex) in H1m, H1e.
  destruct (shr_fexp prec emax mx ex lx) as [mrs' e'] eqn:E1. cbn [fst snd] in H1m, H1e.
  set (m2 := round_nearest_even (shr_m mrs') (loc_of_shr_record mrs')).
  pose proof (round_nearest_even_bounds (shr_m mrs') (loc_of_shr_record mrs')) as Hb. fold m2 in Hb.
  assert (Hm1 : 0 <= shr_m mrs') by (rewrite H1m; apply div_pow2_nonneg; auto).
  assert (Hm2 : 0 <= m2) by lia.
  pose proof (shr_fexp_spec m2 e' loc_Exact Hm2) as [H2m H2e]. cbv zeta in H2m, H2e.
  fold (rnd_shift m2 e') in H2m, H2e.
  destruct (shr_fexp prec emax m2 e' loc_Exact) as [mrs'' e''] eqn:E2. cbn [fst snd] in H2m, H2e.
  exists m2. split; [rewrite <- H1m; lia|].
  rewrite H2m, H2e, H1e. reflexivity.
Qed.

Lemma emin_eq : emin = -1074.
Proof. reflexivity. Qed.

Lemma fexp_ge_emin x : emin <= fexp prec emax x.
Proof. unfold fexp, emin. lia. Qed.

Lemma rnd_shift_nonneg m e : 0 <= rnd_shift m e.
Proof. unfold rnd_shift. lia. Qed.

Lemma rnd_shift_exp m e : emin <= e + rnd_shift m e.
Proof. unfold rnd_shift. pose proof (fexp_ge_emin (Zdigits2 m + e)). lia. Qed.

Lemma Zdigits2_bounds m : 0 < m -> 2 ^ (Zdigits2 m - 1) <= m < 2 ^ Zdigits2 m.
Proof. destruct m as [|p|p]; try lia. intros _. apply digits2_pos_bounds. Qed.

Lemma Zdigits2_pos m : 0 < m -> 0 < Zdigits2 m.
Proof. destruct m; cbn; lia. Qed.

Lemma rnd_shift_pos m e : 0 < m -> emin <= e -> 0 < m / 2 ^ rnd_shift m e.
Proof.
  intros Hm He. pose proof (Zdigits2_bounds m Hm) as [Hlo Hhi].
  pose proof (Zdigits2_pos m Hm) as Hd.
  unfold rnd_shift, fexp. fold emin.
  destruct (Z.le_gt_cases (Z.max (Zdigits2 m + e - prec) emin - e) 0) as [Hn|Hn].
  - rewrite Z.max_l by lia. change (2 ^ 0) with 1. rewrite Z.div_1_r. lia.
  - rewrite Z.max_r by lia.
    assert (Hk : Z.max (Zdigits2 m + e - prec) emin - e = Zdigits2 m - prec) by lia.
    rewrite Hk. unfold prec in *.
    apply Z.div_str_pos. split; [apply Z.pow_pos_nonneg; lia|].
    eapply Z.le_trans; [|exact Hlo]. apply Z.pow_le_mono_r; lia.
Qed.

Lemma rnd_result_rounded s m e : 0 <= m -> emin <= e -> rounded s (rnd_result s m e).
Proof.
  intros Hm He. destruct m as [|p|p]; cbn [rnd_result]; [reflexivity| |lia].
  destruct (e <=? emax - prec); cbn [rounded]; auto.
Qed.

Lemma rnd_result_nonzero s m e : 0 < m -> emin <= e -> rounded_nonzero s (rnd_result s m e).
Proof.
  intros Hm He. destruct m as [|p|p]; cbn [rnd_result]; [lia| |lia].
  destruct (e <=? emax - prec); cbn [rounded_nonzero]; auto.
Qed.

(** Rounding keeps the sign and never gives [NaN]; it keeps a non-zero
    value in range non-zero. *)
Lemma binary_round_aux_rounded sx mx ex lx :
  0 <= mx -> rounded sx (binary_round_aux prec emax sx mx ex lx).
Proof.
  intros Hm. destruct (binary_round_aux_spec sx mx ex lx Hm) as (m2 & Hb & ->).
  pose proof (div_pow2_nonneg mx (rnd_shift mx ex) Hm).
  apply rnd_result_rounded.
  - apply div_pow2_nonneg. lia.
  - pose proof (rnd_shift_exp mx ex). pose proof (rnd_shift_nonneg m2 (ex + rnd_shift mx ex)). lia.
Qed.

Lemma binary_round_aux_nonzero sx mx ex lx :
  0 < mx -> emin <= ex -> rounded_nonzero sx (binary_round_aux prec emax sx mx ex lx).
Proof.
  intros Hm He. destruct (binary_round_aux_spec sx mx ex lx) as (m2 & Hb & ->); [lia|].
  pose proof (rnd_shift_pos mx ex Hm He).
  pose proof (rnd_shift_nonneg mx ex). pose proof (rnd_shift_nonneg m2 (ex + rnd_shift mx ex)).
  apply rnd_result_nonzero; [|lia].
  apply rnd_shift_pos; lia.
Qed.

Lemma pos_iter_xO m d : Zpos (Pos.iter xO m d) = Zpos m * 2 ^ Zpos d.
Proof.
  revert m. induction d as [|d IH] using Pos.peano_ind; intros m.
  - cbn [Pos.iter]. change (2 ^ 1) with 2. lia.
  - rewrite Pos.iter_succ. rewrite Pos2Z.inj_xO, IH, Pos2Z.inj_succ, Z.pow_succ_r by lia. lia.
Qed.

Lemma shl_align_spec mx ex ex' :
  Zpos (fst (shl_align mx ex ex')) = Zpos mx * 2 ^ Z.max 0 (ex - ex') /\
  snd (shl_align mx ex ex') = ex - Z.max 0 (ex - ex').
Proof.
  unfold shl_align. destruct (ex' - ex) as [|d|d] eqn:E; cbn [fst snd].
  - rewrite Z.max_l by lia. change (2 ^ 0) with 1. lia.
  - rewrite Z.max_l by lia. change (2 ^ 0) with 1. lia.
  - rewrite pos_iter_xO. replace (Z.max 0 (ex - ex')) with (Zpos d) by lia. lia.
Qed.

Lemma binary_round_rounded sx mx ex : rounded sx (binary_round prec emax sx mx ex).
Proof.
  unfold binary_round. destruct (shl_align mx ex _) as [mz ez].
  apply binary_round_aux_rounded. lia.
Qed.

Lemma binary_round_nonzero sx mx ex :
  emin <= ex -> rounded_nonzero sx (binary_round prec emax sx mx ex).
Proof.
  intros He. unfold binary_round.
  pose proof (shl_align_spec mx ex (fexp prec emax (Zpos (digits2_pos mx) + ex))) as [_ H2].
  destruct (shl_align mx ex _) as [mz ez]. cbn [snd] in H2.
  apply binary_round_aux_nonzero; [lia|].
  pose proof (fexp_ge_emin (Zpos (digits2_pos mx) + ex)). lia.
Qed.

Lemma rounded_nonzero_sign s x : rounded_nonzero s x -> sign x = if s then Lt else Gt.
Proof. destruct x; cbn; try tauto; [intros ->|intros [-> _]]; reflexivity. Qed.

Lemma pow2_pos k : 0 <= k -> 0 < 2 ^ k.
Proof. intros; apply Z.pow_pos_nonneg; lia. Qed.

Lemma binary_normalize_sign M e :
  emin <= e -> sign (binary_normalize prec emax M e false) = Z.compare M 0.
Proof.
  intros He. destruct M as [|p|p]; cbn [binary_normalize].
  - reflexivity.
  - apply (rounded_nonzero_sign false), binary_round_nonzero, He.
  - apply (rounded_nonzero_sign true), binary_round_nonzero, He.
Qed.

Lemma aligned_ticks s m e ez :
  emin <= ez -> ez <= e ->
  cond_Zopp s (Zpos m) * 2 ^ (e - emin) =
  cond_Zopp s (Zpos (fst (shl_align m e ez))) * 2 ^ (ez - emin).
Proof.
  intros H1 H2. destruct (shl_align_spec m e ez) as [-> _].
  rewrite Z.max_r by lia.
  replace (e - emin) with ((e - ez) + (ez - emin)) by lia.
  rewrite Z.pow_add_r by lia. destruct s; cbn [cond_Zopp]; lia.
Qed.

(** The sign of a difference is the order of the values: no difference of
    two distinct values in range rounds to zero. *)
Lemma sub_sign x y tx ty :
  wf x -> wf y -> ticks x = Some tx -> ticks y = Some ty ->
  sign (sub x y) = xcompare tx ty.
Proof.
  intros Wx Wy Hx Hy.
  destruct x as [sx|sx| |sx mx ex], y as [sy|sy| |sy my ey]; cbn [ticks] in Hx, Hy; try discriminate;
    injection Hx as <-; injection Hy as <-; cbn [wf] in Wx, Wy.
  - destruct sx, sy; reflexivity.
  - destruct sx, sy; reflexivity.
  - cbn [sub SFsub sign xcompare].
    pose proof (pow2_pos (ey - emin) ltac:(lia)). 
    destruct sy; cbn [negb cond_Zopp]; symmetry; [apply Z.compare_gt_iff|apply Z.compare_lt_iff]. all: nia.
  - destruct sx, sy; reflexivity.
  - destruct sx, sy; reflexivity.
  - destruct sx; reflexivity.
  - cbn [sub SFsub sign xcompare].
    pose proof (pow2_pos (ex - emin) ltac:(lia)). 
    destruct sx; cbn [negb cond_Zopp]; symmetry; [apply Z.compare_lt_iff|apply Z.compare_gt_iff]; nia.
  - destruct sy; reflexivity.
  - unfold sub, SFsub. cbv zeta.
    rewrite binary_normalize_sign by lia. cbn [xcompare].
    rewrite (aligned_ticks sx mx ex (Z.min ex ey)) by lia.
    rewrite (aligned_ticks sy my ey (Z.min ex ey)) by lia.
    set (a := cond_Zopp sx _). set (b := cond_Zopp sy _).
    pose proof (pow2_pos (Z.min ex ey - emin) ltac:(lia)) as Hp.
    set (c := 2 ^ _) in *.
    destruct (Z.compare_spec (a * c) (b * c)); [apply Z.compare_eq_iff|apply Z.compare_lt_iff|apply Z.compare_gt_iff]; nia.
Qed.

Lemma pow2_lt_inv a b : 0 <= b -> 2 ^ a < 2 ^ b -> a < b.
Proof.
  intros Hb H. destruct (Z.lt_ge_cases a b) as [|Hge]; [assumption|].
  exfalso. assert (2 ^ b <= 2 ^ a) by (apply Z.pow_le_mono_r; lia). lia.
Qed.

Lemma pow2_le_inv a b : 0 <= b -> 0 <= a -> 2 ^ a <= 2 ^ b -> a <= b.
Proof.
  intros Hb Ha H. destruct (Z.le_gt_cases a b) as [|Hgt]; [assumption|].
  exfalso. assert (2 ^ b < 2 ^ a) by (apply Z.pow_lt_mono_r; lia). lia.
Qed.

(** A positive value below 2^[k] rounds to a finite value of at most
    2^[k]. *)
Lemma binary_round_aux_below sx mz ez lx k :
  0 < mz -> emin <= ez -> emin <= k <= emax - prec ->
  mz * 2 ^ (ez - emin) < 2 ^ (k - emin) ->
  exists m3 e3, binary_round_aux prec emax sx mz ez lx = S754_finite sx m3 e3 /\
    emin <= e3 /\ Zpos m3 * 2 ^ (e3 - emin) <= 2 ^ (k - emin).
Proof.
  intros Hm He Hk Hlt.
  destruct (binary_round_aux_spec sx mz ez lx) as (m2 & Hb & ->); [lia|].
  set (n1 := rnd_shift mz ez) in *. set (e1 := ez + n1) in *.
  set (n2 := rnd_shift m2 e1). 
  pose proof (rnd_shift_nonneg mz ez) as Hn1. fold n1 in Hn1.
  pose proof (rnd_shift_nonneg m2 e1) as Hn2. fold n2 in Hn2.
  pose proof (rnd_shift_pos mz ez Hm He) as Hm1. fold n1 in Hm1.
  assert (Hm2 : 0 < m2) by lia.
  assert (He1 : emin <= e1) by (unfold e1; lia).
  pose proof (rnd_shift_pos m2 e1 Hm2 He1) as Hm3. fold n2 in Hm3.
  (* magnitudes *)
  pose proof (pow2_pos (ez - emin) ltac:(lia)) as Hpz.
  assert (Hez : ez < k).
  { assert (2 ^ (ez - emin) < 2 ^ (k - emin)) by nia.
    apply pow2_lt_inv in H; lia. }
  assert (Hmz : mz < 2 ^ (k - ez)).
  { replace (k - emin) with ((k - ez) + (ez - emin)) in Hlt by lia.
    rewrite Z.pow_add_r in Hlt by lia. nia. }
  pose proof (Zdigits2_bounds mz Hm) as [Hdlo Hdhi].
  pose proof (Zdigits2_pos mz Hm) as Hdp.
  assert (HD : Zdigits2 mz + ez <= k).
  { assert (2 ^ (Zdigits2 mz - 1) < 2 ^ (k - ez)) by lia.
    apply pow2_lt_inv in H; lia. }
  assert (Hke1 : e1 <= k).
  { unfold e1, n1, rnd_shift, fexp. fold emin. unfold prec. lia. }
  assert (Hm1lt : mz / 2 ^ n1 < 2 ^ (k - e1)).
  { apply Z.div_lt_upper_bound; [apply pow2_pos; lia|].
    rewrite <- Z.pow_add_r by lia. replace (n1 + (k - e1)) with (k - ez) by (unfold e1; lia). exact Hmz. }
  assert (Hm2le : m2 <= 2 ^ (k - e1)) by lia.
  assert (Hm3le : (m2 / 2 ^ n2) * 2 ^ n2 <= m2).
  { pose proof (pow2_pos n2 Hn2). rewrite Z.mul_comm. apply Z.mul_div_le. lia. }
  set (m3 := m2 / 2 ^ n2) in *.
  assert (Hfin : m3 * 2 ^ (e1 + n2 - emin) <= 2 ^ (k - emin)).
  { replace (e1 + n2 - emin) with (n2 + (e1 - emin)) by lia.
    rewrite Z.pow_add_r by lia.
    replace (k - emin) with ((k - e1) + (e1 - emin)) by lia.
    rewrite Z.pow_add_r by lia.
    pose proof (pow2_pos (e1 - emin) ltac:(lia)). nia. }
  assert (He3 : e1 + n2 <= k).
  { pose proof (pow2_pos (e1 + n2 - emin) ltac:(lia)).
    assert (2 ^ (e1 + n2 - emin) <= 2 ^ (k - emin)) by nia.
    apply pow2_le_inv in H0; lia. }
  destruct m3 as [|p|p] eqn:E3; try lia.
  exists p, (e1 + n2). cbn [rnd_result].
  replace (e1 + n2 <=? emax - prec) with true by (symmetry; apply Z.leb_le; lia).
  repeat split; [lia|exact Hfin].
Qed.

Lemma binary_round_below sx M e k :
  emin <= e -> emin <= k <= emax - prec ->
  Zpos M * 2 ^ (e - emin) < 2 ^ (k - emin) ->
  exists m3 e3, binary_round prec emax sx M e = S754_finite sx m3 e3 /\
    emin <= e3 /\ Zpos m3 * 2 ^ (e3 - emin) <= 2 ^ (k - emin).
Proof.
  intros He Hk Hlt. unfold binary_round.
  pose proof (shl_align_spec M e (fexp prec emax (Zpos (digits2_pos M) + e))) as [H1 H2].
  pose proof (fexp_ge_emin (Zpos (digits2_pos M) + e)) as Hf.
  destruct (shl_align M e _) as [mz ez]. cbn [fst snd] in H1, H2.
  set (j := Z.max 0 _) in *.
  apply binary_round_aux_below; try lia.
  rewrite H1, H2.
  replace (e - emin) with (j + (e - j - emin)) in Hlt by lia.
  rewrite Z.pow_add_r in Hlt by lia. lia.
Qed.

(** *** Well-formed values *)

Lemma valid_binary_wf x : valid_binary prec emax x = true -> wf x.
Proof.
  destruct x as [| | |s m e]; cbn [valid_binary wf]; auto.
  unfold bounded, canonical_mantissa. intros Hb.
  apply andb_prop in Hb as [Hc _]. apply Z.eqb_eq in Hc.
  pose proof (fexp_ge_emin (Zpos (digits2_pos m) + e)). lia.
Qed.

Lemma rounded_wf s x : rounded s x -> wf x.
Proof. destruct x; cbn; tauto. Qed.

Lemma rounded_not_nan s x : rounded s x -> x <> S754_nan.
Proof. destruct x; cbn; congruence. Qed.

Lemma rounded_ticks s x : rounded s x -> ticks x = Some (rank x).
Proof. destruct x; cbn; tauto. Qed.

Lemma rounded_false_rank x : rounded false x -> xcompare (Ticks 0) (rank x) <> Gt.
Proof.
  destruct x as [s|s| |s m e]; cbn [rounded]; unfold rank; cbn [ticks default xcompare].
  - intros _. discriminate.
  - intros ->. discriminate.
  - tauto.
  - intros [-> He]. cbn [cond_Zopp]. pose proof (pow2_pos (e - emin) ltac:(lia)).
    intros Hc. apply Z.compare_gt_iff in Hc. lia.
Qed.

Lemma one_eq : one = S754_finite false 4503599627370496 (-52).
Proof. reflexivity. Qed.

Lemma two_eq : two = S754_finite false 4503599627370496 (-51).
Proof. reflexivity. Qed.

Lemma ticks_one : ticks one = Some (Ticks (2 ^ (- emin))).
Proof. reflexivity. Qed.

(** *** The comparator's sign is the order of the values *)

Lemma sign_sub_rank a b :
  rounded false a -> rounded false b -> sign (sub a b) = xcompare (rank a) (rank b).
Proof.
  intros Ha Hb. apply sub_sign; eauto using rounded_wf, rounded_ticks.
Qed.

(** *** Scores stay scores *)

Lemma binary_normalize_rounded M e :
  exists s, rounded s (binary_normalize prec emax M e false).
Proof.
  destruct M as [|p|p]; cbn [binary_normalize].
  - exists false. reflexivity.
  - exists false. apply binary_round_rounded.
  - exists true. apply binary_round_rounded.
Qed.

Lemma sub_one_rounded d : d <> S754_nan -> exists s, rounded s (sub one d).
Proof.
  intros Hd. rewrite one_eq. destruct d as [s|s| |s m e]; cbn [sub SFsub].
  - exists false. split; [reflexivity|]. rewrite emin_eq. lia.
  - exists (negb s). reflexivity.
  - congruence.
  - apply binary_normalize_rounded.
Qed.

Lemma max_zero_rounded s v : rounded s v -> rounded false (max zero v).
Proof.
  destruct v as [s'|s'| |s' m e]; cbn [rounded]; unfold max, zero; cbn [SFcompare].
  - intros _. reflexivity.
  - intros _. destruct s'; reflexivity.
  - tauto.
  - intros [_ He]. destruct s'; cbn [rounded]; auto.
Qed.

Lemma num_or_zero_not_nan o : num_or_zero o <> S754_nan.
Proof.
  destruct o as [[| | |]|]; cbn; discriminate.
Qed.

Lemma distance_to_score_rounded o : rounded false (distance_to_score (num_or_zero o)).
Proof.
  unfold distance_to_score.
  destruct (sub_one_rounded (num_or_zero o) (num_or_zero_not_nan o)) as [s Hs].
  eapply max_zero_rounded, Hs.
Qed.

Lemma add_rounded a b : rounded false a -> rounded false b -> rounded false (add a b).
Proof.
  destruct a as [sa|sa| |sa ma ea], b as [sb|sb| |sb mb eb]; cbn [rounded];
    intros Ha Hb; try tauto; unfold add; cbn [SFadd];
    repeat match goal with H : _ /\ _ |- _ => destruct H end; subst;
    cbn [rounded]; auto.
  cbn [cond_Zopp]. rewrite <- Pos2Z.inj_add. cbn [binary_normalize].
  apply binary_round_rounded.
Qed.

Lemma div_eucl_nonneg a b : 0 <= a -> 0 < b -> 0 <= fst (Z.div_eucl a b).
Proof.
  intros Ha Hb. change (fst (Z.div_eucl a b)) with (a / b). apply Z.div_pos; lia.
Qed.

Lemma SFdiv_core_binary_nonneg m1 e1 m2 e2 :
  0 <= fst (fst (SFdiv_core_binary prec emax (Zpos m1) e1 (Zpos m2) e2)).
Proof.
  unfold SFdiv_core_binary. cbv zeta.
  set (s := _ - _ - _).
  set (m' := match s with Z0 => _ | Zpos _ => _ | Zneg _ => _ end).
  assert (Hm' : 0 <= m').
  { unfold m'. destruct s; try lia. apply Z.shiftl_nonneg. lia. }
  pose proof (div_eucl_nonneg m' (Zpos m2) Hm' ltac:(lia)) as Hq.
  destruct (Z.div_eucl m' (Zpos m2)) as [q r]. exact Hq.
Qed.

Lemma div_two_rounded a : rounded false a -> rounded false (div a two).
Proof.
  rewrite two_eq. destruct a as [sa|sa| |sa ma ea]; cbn [rounded]; unfold div; cbn [SFdiv].
  - intros ->. reflexivity.
  - intros ->. reflexivity.
  - tauto.
  - intros [-> _].
    pose proof (SFdiv_core_binary_nonneg ma ea 4503599627370496 (-51)) as Hq.
    destruct (SFdiv_core_binary _ _ _ _ _ _) as [[mz ez] lz]. cbn [fst] in Hq.
    cbn [xorb]. apply binary_round_aux_rounded, Hq.
Qed.

Lemma average_rounded a b :
  rounded false a -> rounded false b -> rounded false (div (add a b) two).
Proof. intros Ha Hb. apply div_two_rounded, add_rounded; assumption. Qed.

(** *** The score of a distance *)

Lemma max_zero_nonpositive v :
  match v with
  | S754_zero _ | S754_finite true _ _ | S754_infinity true => True
  | _ => False
  end -> max zero v = zero.
Proof. destruct v as [s|[]| |[] m e]; cbn; tauto. Qed.

Lemma max_zero_positive v :
  match v with
  | S754_finite false _ _ | S754_infinity false => True
  | _ => False
  end -> max zero v = v.
Proof. destruct v as [s|[]| |[] m e]; cbn; tauto. Qed.

Lemma rounded_true_max_zero v : rounded true v -> max zero v = zero.
Proof.
  intros Hv. apply max_zero_nonpositive.
  destruct v as [s|s| |s m e]; cbn [rounded] in Hv.
  - exact I.
  - subst s. exact I.
  - tauto.
  - destruct Hv as [-> _]. exact I.
Qed.

Lemma one_ticks_eq : 4503599627370496 * 2 ^ (-52 - emin) = 2 ^ (- emin).
Proof. reflexivity. Qed.

(** [1 - d] for a positive finite [d], by the magnitude of [d]. *)
Lemma sub_one_finite m e :
  emin <= e ->
  (Zpos m * 2 ^ (e - emin) < 2 ^ (- emin) ->
     exists m3 e3, sub one (S754_finite false m e) = S754_finite false m3 e3 /\
       emin <= e3 /\ Zpos m3 * 2 ^ (e3 - emin) <= 2 ^ (- emin)) /\
  (2 ^ (- emin) <= Zpos m * 2 ^ (e - emin) ->
     max zero (sub one (S754_finite false m e)) = zero).
Proof.
  intros He. rewrite one_eq. unfold sub, SFsub. cbv zeta.
  set (ez := Z.min (-52) e).
  assert (Hez : emin <= ez) by (unfold ez; rewrite emin_eq in *; lia).
  pose proof (aligned_ticks false 4503599627370496 (-52) ez Hez ltac:(unfold ez; lia)) as HA.
  pose proof (aligned_ticks false m e ez Hez ltac:(unfold ez; lia)) as HB.
  cbn [cond_Zopp] in *. rewrite one_ticks_eq in HA.
  set (A := Zpos (fst (shl_align 4503599627370496 (-52) ez))) in *.
  set (B := Zpos (fst (shl_align m e ez))) in *.
  pose proof (pow2_pos (ez - emin) ltac:(lia)) as Hc.
  set (c := 2 ^ (ez - emin)) in *.
  split.
  - intros Hlt. assert (HM : 0 < A - B) by nia.
    destruct (A - B) as [|p|p] eqn:EM; try lia.
    cbn [binary_normalize].
    apply (binary_round_below false p ez 0); [exact Hez|rewrite emin_eq; unfold emax, prec; lia|].
    fold c. replace (0 - emin) with (- emin) by lia.
    assert (0 < B) by (unfold B; lia). nia.
  - intros Hge. assert (HM : A - B <= 0) by nia.
    destruct (A - B) as [|p|p] eqn:EM; try lia; cbn [binary_normalize].
    + reflexivity.
    + apply rounded_true_max_zero, binary_round_rounded.
Qed.

Lemma le_zero_cases d :
  wf d -> le zero d ->
  match d with
  | S754_zero _ | S754_infinity false | S754_finite false _ _ => True
  | _ => False
  end.
Proof.
  destruct d as [s|[]| |[] m e]; cbn [wf]; unfold le; cbn [ticks zero]; try tauto.
  - intros _ Hc. apply Hc. reflexivity.
  - intros He Hc. apply Hc. cbn [xcompare cond_Zopp].
    pose proof (pow2_pos (e - emin) ltac:(lia)). apply Z.compare_gt_iff. lia.
Qed.

Lemma le_refl x : x <> S754_nan -> le x x.
Proof.
  destruct x as [s|[]| |s m e]; unfold le, xle; cbn [ticks xcompare]; try congruence; intros _;
    rewrite ?Z.compare_refl; discriminate.
Qed.

Lemma le_zero_one : le zero one.
Proof. unfold le, xle. rewrite ticks_one. cbn. discriminate. Qed.

Lemma score_bounds d :
  wf d -> le zero d ->
  le zero (distance_to_score (num_or_zero (Some d))) /\
  le (distance_to_score (num_or_zero (Some d))) one.
Proof.
  intros Wd Hd. pose proof (le_zero_cases d Wd Hd) as Hc.
  unfold distance_to_score.
  destruct d as [s|[]| |[] m e]; try tauto; cbn [num_or_zero truthy].
  - split; [exact le_zero_one|apply le_refl; discriminate].
  - split; [apply le_refl; discriminate|exact le_zero_one].
  - cbn [wf] in Wd. destruct (sub_one_finite m e Wd) as [Hsmall Hbig].
    destruct (Z.lt_ge_cases (Zpos m * 2 ^ (e - emin)) (2 ^ (- emin))) as [Hlt|Hge].
    + destruct (Hsmall Hlt) as (m3 & e3 & -> & He3 & Hle).
      rewrite max_zero_positive by exact I.
      unfold le, xle. rewrite ticks_one. cbn [ticks zero xcompare cond_Zopp].
      pose proof (pow2_pos (e3 - emin) ltac:(lia)).
      split; intros Hgt; apply Z.compare_gt_iff in Hgt; lia.
    + rewrite (Hbig Hge). split; [apply le_refl; discriminate|exact le_zero_one].
Qed.

Lemma score_of_zero d :
  wf d -> eqv d zero -> distance_to_score (num_or_zero (Some d)) = one.
Proof.
  destruct d as [s|[]| |s m e]; cbn [wf]; unfold eqv; cbn [ticks zero xcompare]; intros Wd Hc;
    try discriminate; try tauto; try reflexivity.
  exfalso. apply Z.compare_eq_iff in Hc.
  pose proof (pow2_pos (e - emin) ltac:(lia)). destruct s; cbn [cond_Zopp] in Hc; lia.
Qed.

Lemma score_of_far d :
  wf d -> le one d -> distance_to_score (num_or_zero (Some d)) = zero.
Proof.
  intros Wd Hd. unfold le, xle in Hd. rewrite ticks_one in Hd.
  assert (Hp : 0 < 2 ^ (- emin)) by (apply pow2_pos; rewrite emin_eq; lia).
  destruct d as [s|s| |s m e]; cbn [ticks xcompare] in Hd.
  - exfalso. apply Hd. apply Z.compare_gt_iff. lia.
  - destruct s; [exfalso; apply Hd; reflexivity|reflexivity].
  - tauto.
  - cbn [wf] in Wd. pose proof (pow2_pos (e - emin) ltac:(lia)).
    destruct s; cbn [cond_Zopp] in Hd.
    + exfalso. apply Hd. apply Z.compare_gt_iff. lia.
    + destruct (sub_one_finite m e Wd) as [_ Hbig].
      unfold distance_to_score. cbn [num_or_zero truthy]. apply Hbig.
      destruct (Z.le_gt_cases (2 ^ (- emin)) (Zpos m * 2 ^ (e - emin))) as [|Hgt]; [assumption|].
      exfalso. apply Hd. apply Z.compare_gt_iff. lia.
Qed.

End NumFacts.

(** ** The order of scores *)

Lemma xle_refl a : Num.xle a a.
Proof. destruct a; unfold Num.xle; cbn; rewrite ?Z.compare_refl; discriminate. Qed.

Lemma xle_trans a b c : Num.xle a b -> Num.xle b c -> Num.xle a c.
Proof.
  unfold Num.xle. destruct a, b, c; cbn; try congruence.
  fold (Z.le t t0) (Z.le t0 t1) (Z.le t t1). lia.
Qed.

Lemma xcompare_Gt_xle a b : Num.xcompare a b = Gt -> Num.xle b a.
Proof.
  unfold Num.xle. destruct a, b; cbn; try congruence.
  intros Hgt Hc. apply Z.compare_gt_iff in Hgt, Hc. lia.
Qed.

Lemma xcompare_Gt_neq a b : Num.xcompare a b = Gt -> a <> b.
Proof.
  intros Hgt ->. destruct b; cbn in Hgt; try discriminate.
  rewrite Z.compare_refl in Hgt. discriminate.
Qed.

Lemma xcompare_Eq_eq a b : Num.xcompare a b = Eq <-> a = b.
Proof.
  destruct a, b; cbn; split; try congruence.
  - intros Hc. apply Z.compare_eq_iff in Hc. congruence.
  - intros [= ->]. apply Z.compare_refl.
Qed.

Lemma xle_antisym a b : Num.xle a b -> Num.xle b a -> a = b.
Proof.
  unfold Num.xle. destruct a, b; cbn; try congruence.
  fold (Z.le t t0) (Z.le t0 t). intros. f_equal. lia.
Qed.

Lemma le_rank x y :
  Num.rounded false x -> Num.rounded false y -> (Num.le x y <-> Num.xle (rank x) (rank y)).
Proof.
  intros Hx Hy. unfold Num.le.
  rewrite (NumFacts.rounded_ticks _ _ Hx), (NumFacts.rounded_ticks _ _ Hy). reflexivity.
Qed.

Lemma eqv_rank x y :
  Num.rounded false x -> Num.rounded false y -> (Num.eqv x y <-> rank x = rank y).
Proof.
  intros Hx Hy. unfold Num.eqv.
  rewrite (NumFacts.rounded_ticks _ _ Hx), (NumFacts.rounded_ticks _ _ Hy).
  apply xcompare_Eq_eq.
Qed.

(** ** Array.prototype.sort

    For a comparator whose sign is the order of a key, on elements [ok]
    (here: results whose score is a score), insertion gives a permutation,
    sorted by falling key, that keeps equal keys in their given order. *)

Section SortFacts.
Context {A : Type} (comparefn : A -> A -> number) (key : A -> Num.xticks) (ok : A -> Prop).
Hypothesis sign_key :
  forall x y, ok x -> ok y -> Num.sign (comparefn y x) = Num.xcompare (key x) (key y).

#[local] Abbreviation falling := (falling key).

Lemma sort_insert_Permutation x l : sort_insert comparefn x l ≡ₚ x :: l.
Proof.
  induction l as [|y l IH]; cbn [sort_insert]; [reflexivity|].
  destruct (Num.sign (comparefn y x)); try reflexivity.
  all: rewrite IH; apply Permutation_swap.
Qed.

Lemma sort_insert_ok x l : ok x -> Forall ok l -> Forall ok (sort_insert comparefn x l).
Proof.
  intros Hx Hl. rewrite sort_insert_Permutation. constructor; assumption.
Qed.

Lemma sort_insert_sorted x l :
  ok x -> Forall ok l -> StronglySorted falling l ->
  StronglySorted falling (sort_insert comparefn x l).
Proof.
  intros Hx Hl Hs. induction l as [|y l IH]; cbn [sort_insert].
  - repeat constructor.
  - inversion Hl as [|? ? Hy Hl']; subst. inversion Hs as [|? ? Hs' Hall]; subst.
    pose proof (sign_key x y Hx Hy) as Hsign.
    destruct (Num.sign (comparefn y x)) eqn:E.
    + constructor; [apply IH; assumption|].
      rewrite sort_insert_Permutation. constructor; [|assumption].
      unfold falling, Num.xle. rewrite <- Hsign. discriminate.
    + constructor; [apply IH; assumption|].
      rewrite sort_insert_Permutation. constructor; [|assumption].
      unfold falling, Num.xle. rewrite <- Hsign. discriminate.
    + symmetry in Hsign. apply xcompare_Gt_xle in Hsign.
      constructor; [assumption|]. constructor; [exact Hsign|].
      eapply Forall_impl; [exact Hall|]. intros z Hz. unfold falling in *.
      eapply xle_trans; eassumption.
Qed.

Lemma filter_none (P : A -> Prop) `{!forall x, Decision (P x)} (l : list A) :
  Forall (fun x => ~ P x) l -> filter P l = [].
Proof.
  induction 1 as [|x l Hx _ IH]; [reflexivity|].
  rewrite filter_cons. destruct (decide (P x)); [contradiction|exact IH].
Qed.

Lemma sort_insert_stable k x l :
  ok x -> Forall ok l -> StronglySorted falling l ->
  filter (fun y => key y = k) (sort_insert comparefn x l) =
  filter (fun y => key y = k) (l ++ [x]).
Proof.
  intros Hx Hl Hs. induction l as [|y l IH]; cbn [sort_insert]; [reflexivity|].
  inversion Hl as [|? ? Hy Hl']; subst. inversion Hs as [|? ? Hs' Hall]; subst.
  pose proof (sign_key x y Hx Hy) as Hsign.
  destruct (Num.sign (comparefn y x)) eqn:E.
  - cbn [app]. rewrite !filter_cons, IH by assumption. reflexivity.
  - cbn [app]. rewrite !filter_cons, IH by assumption. reflexivity.
  - symmetry in Hsign.
    rewrite filter_app, (filter_cons _ x (y :: l)).
    destruct (decide (key x = k)) as [Hk|Hk].
    + (* nothing behind has the key of x *)
      rewrite (filter_none (fun z => key z = k) (y :: l)).
      * rewrite (filter_cons _ x []), decide_True by exact Hk. reflexivity.
      * assert (Hy' : key y <> k).
        { intros Hyk. apply (xcompare_Gt_neq _ _ Hsign). congruence. }
        constructor; [exact Hy'|].
        eapply Forall_impl; [exact Hall|]. intros z Hz Hzk. unfold falling in Hz.
        apply Hy'. apply xle_antisym.
        -- apply xcompare_Gt_xle. congruence.
        -- rewrite <- Hk, <- Hzk in *. exact Hz.
    + rewrite (filter_cons _ x []), decide_False, filter_nil, app_nil_r by exact Hk. reflexivity.
Qed.

(** The three properties of the whole sort, from any sorted start. *)
Lemma sort_foldl sorted l :
  Forall ok sorted -> Forall ok l -> StronglySorted falling sorted ->
  let out := foldl (fun sorted x => sort_insert comparefn x sorted) sorted l in
  out ≡ₚ sorted ++ l /\ StronglySorted falling out /\
  forall k, filter (fun y => key y = k) out = filter (fun y => key y = k) (sorted ++ l).
Proof.
  intros Hs Hl. revert sorted Hs. induction Hl as [|x l Hx Hl IH]; intros sorted Hs Hss; cbn [foldl].
  - rewrite app_nil_r. auto.
  - destruct (IH (sort_insert comparefn x sorted)) as (Hp & Hsorted & Hst).
    + apply sort_insert_ok; assumption.
    + apply sort_insert_sorted; assumption.
    + cbv zeta. split; [|split].
      * rewrite Hp, sort_insert_Permutation. apply Permutation_middle.
      * exact Hsorted.
      * intros k. rewrite Hst, filter_app, sort_insert_stable by assumption.
        rewrite <- filter_app, <- app_assoc. reflexivity.
Qed.

Lemma Array_sort_Permutation l : Array_sort comparefn l ≡ₚ l.
Proof.
  unfold Array_sort.
  assert (Hgen : forall sorted, foldl (fun sorted x => sort_insert comparefn x sorted) sorted l ≡ₚ sorted ++ l).
  { induction l as [|x l IH]; intros sorted; cbn [foldl]; [by rewrite app_nil_r|].
    rewrite IH, sort_insert_Permutation. apply Permutation_middle. }
  apply Hgen.
Qed.

Lemma Array_sort_sorted l : Forall ok l -> StronglySorted falling (Array_sort comparefn l).
Proof.
  intros Hl. apply (sort_foldl [] l); [constructor|assumption|constructor].
Qed.

Lemma Array_sort_stable l k :
  Forall ok l ->
  filter (fun y => key y = k) (Array_sort comparefn l) = filter (fun y => key y = k) l.
Proof.
  intros Hl. apply (sort_foldl [] l); [constructor|assumption|constructor].
Qed.

End SortFacts.

(** ** The map of results *)

Section MapFacts.
Context {V : Type}.
Implicit Types (m : list (string * V)) (k : string) (v : V).

Lemma Map_get_None m k : Map_get m k = None <-> k ∉ Map_keys m.
Proof.
  unfold Map_get, Map_keys. induction m as [|[k' v'] m IH]; simpl.
  - split; [intros _; apply not_elem_of_nil|reflexivity].
  - destruct (String.eqb_spec k' k) as [->|Hne]; simpl.
    + split; [discriminate|]. intros Hn. exfalso. apply Hn. left.
    + rewrite not_elem_of_cons. rewrite IH. split; [intros; split; [congruence|assumption]|tauto].
Qed.

Lemma Map_get_Some m k v : Map_get m k = Some v -> (k, v) ∈ m.
Proof.
  unfold Map_get. induction m as [|[k' v'] m IH]; simpl; [discriminate|].
  destruct (String.eqb_spec k' k) as [->|Hne]; simpl.
  - intros [= ->]. left.
  - intros Hf. right. apply IH, Hf.
Qed.

Lemma Map_keys_set m k v :
  Map_keys (Map_set m k v) = if decide (k ∈ Map_keys m) then Map_keys m else Map_keys m ++ [k].
Proof.
  unfold Map_keys. induction m as [|[k' v'] m IH]; cbn [Map_set].
  - destruct (decide (k ∈ fst <$> [])) as [Hin|_]; [by apply elem_of_nil in Hin|reflexivity].
  - destruct (String.eqb_spec k' k) as [->|Hne]; rewrite !fmap_cons; cbn [fst].
    + rewrite decide_True by left. reflexivity.
    + rewrite IH. destruct (decide (k ∈ fst <$> m)) as [Hin|Hin].
      * rewrite decide_True by (right; exact Hin). reflexivity.
      * rewrite decide_False; [reflexivity|].
        rewrite not_elem_of_cons. split; congruence.
Qed.

Lemma elem_of_Map_set m k v kv : kv ∈ Map_set m k v -> kv = (k, v) \/ kv ∈ m.
Proof.
  induction m as [|[k' v'] m IH]; cbn [Map_set].
  - intros ->%list_elem_of_singleton. auto.
  - destruct (String.eqb_spec k' k) as [->|Hne].
    + intros [->|Hin]%elem_of_cons; [auto|]. right. right. exact Hin.
    + intros [->|Hin]%elem_of_cons; [right; left|].
      destruct (IH Hin) as [->|Hm]; [auto|]. right. right. exact Hm.
Qed.

Lemma Map_get_set_eq m k v : Map_get (Map_set m k v) k = Some v.
Proof.
  unfold Map_get. induction m as [|[k' v'] m IH]; simpl.
  - rewrite String.eqb_refl. reflexivity.
  - destruct (String.eqb_spec k' k) as [->|Hne]; simpl.
    + rewrite String.eqb_refl. reflexivity.
    + apply String.eqb_neq in Hne. rewrite Hne. exact IH.
Qed.

Lemma Map_get_set_ne m k k' v : k <> k' -> Map_get (Map_set m k v) k' = Map_get m k'.
Proof.
  intros Hne. unfold Map_get. induction m as [|[k0 v0] m IH]; simpl.
  - cbn. apply String.eqb_neq in Hne. rewrite Hne. reflexivity.
  - destruct (String.eqb_spec k0 k) as [->|Hne0]; simpl.
    + apply String.eqb_neq in Hne. rewrite Hne. reflexivity.
    + destruct (String.eqb k0 k'); [reflexivity|exact IH].
Qed.

End MapFacts.

(** ** The order of first occurrence *)

Lemma first_seen_snoc keys l x :
  first_seen keys (l ++ [x]) =
  if decide (x ∈ first_seen keys l) then first_seen keys l else first_seen keys l ++ [x].
Proof. unfold first_seen. rewrite foldl_snoc. reflexivity. Qed.

Lemma elem_of_first_seen keys l x : x ∈ first_seen keys l <-> x ∈ keys \/ x ∈ l.
Proof.
  induction l as [|z l IH] using rev_ind.
  - cbn. rewrite elem_of_nil. tauto.
  - rewrite first_seen_snoc. destruct (decide (z ∈ first_seen keys l)) as [Hz|Hz].
    + rewrite IH, elem_of_app, list_elem_of_singleton. split; [tauto|].
      intros [?|[?| ->]]; [tauto|tauto|]. apply IH, Hz.
    + rewrite !elem_of_app, IH, list_elem_of_singleton. tauto.
Qed.

Lemma first_seen_NoDup keys l : NoDup keys -> NoDup (first_seen keys l).
Proof.
  intros Hk. induction l as [|z l IH] using rev_ind; [exact Hk|].
  rewrite first_seen_snoc. destruct (decide (z ∈ first_seen keys l)) as [Hz|Hz]; [exact IH|].
  apply NoDup_app. split; [exact IH|]. split; [|apply NoDup_singleton].
  intros x Hx ->%list_elem_of_singleton. contradiction.
Qed.

Lemma first_index_elem x l : x ∈ l -> exists p, first_index x l = Some p /\ p < length l.
Proof.
  induction l as [|z l IH]; [intros []%elem_of_nil|].
  intros Hin. cbn [first_index length]. destruct (decide (z = x)) as [->|Hne].
  - exists 0. split; [reflexivity|lia].
  - apply elem_of_cons in Hin as [->|Hin]; [congruence|].
    destruct (IH Hin) as (p & -> & Hp). exists (S p). split; [reflexivity|lia].
Qed.

Lemma first_index_app_l x l l' : x ∈ l -> first_index x (l ++ l') = first_index x l.
Proof.
  induction l as [|z l IH]; [intros []%elem_of_nil|].
  intros Hin. cbn [first_index app]. destruct (decide (z = x)) as [->|Hne]; [reflexivity|].
  apply elem_of_cons in Hin as [->|Hin]; [congruence|]. rewrite IH by exact Hin. reflexivity.
Qed.

Lemma first_index_snoc_new x l : x ∉ l -> first_index x (l ++ [x]) = Some (length l).
Proof.
  induction l as [|z l IH]; intros Hn; cbn [first_index app length].
  - rewrite decide_True by reflexivity. reflexivity.
  - apply not_elem_of_cons in Hn as [Hne Hn].
    rewrite decide_False by congruence. rewrite IH by exact Hn. reflexivity.
Qed.

Lemma first_seen_order l x y :
  [x; y] `sublist_of` first_seen [] l ->
  exists p q, first_index x l = Some p /\ first_index y l = Some q /\ p < q.
Proof.
  induction l as [|z l IH] using rev_ind.
  - cbn. intros Hs. apply sublist_nil_r in Hs. discriminate.
  - rewrite first_seen_snoc.
    assert (Hold : [x; y] `sublist_of` first_seen [] l ->
      exists p q, first_index x (l ++ [z]) = Some p /\ first_index y (l ++ [z]) = Some q /\ p < q).
    { intros Hs. destruct (IH Hs) as (p & q & Hp & Hq & Hpq).
      assert (Hx : x ∈ l).
      { assert (x ∈ first_seen [] l) by (eapply sublist_subseteq; [exact Hs|left]).
        apply elem_of_first_seen in H as [[]%elem_of_nil|]; assumption. }
      assert (Hy : y ∈ l).
      { assert (y ∈ first_seen [] l) by (eapply sublist_subseteq; [exact Hs|right; left]).
        apply elem_of_first_seen in H as [[]%elem_of_nil|]; assumption. }
      exists p, q. rewrite !first_index_app_l by assumption. auto. }
    destruct (decide (z ∈ first_seen [] l)) as [Hz|Hz]; [exact Hold|].
    intros Hs. apply sublist_app_r in Hs as (l1 & l2 & Heq & H1 & H2).
    apply sublist_cons_r in H2 as [H2|(l2' & -> & H2)].
    + apply sublist_nil_r in H2 as ->. rewrite app_nil_r in Heq. subst l1. exact (Hold H1).
    + apply sublist_nil_r in H2 as ->.
      destruct l1 as [|x' [|x'' l1]]; [discriminate| |exfalso; destruct l1; discriminate].
      injection Heq as -> ->.
      assert (Hx : x' ∈ l).
      { assert (x' ∈ first_seen [] l) by (eapply sublist_subseteq; [exact H1|left]).
        apply elem_of_first_seen in H as [[]%elem_of_nil|]; assumption. }
      assert (Hzl : z ∉ l).
      { intros Hin. apply Hz, elem_of_first_seen. right. exact Hin. }
      destruct (first_index_elem x' l Hx) as (p & Hp & Hlt).
      exists p, (length l). rewrite first_index_app_l, first_index_snoc_new by assumption. auto.
Qed.

(** Positions and sublists. *)
Lemma sublist_pair {A} (l : list A) i j a b :
  l !! i = Some a -> l !! j = Some b -> i < j -> [a; b] `sublist_of` l.
Proof.
  revert i j. induction l as [|z l IH]; intros i j Hi Hj Hij; [discriminate|].
  destruct i as [|i], j as [|j]; try lia; cbn in Hi, Hj.
  - injection Hi as ->. apply sublist_skip. apply sublist_cons_l.
    apply list_elem_of_lookup_2, list_elem_of_split in Hj as (l1 & l2 & ->).
    exists l1, l2. split; [reflexivity|apply sublist_nil_l].
  - apply sublist_cons. apply (IH i j); [assumption|assumption|lia].
Qed.

Lemma sublist_filter_mono {A} (P : A -> Prop) `{!forall x, Decision (P x)} (l1 l2 : list A) :
  l1 `sublist_of` l2 -> filter P l1 `sublist_of` filter P l2.
Proof.
  induction 1 as [|x l1 l2 _ IH|x l1 l2 _ IH]; [constructor| |].
  - rewrite !filter_cons. destruct (decide (P x)); [apply sublist_skip|]; exact IH.
  - rewrite filter_cons. destruct (decide (P x)); [apply sublist_cons|]; exact IH.
Qed.

(** ** Merging results into the map *)

Section MergeFacts.
Context (Q : ReadDocument -> Prop).

Lemma Map_keys_merge m r :
  Map_keys (merge_result m r) =
  if decide (id (document r) ∈ Map_keys m) then Map_keys m
  else Map_keys m ++ [id (document r)].
Proof. unfold merge_result. destruct (Map_get m _); apply Map_keys_set. Qed.

Lemma Map_keys_foldl_merge rs : forall m,
  Map_keys (foldl merge_result m rs) =
  first_seen (Map_keys m) ((fun r => id (document r)) <$> rs).
Proof.
  induction rs as [|r rs IH]; intros m; [reflexivity|].
  cbn [foldl fmap list_fmap]. rewrite IH, Map_keys_merge. reflexivity.
Qed.

Lemma merge_result_ok m r :
  Forall (entry_ok Q) m -> result_ok Q r -> Forall (entry_ok Q) (merge_result m r).
Proof.
  intros Hm [Hs Hq]. apply Forall_forall. intros kv Hin.
  rewrite Forall_forall in Hm. unfold merge_result in Hin.
  destruct (Map_get m (id (document r))) as [existing|] eqn:E.
  - apply elem_of_Map_set in Hin as [->|Hin]; [|exact (Hm _ Hin)].
    apply Map_get_Some in E. destruct (Hm _ E) as (Hid & Hsc & Hq').
    cbn in Hid, Hsc, Hq'. repeat split; cbn; [exact Hid| |exact Hq'].
    apply NumFacts.average_rounded; assumption.
  - apply elem_of_Map_set in Hin as [->|Hin]; [|exact (Hm _ Hin)].
    repeat split; cbn; assumption.
Qed.

Lemma foldl_merge_ok rs : forall m,
  Forall (entry_ok Q) m -> Forall (result_ok Q) rs ->
  Forall (entry_ok Q) (foldl merge_result m rs).
Proof.
  induction rs as [|r rs IH]; intros m Hm Hrs; [exact Hm|].
  inversion Hrs; subst. cbn [foldl]. apply IH; [apply merge_result_ok|]; assumption.
Qed.

Lemma Map_values_ids m :
  Forall (entry_ok Q) m -> (fun r => id (document r)) <$> Map_values m = Map_keys m.
Proof.
  unfold Map_values, Map_keys. induction 1 as [|[k v] m (Hid & _) _ IH]; [reflexivity|].
  cbn in Hid. rewrite !fmap_cons. cbn [fst snd]. rewrite Hid. f_equal. exact IH.
Qed.

Lemma Map_values_ok m :
  Forall (entry_ok Q) m -> Forall (result_ok Q) (Map_values m).
Proof.
  unfold Map_values. induction 1 as [|[k v] m (_ & Hs & Hq) _ IH]; [constructor|].
  rewrite fmap_cons. constructor; [split; assumption|exact IH].
Qed.

End MergeFacts.

(** ** The adapter's control flow *)

Section AdapterFacts.
Context `{Chroma}.

Lemma try_rethrow_id {A} (m : M A) w : try_rethrow m w = m w.
Proof. unfold try_rethrow. destruct (m w) as [[e|a] w']; reflexivity. Qed.

Lemma bind_inr {A B} (m : M A) (k : A -> M B) w b w' :
  bind m k w = (inr b, w') <-> exists a w0, m w = (inr a, w0) /\ k a w0 = (inr b, w').
Proof.
  unfold bind. destruct (m w) as [[e|a] w0]; split.
  - discriminate.
  - intros (a & w1 & [=] & _).
  - intros Hk. eauto.
  - intros (a' & w1 & [= <- <-] & Hk). exact Hk.
Qed.

Lemma bind_inl {A B} (m : M A) (k : A -> M B) w e w' :
  bind m k w = (inl e, w') <->
  m w = (inl e, w') \/ exists a w0, m w = (inr a, w0) /\ k a w0 = (inl e, w').
Proof.
  unfold bind. destruct (m w) as [[e0|a] w0]; split.
  - intros [= <- <-]. auto.
  - intros [[= <- <-]|(a & w1 & [=] & _)]. reflexivity.
  - intros Hk. right. eauto.
  - intros [[=]|(a' & w1 & [= <- <-] & Hk)]. exact Hk.
Qed.

(** *** What a modality search returns *)

Lemma read_results_ok vec results :
  Forall (result_ok (fun d => vector d = vec)) (read_results vec results).
Proof.
  unfold read_results. destruct (ids results) as [[|ids0 ?]|]; try constructor.
  apply Forall_forall. intros r (i & id_ & -> & _)%elem_of_lookup_imap.
  split; [apply NumFacts.distance_to_score_rounded|reflexivity].
Qed.

Lemma search_inr collectionName queryVector options w rs w' :
  search collectionName queryVector options w = (inr rs, w') ->
  exists results, rs = read_results queryVector results.
Proof.
  unfold search. intros (_ & w0 & _ & Hb)%bind_inr.
  rewrite try_rethrow_id in Hb.
  apply bind_inr in Hb as (collection & w1 & _ & Hb).
  apply bind_inr in Hb as (results & w2 & _ & Hb).
  injection Hb as <- _. eauto.
Qed.

Lemma search_ok collectionName queryVector options w rs w' :
  search collectionName queryVector options w = (inr rs, w') ->
  Forall (result_ok (fun d => vector d = queryVector)) rs.
Proof. intros (results & ->)%search_inr. apply read_results_ok. Qed.

Lemma modality_search_ok collectionName options request w rs w' :
  modality_search collectionName options request w = (inr rs, w') ->
  Forall (result_ok (request_vector request)) rs.
Proof.
  unfold modality_search, request_vector. destruct (is_dense request) as [v|].
  - apply search_ok.
  - destruct (is_lexical request).
    + intros (collection & w1 & _ & Hb)%bind_inr.
      apply bind_inr in Hb as (results & w2 & _ & Hb). injection Hb as <- _.
      apply read_results_ok.
    + intros [= <- _]. constructor.
Qed.

(** *** The loop is the merge of the collected results *)

Lemma fusion_loop_collect collectionName options searchRequests : forall results w,
  fusion_loop collectionName options searchRequests results w =
  match modality_results collectionName options searchRequests w with
  | (inl e, w') => (inl e, w')
  | (inr found, w') => (inr (foldl merge_result results (concat found)), w')
  end.
Proof.
  induction searchRequests as [|request rest IH]; intros results w; [reflexivity|].
  cbn [fusion_loop modality_results]. unfold bind.
  destruct (modality_search collectionName options request w) as [[e|rs] w0]; [reflexivity|].
  rewrite IH.
  destruct (modality_results collectionName options rest w0) as [[e|found] w1]; [reflexivity|].
  unfold ret. cbn [concat]. rewrite foldl_app. reflexivity.
Qed.

Lemma modality_results_ok collectionName options searchRequests : forall w found w',
  modality_results collectionName options searchRequests w = (inr found, w') ->
  Forall2 (fun request rs => Forall (result_ok (request_vector request)) rs)
    searchRequests found.
Proof.
  induction searchRequests as [|request rest IH]; intros w found w'; cbn [modality_results].
  - intros [= <- _]. constructor.
  - intros (rs & w0 & Hrs & Hb)%bind_inr.
    apply bind_inr in Hb as (more & w1 & Hmore & Hb). injection Hb as <- _.
    constructor; [eapply modality_search_ok, Hrs|eapply IH, Hmore].
Qed.

Lemma hybridSearch_inr collectionName searchRequests options w out w' :
  hybridSearch collectionName searchRequests options w = (inr out, w') ->
  exists w0 found,
    ensureInitialized w = (inr tt, w0) /\
    modality_results collectionName options searchRequests w0 = (inr found, w') /\
    out = Array_slice0
            (Array_sort compareFn (Map_values (foldl merge_result [] (concat found))))
            (int_or (options ≫= HybridSearchOptions.limit) 10).
Proof.
  unfold hybridSearch. intros ([] & w0 & Hinit & Hb)%bind_inr.
  rewrite try_rethrow_id in Hb.
  apply bind_inr in Hb as (results & w1 & Hloop & Hb). injection Hb as <- <-.
  rewrite fusion_loop_collect in Hloop.
  destruct (modality_results collectionName options searchRequests w0) as [[e|found] w2] eqn:E;
    [discriminate|].
  injection Hloop as <- <-. exists w0, found. auto.
Qed.

End AdapterFacts.

(** ** The fused list *)

Section FusedFacts.
Context (Q : ReadDocument -> Prop).

Lemma compareFn_sign x y :
  result_ok Q x -> result_ok Q y ->
  Num.sign (compareFn y x) = Num.xcompare (score_key x) (score_key y).
Proof. intros [Hx _] [Hy _]. apply NumFacts.sign_sub_rank; assumption. Qed.

Lemma StronglySorted_weaken {A} (R R' : relation A) (P : A -> Prop) l :
  (forall x y, P x -> P y -> R x y -> R' x y) ->
  Forall P l -> StronglySorted R l -> StronglySorted R' l.
Proof.
  intros HR Hl Hs. induction Hs as [|x l Hs IH Hall]; [constructor|].
  inversion Hl as [|? ? Hx Hl']; subst. constructor; [apply IH, Hl'|].
  rewrite Forall_forall in *. intros y Hy. apply HR; auto.
Qed.

Lemma StronglySorted_take {A} (R : relation A) n l :
  StronglySorted R l -> StronglySorted R (take n l).
Proof.
  intros Hs. rewrite <- (take_drop n l) in Hs. eapply StronglySorted_app_1_l, Hs.
Qed.

(** What sorting and truncating the values of the merged map gives. *)
Lemma fused_facts rs n :
  Forall (result_ok Q) rs ->
  let m := foldl merge_result [] rs in
  let out := Array_slice0 (Array_sort compareFn (Map_values m)) n in
  Forall (result_ok Q) out /\
  NoDup (result_ids out) /\
  StronglySorted (falling score_key) out /\
  (forall a b, [a; b] `sublist_of` out -> score_key a = score_key b ->
     [id (document a); id (document b)] `sublist_of` first_seen [] (result_ids rs)).
Proof.
  intros Hrs m out.
  assert (Hm : Forall (entry_ok Q) m) by (apply foldl_merge_ok; [constructor|exact Hrs]).
  pose proof (Map_values_ok Q m Hm) as Hvals.
  pose proof (Map_values_ids Q m Hm) as Hids.
  assert (Hkeys : Map_keys m = first_seen [] (result_ids rs)) by apply Map_keys_foldl_merge.
  set (sorted := Array_sort compareFn (Map_values m)) in *.
  assert (Hperm : sorted ≡ₚ Map_values m) by apply Array_sort_Permutation.
  assert (Hsub : out `sublist_of` sorted) by apply sublist_take.
  assert (Hsorted_ok : Forall (result_ok Q) sorted) by (rewrite Hperm; exact Hvals).
  split; [|split; [|split]].
  - eapply Forall_forall. intros r Hr. rewrite Forall_forall in Hsorted_ok.
    apply Hsorted_ok. eapply sublist_subseteq; eassumption.
  - assert (Hs : result_ids out `sublist_of` result_ids sorted) by (apply fmap_sublist, Hsub).
    refine (sublist_NoDup _ _ _ Hs).
    unfold result_ids. rewrite Hperm, Hids, Hkeys. apply first_seen_NoDup. constructor.
  - apply StronglySorted_take.
    apply (Array_sort_sorted compareFn score_key (result_ok Q) compareFn_sign), Hvals.
  - intros a b Hab Hkey. rewrite <- Hkeys, <- Hids.
    change [id (document a); id (document b)] with ((fun r => id (document r)) <$> [a; b]).
    apply fmap_sublist.
    transitivity (filter (fun y => score_key y = score_key a) (Map_values m)); [|apply sublist_filter].
    rewrite <- (Array_sort_stable compareFn score_key (result_ok Q) compareFn_sign) by exact Hvals.
    fold sorted.
    assert (Hf : filter (fun y => score_key y = score_key a) [a; b] = [a; b]).
    { rewrite !filter_cons, filter_nil. rewrite decide_True by reflexivity.
      rewrite decide_True by (symmetry; exact Hkey). reflexivity. }
    rewrite <- Hf. apply sublist_filter_mono. etransitivity; eassumption.
Qed.

End FusedFacts.

(** ** The filter conversion on a well-formed expression *)

Module StrFacts.
Import Str.

Lemma chars_app a b :
  list_ascii_of_string (a ++ b) = list_ascii_of_string a ++ list_ascii_of_string b.
Proof. induction a as [|c a IH]; simpl; [reflexivity|]. rewrite IH. reflexivity. Qed.

Lemma span_not_app c a rest :
  Forall (fun x => Ascii.eqb x c = false) a -> span_not c (a ++ c :: rest) = (a, c :: rest).
Proof.
  induction 1 as [|x a Hx _ IH]; cbn [span_not app].
  - rewrite Ascii.eqb_refl. reflexivity.
  - rewrite Hx, IH. reflexivity.
Qed.

Lemma split_on_none c a :
  Forall (fun x => Ascii.eqb x c = false) a -> split_on c a = [a].
Proof.
  induction 1 as [|x a Hx _ IH]; cbn [split_on]; [reflexivity|].
  rewrite Hx, IH. reflexivity.
Qed.

Lemma split_on_app c a b :
  Forall (fun x => Ascii.eqb x c = false) a ->
  split_on c (a ++ c :: b) = a :: split_on c b.
Proof.
  induction 1 as [|x a Hx _ IH]; cbn [split_on app].
  - rewrite Ascii.eqb_refl. reflexivity.
  - rewrite Hx, IH. reflexivity.
Qed.

Lemma trim_start_keeps c l : is_whitespace c = false -> trim_start (c :: l) = c :: l.
Proof. intros Hc. cbn [trim_start]. rewrite Hc. reflexivity. Qed.

Lemma trim_start_snoc a c :
  is_whitespace c = false -> exists x l, trim_start (a ++ [c]) = x :: l.
Proof.
  intros Hc. induction a as [|y a IH]; cbn [trim_start app].
  - rewrite Hc. eauto.
  - destruct (is_whitespace y); eauto.
Qed.

Lemma chars_quoted v : list_ascii_of_string (quoted v) = qchars v.
Proof. unfold quoted, qchars. cbn [list_ascii_of_string]. rewrite chars_app. reflexivity. Qed.

Lemma trim_qchars v : trim_chars (qchars v) = qchars v.
Proof.
  unfold trim_chars, qchars. rewrite trim_start_keeps by reflexivity.
  cbn [rev]. rewrite rev_app_distr. cbn [rev app].
  rewrite trim_start_keeps by reflexivity.
  cbn [rev]. rewrite rev_app_distr, rev_involutive. reflexivity.
Qed.

Lemma trim_space_qchars v : trim_chars (space :: qchars v) = qchars v.
Proof.
  unfold trim_chars at 1. cbn [trim_start]. change (is_whitespace space) with true. cbv iota.
  apply trim_qchars.
Qed.

Lemma plain_char_spec c :
  plain_char c = true ->
  Ascii.eqb c close_bracket = false /\ Ascii.eqb c comma = false /\
  Ascii.eqb c quote = false /\ Ascii.eqb c dquote = false.
Proof.
  unfold plain_char. rewrite negb_true_iff, !orb_false_iff. tauto.
Qed.

Lemma plain_Forall v (P : ascii -> Prop) :
  (forall c, plain_char c = true -> P c) -> plain v -> Forall P (list_ascii_of_string v).
Proof.
  unfold plain. intros HP. induction (list_ascii_of_string v) as [|c l IH]; [constructor|].
  cbn [forallb]. intros [Hc Hl]%andb_prop. constructor; auto.
Qed.

Lemma strip_quotes_qchars v : plain v -> strip_quotes (qchars v) = list_ascii_of_string v.
Proof.
  intros Hv. unfold strip_quotes, qchars. cbn [List.filter].
  change (negb (Ascii.eqb dquote quote || Ascii.eqb dquote dquote)) with false. cbv iota.
  rewrite List.filter_app. cbn [List.filter].
  change (negb (Ascii.eqb dquote quote || Ascii.eqb dquote dquote)) with false. cbv iota.
  rewrite app_nil_r.
  pose proof (plain_Forall v (fun c => negb (Ascii.eqb c quote || Ascii.eqb c dquote) = true)) as HF.
  specialize (HF ltac:(intros c (_ & _ & -> & ->)%plain_char_spec; reflexivity) Hv).
  induction HF as [|c l Hc _ IH]; cbn [List.filter]; [reflexivity|].
  rewrite Hc, IH. reflexivity.
Qed.

Lemma qchars_no c v :
  Ascii.eqb dquote c = false ->
  (forall x, plain_char x = true -> Ascii.eqb x c = false) ->
  plain v -> Forall (fun x => Ascii.eqb x c = false) (qchars v).
Proof.
  intros Hq Hp Hv. unfold qchars. constructor; [exact Hq|].
  apply Forall_app. split; [apply plain_Forall; assumption|]. constructor; [exact Hq|constructor].
Qed.

Lemma chars_quoted_list v vs :
  list_ascii_of_string (quoted_list (v :: vs)) =
  qchars v ++ match vs with
              | [] => []
              | _ :: _ => comma :: space :: list_ascii_of_string (quoted_list vs)
              end.
Proof.
  destruct vs as [|u vs]; cbn [quoted_list].
  - rewrite chars_quoted, app_nil_r. reflexivity.
  - rewrite chars_app, chars_quoted. reflexivity.
Qed.

(** The characters between the brackets hold no closing bracket. *)
Lemma quoted_list_no_close vs :
  Forall plain vs ->
  Forall (fun x => Ascii.eqb x close_bracket = false) (list_ascii_of_string (quoted_list vs)).
Proof.
  induction 1 as [|v vs Hv Hvs IH]; [constructor|].
  rewrite chars_quoted_list. apply Forall_app. split.
  - apply qchars_no; [reflexivity| |exact Hv]. intros x Hx. apply plain_char_spec, Hx.
  - destruct vs; [constructor|]. constructor; [reflexivity|]. constructor; [reflexivity|exact IH].
Qed.

(** Splitting at the commas gives the quoted values, each but the first
    behind a space. *)
Lemma split_quoted_list vs : forall v,
  Forall plain (v :: vs) ->
  split_on comma (list_ascii_of_string (quoted_list (v :: vs))) =
  qchars v :: ((fun u => space :: qchars u) <$> vs).
Proof.
  induction vs as [|u vs IH]; intros v Hall; inversion Hall as [|? ? Hv Hvs]; subst;
    rewrite chars_quoted_list.
  - rewrite app_nil_r. apply split_on_none.
    apply qchars_no; [reflexivity| |exact Hv]. intros x Hx. apply plain_char_spec, Hx.
  - rewrite split_on_app.
    2:{ apply qchars_no; [reflexivity| |exact Hv]. intros x Hx. apply plain_char_spec, Hx. }
    f_equal. cbn [split_on]. change (Ascii.eqb space comma) with false. cbv iota.
    rewrite (IH u Hvs). reflexivity.
Qed.

Lemma convert_pieces vs :
  Forall plain vs ->
  (fun ext => string_of_list_ascii (strip_quotes (trim_chars ext))) <$>
    ((fun u => space :: qchars u) <$> vs) = vs.
Proof.
  induction 1 as [|v vs Hv _ IH]; [reflexivity|].
  rewrite !fmap_cons, IH, trim_space_qchars, strip_quotes_qchars by exact Hv.
  rewrite string_of_list_ascii_of_string. reflexivity.
Qed.

Lemma trim_nonempty c s :
  is_whitespace c = false -> String.eqb (trim (String c s)) "" = false.
Proof.
  intros Hc. unfold trim, trim_chars. cbn [list_ascii_of_string].
  rewrite trim_start_keeps by exact Hc. cbn [rev].
  destruct (trim_start_snoc (rev (list_ascii_of_string s)) c Hc) as (x & l & ->).
  cbn [rev]. destruct (rev l); reflexivity.
Qed.

Lemma match_brackets_skip pre rest :
  Forall (fun x => Ascii.eqb x open_bracket = false) pre ->
  match_brackets (pre ++ rest) = match_brackets rest.
Proof.
  induction 1 as [|x pre Hx _ IH]; cbn [match_brackets app]; [reflexivity|].
  rewrite Hx. exact IH.
Qed.

Lemma match_brackets_here x run rest :
  Forall (fun y => Ascii.eqb y close_bracket = false) (x :: run) ->
  match_brackets (open_bracket :: (x :: run) ++ close_bracket :: rest) = Some (x :: run).
Proof.
  intros Hrun. cbn [match_brackets]. rewrite Ascii.eqb_refl.
  rewrite (span_not_app close_bracket (x :: run) rest Hrun). reflexivity.
Qed.

End StrFacts.

Lemma query_where_fileExtension v vs :
  Forall plain (v :: vs) ->
  query_where (in_expression "fileExtension" (v :: vs)) = Some (WhereIn "fileExtension" (v :: vs)).
Proof.
  intros Hall. unfold query_where, in_expression.
  set (body := quoted_list (v :: vs)).
  change (negb (String.eqb ("fileExtension" ++ " in [" ++ body ++ "]") "")) with true.
  change ("fileExtension" ++ " in [" ++ body ++ "]")%string
    with (String "f" ("ileExtension" ++ " in [" ++ body ++ "]")) at 1.
  rewrite StrFacts.trim_nonempty by reflexivity.
  change (Str.includes "fileExtension in" ("fileExtension" ++ " in [" ++ body ++ "]")) with true.
  cbn [negb andb].
  assert (Hchars : list_ascii_of_string ("fileExtension" ++ " in [" ++ body ++ "]") =
    list_ascii_of_string "fileExtension in " ++
    Str.open_bracket :: list_ascii_of_string body ++ Str.close_bracket :: []).
  { rewrite !StrFacts.chars_app. reflexivity. }
  rewrite Hchars, StrFacts.match_brackets_skip by (repeat constructor).
  pose proof (StrFacts.quoted_list_no_close (v :: vs) Hall) as Hclose. fold body in Hclose.
  pose proof (StrFacts.split_quoted_list vs v Hall) as Hsplit. fold body in Hsplit.
  destruct (list_ascii_of_string body) as [|x run] eqn:Ebody.
  { unfold body in Ebody. rewrite StrFacts.chars_quoted_list in Ebody. discriminate. }
  rewrite StrFacts.match_brackets_here by exact Hclose.
  rewrite Hsplit, fmap_cons. inversion Hall as [|? ? Hv Hvs]; subst.
  rewrite StrFacts.convert_pieces by exact Hvs.
  rewrite StrFacts.trim_qchars, StrFacts.strip_quotes_qchars by exact Hv.
  rewrite string_of_list_ascii_of_string. reflexivity.
Qed.

Lemma query_where_other filter_ :
  Str.includes "fileExtension in" filter_ = false -> query_where filter_ = None.
Proof.
  intros Hno. unfold query_where. rewrite Hno.
  destruct (negb (String.eqb filter_ "") && negb (String.eqb (Str.trim filter_) "")); reflexivity.
Qed.

(** *** The test for the field is a substring test *)

Lemma prefix_app sub rest : String.prefix sub (sub ++ rest) = true.
Proof.
  induction sub as [|c sub IH]; simpl; [destruct rest; reflexivity|].
  destruct (ascii_dec c c) as [_|Hne]; [exact IH|contradiction].
Qed.

Lemma includes_prefix sub s : String.prefix sub s = true -> Str.includes sub s = true.
Proof.
  intros Hp. destruct s; unfold Str.includes; fold Str.includes; rewrite Hp; reflexivity.
Qed.

Lemma includes_app sub pre rest : Str.includes sub (pre ++ sub ++ rest) = true.
Proof.
  induction pre as [|c pre IH].
  - change ("" ++ sub ++ rest)%string with (sub ++ rest)%string.
    apply includes_prefix, prefix_app.
  - change (String c pre ++ sub ++ rest)%string with (String c (pre ++ sub ++ rest)).
    unfold Str.includes; fold Str.includes. rewrite IH. apply orb_true_r.
Qed.

Lemma trim_start_elem c l : c ∈ l -> Str.is_whitespace c = false -> c ∈ Str.trim_start l.
Proof.
  intros Hin Hc. induction l as [|x l IH]; [by apply elem_of_nil in Hin|].
  cbn [Str.trim_start]. destruct (Str.is_whitespace x) eqn:Ex; [|exact Hin].
  apply elem_of_cons in Hin as [->|Hin]; [congruence|apply IH, Hin].
Qed.

Lemma trim_not_blank c s :
  c ∈ list_ascii_of_string s -> Str.is_whitespace c = false ->
  String.eqb (Str.trim s) "" = false.
Proof.
  intros Hin Hc. unfold Str.trim, Str.trim_chars.
  assert (Hc' : c ∈ rev (Str.trim_start (rev (Str.trim_start (list_ascii_of_string s))))).
  { rewrite <- Permutation_rev. apply trim_start_elem; [|exact Hc].
    rewrite <- Permutation_rev. apply trim_start_elem; assumption. }
  destruct (rev _) as [|x l]; [by apply elem_of_nil in Hc'|reflexivity].
Qed.

Lemma append_assoc_string (a b c : string) : ((a ++ b) ++ c = a ++ (b ++ c))%string.
Proof.
  induction a as [|x a IH]; [reflexivity|].
  change (String x ((a ++ b) ++ c) = String x (a ++ (b ++ c)))%string.
  f_equal. exact IH.
Qed.

(** The well-formed expression under a field name that ends in
    [fileExtension]. *)
Lemma query_where_suffix pre v vs :
  Forall (fun x => Ascii.eqb x Str.open_bracket = false) (list_ascii_of_string pre) ->
  Forall plain (v :: vs) ->
  query_where (in_expression (pre ++ "fileExtension") (v :: vs)) =
  Some (WhereIn "fileExtension" (v :: vs)).
Proof.
  intros Hpre Hall. unfold query_where, in_expression.
  set (body := quoted_list (v :: vs)).
  assert (Hs : ((pre ++ "fileExtension") ++ " in [" ++ body ++ "]" =
                pre ++ "fileExtension in" ++ (" [" ++ body ++ "]"))%string).
  { rewrite append_assoc_string. reflexivity. }
  rewrite Hs. rewrite includes_app.
  assert (Hchars : list_ascii_of_string (pre ++ "fileExtension in" ++ " [" ++ body ++ "]") =
    list_ascii_of_string pre ++ list_ascii_of_string "fileExtension in " ++
    Str.open_bracket :: list_ascii_of_string body ++ Str.close_bracket :: []).
  { rewrite !StrFacts.chars_app. reflexivity. }
  assert (Hne : negb (String.eqb (pre ++ "fileExtension in" ++ " [" ++ body ++ "]") "") = true).
  { destruct pre; reflexivity. }
  rewrite Hne. rewrite (trim_not_blank "f"); [|rewrite Hchars, !elem_of_app; right; left; left|reflexivity].
  cbn [negb andb].
  rewrite Hchars, StrFacts.match_brackets_skip by exact Hpre.
  rewrite StrFacts.match_brackets_skip by (repeat constructor).
  pose proof (StrFacts.quoted_list_no_close (v :: vs) Hall) as Hclose. fold body in Hclose.
  pose proof (StrFacts.split_quoted_list vs v Hall) as Hsplit. fold body in Hsplit.
  destruct (list_ascii_of_string body) as [|x run] eqn:Ebody.
  { unfold body in Ebody. rewrite StrFacts.chars_quoted_list in Ebody. discriminate. }
  rewrite StrFacts.match_brackets_here by exact Hclose.
  rewrite Hsplit, fmap_cons. inversion Hall as [|? ? Hv Hvs]; subst.
  rewrite StrFacts.convert_pieces by exact Hvs.
  rewrite StrFacts.trim_qchars, StrFacts.strip_quotes_qchars by exact Hv.
  rewrite string_of_list_ascii_of_string. reflexivity.
Qed.

(** Whatever the text, the conversion gives no predicate or a clause on
    [fileExtension], and a clause only for a text with the substring. *)
Lemma query_where_cases filter_ :
  query_where filter_ = None \/
  exists values,
    query_where filter_ = Some (WhereIn "fileExtension" values) /\
    Str.includes "fileExtension in" filter_ = true.
Proof.
  unfold query_where. destruct (_ && _); [|auto].
  destruct (Str.includes "fileExtension in" filter_); [|auto].
  destruct (Str.match_brackets _); eauto.
Qed.

(** ** The metadata mapping of insert, read back *)

Lemma js_or_string s : js_or (JString s) (JString "") = JString s.
Proof.
  unfold js_or. cbn [js_truthy]. destruct (String.eqb_spec s "") as [->|_]; reflexivity.
Qed.

Lemma js_or_number x : plain_number x -> js_or (JNumber x) (JNumber Num.zero) = JNumber x.
Proof.
  intros [Hnan Hneg]. destruct x as [[]| | |]; try reflexivity; congruence.
Qed.

Lemma reserved_spec k :
  k ∈ reserved <->
  k = "relativePath" \/ k = "startLine" \/ k = "endLine" \/ k = "fileExtension".
Proof.
  unfold reserved. rewrite !elem_of_cons, elem_of_nil. tauto.
Qed.

Lemma insert_metadata_lookup doc k :
  no_reserved (metadata doc) ->
  insert_metadata doc !! k =
  if decide (k = "relativePath") then Some (JString (relativePath doc))
  else if decide (k = "startLine") then Some (JNumber (startLine doc))
  else if decide (k = "endLine") then Some (JNumber (endLine doc))
  else if decide (k = "fileExtension") then Some (JString (fileExtension doc))
  else metadata doc !! k.
Proof.
  intros Hno. unfold insert_metadata.
  repeat case_decide; subst.
  - rewrite lookup_union_r by (apply Hno, reserved_spec; auto). by simplify_map_eq.
  - rewrite lookup_union_r by (apply Hno, reserved_spec; auto). by simplify_map_eq.
  - rewrite lookup_union_r by (apply Hno, reserved_spec; auto). by simplify_map_eq.
  - rewrite lookup_union_r by (apply Hno, reserved_spec; auto). by simplify_map_eq.
  - rewrite lookup_union_l; [reflexivity|]. by simplify_map_eq.
Qed.

Lemma residual_insert_metadata doc :
  no_reserved (metadata doc) -> residual (insert_metadata doc) = metadata doc.
Proof.
  intros Hno. apply map_eq. intros k. unfold residual.
  rewrite map_lookup_filter, insert_metadata_lookup by exact Hno.
  destruct (decide (k ∈ reserved)) as [Hk|Hk].
  - rewrite (Hno k Hk). apply reserved_spec in Hk.
    repeat case_decide; try (exfalso; tauto); cbn; case_guard; cbn; try reflexivity;
      exfalso; cbn in *; rewrite reserved_spec in *; tauto.
  - rewrite reserved_spec in Hk. repeat case_decide; try (exfalso; tauto).
    destruct (metadata doc !! k) as [x|]; [|reflexivity]. cbn.
    case_guard; [reflexivity|]. exfalso. cbn in *. rewrite reserved_spec in *. tauto.
Qed.

Lemma insert_metadata_fields doc :
  no_reserved (metadata doc) ->
  js_get (insert_metadata doc) "relativePath" = JString (relativePath doc) /\
  js_get (insert_metadata doc) "startLine" = JNumber (startLine doc) /\
  js_get (insert_metadata doc) "endLine" = JNumber (endLine doc) /\
  js_get (insert_metadata doc) "fileExtension" = JString (fileExtension doc).
Proof.
  intros Hno. unfold js_get. rewrite !insert_metadata_lookup by exact Hno.
  repeat split; repeat case_decide; try discriminate; try congruence; reflexivity.
Qed.

Lemma read_insert_metadata vec doc :
  no_reserved (metadata doc) -> plain_number (startLine doc) -> plain_number (endLine doc) ->
  read_document vec (id doc) (content doc) (insert_metadata doc) = as_read vec doc.
Proof.
  intros Hno Hs He. unfold read_document, as_read.
  destruct (insert_metadata_fields doc Hno) as (-> & -> & -> & ->).
  rewrite !js_or_string, !js_or_number, residual_insert_metadata by assumption.
  reflexivity.
Qed.

(* ===================================================================== *)
(** * Part III: the claims                                                *)
(* ===================================================================== *)

Section ClaimFacts.
Context `{Chroma}.

(** A result list returned by [hybridSearch] is the truncated sort of the
    merge of what the modality searches returned, request by request. *)
Lemma hybridSearch_fused collectionName searchRequests options w out w' :
  hybridSearch collectionName searchRequests options w = (inr out, w') ->
  exists w0 found,
    ensureInitialized w = (inr tt, w0) /\
    modality_results collectionName options searchRequests w0 = (inr found, w') /\
    Forall2 (fun request rs => Forall (result_ok (request_vector request)) rs)
      searchRequests found /\
    out = Array_slice0
            (Array_sort compareFn (Map_values (foldl merge_result [] (concat found))))
            (int_or (options ≫= HybridSearchOptions.limit) 10).
Proof.
  intros (w0 & found & Hinit & Hfound & ->)%hybridSearch_inr.
  exists w0, found. repeat split; try assumption.
  eapply modality_results_ok, Hfound.
Qed.

Lemma found_ok (Q : HybridSearchRequest.t -> ReadDocument -> Prop) (P : ReadDocument -> Prop)
    (searchRequests : list HybridSearchRequest.t) (found : list (list SearchResult)) :
  (forall request d, request ∈ searchRequests -> Q request d -> P d) ->
  Forall2 (fun request rs => Forall (result_ok (Q request)) rs) searchRequests found ->
  Forall (result_ok P) (concat found).
Proof.
  intros HQ HF. induction HF as [|request rs rest found Hrs _ IH]; [constructor|].
  cbn [concat]. apply Forall_app. split.
  - eapply Forall_impl; [exact Hrs|]. intros r [Hs Hq]. split; [exact Hs|].
    eapply HQ; [left|exact Hq].
  - apply IH. intros request' d Hin. apply HQ. right. exact Hin.
Qed.

Lemma fusion_loop_skip collectionName options request post :
  modality_search collectionName options request = ret [] ->
  forall pre results w,
    fusion_loop collectionName options (pre ++ request :: post) results w =
    fusion_loop collectionName options (pre ++ post) results w.
Proof.
  intros Hskip pre. induction pre as [|r pre IH]; intros results w; cbn [app fusion_loop].
  - rewrite Hskip. reflexivity.
  - unfold bind. destruct (modality_search collectionName options r w) as [[e|rs] w0];
      [reflexivity|apply IH].
Qed.

Lemma fusion_loop_failure collectionName options request post e : forall pre results w found w1 w2,
  modality_results collectionName options pre w = (inr found, w1) ->
  modality_search collectionName options request w1 = (inl e, w2) ->
  fusion_loop collectionName options (pre ++ request :: post) results w = (inl e, w2).
Proof.
  induction pre as [|r pre IH]; intros results w found w1 w2; cbn [app fusion_loop modality_results].
  - intros [= _ <-] Hfail. unfold bind. rewrite Hfail. reflexivity.
  - intros (rs & w0 & Hrs & Hb)%bind_inr Hfail.
    apply bind_inr in Hb as (more & w3 & Hmore & Hb). injection Hb as _ <-.
    unfold bind. rewrite Hrs. eapply IH; eassumption.
Qed.

End ClaimFacts.

(** C1 (a defect of the code).  On a call with a filter expression, the
    query of the dense request is issued with no predicate at all, and the
    query of the text request with the fixed clause: [hybridSearch] hands
    the expression to [search] as [filterExpr], which [search], reading
    only [filter], never looks at. *)
Theorem dense_query_not_filtered :
  where_ <$> snd filtered_run = [None; Some default_where].
Proof. vm_compute. reflexivity. Qed.

(** C2, amended.  The conversion never fails (it is a total function).
    In [query], an expression [fileExtension in [q1, q2, ...]] -- one or
    more values between double quotes, none holding a closing bracket, a
    comma or a quote -- gives the clause with these values under
    [fileExtension]; every string that does not contain the substring
    [fileExtension in] gives no predicate at all.  The field is tested
    for as a substring: the same form under a field name that only ends
    in [fileExtension] gives the same clause, under [fileExtension]; and
    whatever the string, the result is no predicate or a clause on
    [fileExtension], never one on another field and never a default.  In
    [hybridSearch], every non-empty expression gives the fixed clause of
    three file extensions, whatever it says, and an empty or absent one
    gives none. *)
Theorem filter_conversion :
  (forall v vs,
     Forall plain (v :: vs) ->
     query_where (in_expression "fileExtension" (v :: vs)) =
     Some (WhereIn "fileExtension" (v :: vs))) /\
  (forall filter_,
     Str.includes "fileExtension in" filter_ = false -> query_where filter_ = None) /\
  (forall limit_ expr,
     expr <> "" -> text_where (options_of limit_ (Some expr)) = Some default_where) /\
  (forall limit_, text_where (options_of limit_ (Some "")) = None /\
                  text_where (options_of limit_ None) = None) /\
  text_where None = None /\
  (forall pre v vs,
     Forall (fun x => x <> Str.open_bracket) (list_ascii_of_string pre) ->
     Forall plain (v :: vs) ->
     query_where (in_expression (pre ++ "fileExtension") (v :: vs)) =
     Some (WhereIn "fileExtension" (v :: vs))) /\
  (forall filter_,
     query_where filter_ = None \/
     exists values,
       query_where filter_ = Some (WhereIn "fileExtension" values) /\
       Str.includes "fileExtension in" filter_ = true).
Proof.
  split; [exact query_where_fileExtension|]. split; [exact query_where_other|].
  split; [|split; [split; reflexivity|split; [reflexivity|split]]].
  - intros limit_ expr Hne. unfold text_where, options_of. cbn.
    destruct (String.eqb_spec expr "") as [->|_]; [congruence|reflexivity].
  - intros pre v vs Hpre Hall. apply query_where_suffix; [|exact Hall].
    eapply Forall_impl; [exact Hpre|]. intros x Hx. apply Ascii.eqb_neq, Hx.
  - exact query_where_cases.
Qed.

Section Claims.
Context `{Chroma}.

(** C3, general part and scenario.  Merge rule: after a result is merged,
    the map holds under its document id the result itself (score
    unchanged) if the id was new, and otherwise the stored document with
    the mean of the stored and the new score, [(stored + new) / 2]; no
    other id is touched.  In the scenario (dense [x:0.9, y:0.7], then
    text [x:0.5, z:0.8], limit 3) the fused output is
    [z:0.8, x:0.7, y:0.7], in that order. *)
Theorem merge_rule_and_scenario :
  (forall results result,
     Map_get (merge_result results result) (id (document result)) =
     Some match Map_get results (id (document result)) with
          | Some existing =>
              {| document := document existing;
                 score := Num.div (Num.add (score existing) (score result)) Num.two |}
          | None => {| document := document result; score := score result |}
          end) /\
  (forall results result k,
     id (document result) <> k ->
     Map_get (merge_result results result) k = Map_get results k) /\
  (exists found w',
     @modality_results (scripted scenario_respond) "code" (options_of 3 None)
       scenario_requests [] = (inr found, w') /\
     id_scores <$> found =
       [[("x", Num.lit 9 10); ("y", Num.lit 7 10)];
        [("x", Num.lit 5 10); ("z", Num.lit 8 10)]]) /\
  (exists w', scenario_run = (inr scenario_out, w')) /\
  id_scores scenario_out =
    [("z", Num.lit 8 10); ("x", Num.lit 7 10); ("y", Num.lit 7 10)].
Proof.
  split; [|split; [|split; [|split]]].
  - intros results result. unfold merge_result.
    destruct (Map_get results (id (document result))); apply Map_get_set_eq.
  - intros results result k Hk. unfold merge_result.
    destruct (Map_get results (id (document result))); apply Map_get_set_ne, Hk.
  - eexists _, _. split; [vm_compute; reflexivity|]. vm_compute. reflexivity.
  - eexists. vm_compute. reflexivity.
  - vm_compute. reflexivity.
Qed.

(** C4.  The list [hybridSearch] returns is sorted by falling score, and
    of two entries with equal score the one standing first is the one
    whose document id occurs first among the results of the modality
    searches, taken in the order the requests are processed. *)
Theorem hybridSearch_sorted_stable collectionName searchRequests options w out w' :
  hybridSearch collectionName searchRequests options w = (inr out, w') ->
  StronglySorted (fun a b => Num.le (score b) (score a)) out /\
  exists w0 found,
    ensureInitialized w = (inr tt, w0) /\
    modality_results collectionName options searchRequests w0 = (inr found, w') /\
    forall i j a b,
      out !! i = Some a -> out !! j = Some b -> i < j ->
      Num.eqv (score a) (score b) ->
      exists p q,
        first_index (id (document a)) (seen_ids found) = Some p /\
        first_index (id (document b)) (seen_ids found) = Some q /\
        p < q.
Proof.
  intros (w0 & found & Hinit & Hfound & Hok & ->)%hybridSearch_fused.
  assert (Hrs : Forall (result_ok (fun _ => True)) (concat found)).
  { eapply found_ok; [|exact Hok]. auto. }
  destruct (fused_facts _ (concat found) (int_or (options ≫= HybridSearchOptions.limit) 10) Hrs)
    as (Hout & _ & Hsorted & Hstable).
  split.
  - eapply StronglySorted_weaken; [|exact Hout|exact Hsorted].
    intros x y [Hx _] [Hy _] Hxy. apply le_rank; assumption.
  - exists w0, found. repeat split; try assumption.
    intros i j a b Hi Hj Hij Heqv.
    apply first_seen_order. apply Hstable.
    + eapply sublist_pair; eassumption.
    + rewrite Forall_forall in Hout.
      apply eqv_rank; [apply Hout|apply Hout|exact Heqv]; eapply list_elem_of_lookup_2; eassumption.
Qed.

(** C5, amended.  When the backend call of one modality fails during a
    fusion call -- the searches before it having succeeded -- [hybridSearch]
    throws that very error and returns no list, whatever its options. *)
Theorem modality_failure_rethrown collectionName options pre request post w w0 found w1 e w2 :
  ensureInitialized w = (inr tt, w0) ->
  modality_results collectionName options pre w0 = (inr found, w1) ->
  modality_search collectionName options request w1 = (inl e, w2) ->
  hybridSearch collectionName (pre ++ request :: post) options w = (inl e, w2).
Proof.
  intros Hinit Hpre Hfail. unfold hybridSearch, bind. rewrite Hinit.
  rewrite try_rethrow_id.
  rewrite (fusion_loop_failure _ _ _ _ _ _ _ _ _ _ _ Hpre Hfail). reflexivity.
Qed.

(** C6.  For a backend row whose raw distance is a binary64 value at
    least 0, the score [Math.max(0, 1 - distance)] of the result built
    from it -- by [search] (any query vector) as by the text branch of
    [hybridSearch] (empty vector) -- lies between 0 and 1; distance 0
    gives score 1, and every distance of 1 or more gives score 0. *)
Theorem score_in_unit_interval vec results i r d :
  read_results vec results !! i = Some r ->
  at_row (distances results) i = Some d ->
  valid_binary Num.prec Num.emax d = true ->
  Num.le Num.zero d ->
  Num.le Num.zero (score r) /\ Num.le (score r) Num.one /\
  (Num.eqv d Num.zero -> score r = Num.one) /\
  (Num.le Num.one d -> score r = Num.zero).
Proof.
  intros Hr Hd Hvalid Hpos. apply NumFacts.valid_binary_wf in Hvalid.
  unfold read_results in Hr. destruct (ids results) as [[|ids0 ?]|]; try discriminate.
  rewrite list_lookup_imap in Hr. destruct (ids0 !! i) as [id_|]; [|discriminate].
  injection Hr as <-. cbn [read_result score]. rewrite Hd.
  destruct (NumFacts.score_bounds d Hvalid Hpos) as [H0 H1].
  repeat split; try assumption.
  - apply NumFacts.score_of_zero, Hvalid.
  - apply NumFacts.score_of_far, Hvalid.
Qed.

(** C7.  The list [hybridSearch] returns holds no two entries with the
    same document id. *)
Theorem hybridSearch_ids_distinct collectionName searchRequests options w out w' :
  hybridSearch collectionName searchRequests options w = (inr out, w') ->
  NoDup (result_ids out).
Proof.
  intros (w0 & found & Hinit & Hfound & Hok & ->)%hybridSearch_fused.
  assert (Hrs : Forall (result_ok (fun _ => True)) (concat found)).
  { eapply found_ok; [|exact Hok]. auto. }
  apply (fused_facts _ (concat found) _ Hrs).
Qed.

(** C8, amended.  For every document whose own metadata uses none of the
    four structural keys and whose line numbers are neither [NaN] nor
    [-0], the flat mapping [insert] stores, read back by [search] or
    [hybridSearch], gives the four structural fields and the metadata the
    document had. *)
Theorem metadata_round_trip vec doc :
  no_reserved (metadata doc) ->
  plain_number (startLine doc) -> plain_number (endLine doc) ->
  read_document vec (id doc) (content doc) (insert_metadata doc) = as_read vec doc.
Proof. apply read_insert_metadata. Qed.

(** C9.  The documents in the results never carry a vector of the store:
    every result of [search] carries the caller's query vector; every
    result of one modality search of [hybridSearch] carries the request's
    vector on the dense branch and the empty vector on the text branch;
    so every entry of the fused list carries the empty vector or the
    vector of one of the call's dense requests. *)
Theorem result_vectors :
  (forall collectionName queryVector options w rs w',
     search collectionName queryVector options w = (inr rs, w') ->
     Forall (fun r => vector (document r) = queryVector) rs) /\
  (forall collectionName options request w rs w',
     modality_search collectionName options request w = (inr rs, w') ->
     Forall (fun r => request_vector request (document r)) rs) /\
  (forall collectionName searchRequests options w out w',
     hybridSearch collectionName searchRequests options w = (inr out, w') ->
     Forall (fun r => vector (document r) = [] \/
                      exists request, request ∈ searchRequests /\
                                      is_dense request = Some (vector (document r))) out).
Proof.
  split; [|split].
  - intros collectionName queryVector options w rs w' Hs.
    eapply Forall_impl; [eapply search_ok, Hs|]. intros r [_ Hv]. exact Hv.
  - intros collectionName options request w rs w' Hs.
    eapply Forall_impl; [eapply modality_search_ok, Hs|]. intros r [_ Hv]. exact Hv.
  - intros collectionName searchRequests options w out w'
      (w0 & found & Hinit & Hfound & Hok & ->)%hybridSearch_fused.
    set (P := fun d : ReadDocument => vector d = [] \/
      exists request, request ∈ searchRequests /\ is_dense request = Some (vector d)).
    assert (Hrs : Forall (result_ok P) (concat found)).
    { eapply found_ok; [|exact Hok]. intros request d Hin Hv. unfold request_vector in Hv.
      destruct (is_dense request) as [v|] eqn:E; [right|left; exact Hv].
      exists request. split; [exact Hin|]. rewrite E, Hv. reflexivity. }
    destruct (fused_facts _ (concat found) (int_or (options ≫= HybridSearchOptions.limit) 10) Hrs)
      as (Hout & _).
    eapply Forall_impl; [exact Hout|]. intros r [_ Hv]. exact Hv.
Qed.

(** C10.  A request that is neither dense (field [vector] with an array)
    nor text (field [sparse_vector], or a string) is skipped: its search
    returns no results, throws nothing and calls nothing, and the call
    returns what it returns without that request. *)
Theorem unmatched_request_skipped collectionName pre request post options w :
  is_dense request = None -> is_lexical request = false ->
  modality_search collectionName options request w = (inr [], w) /\
  hybridSearch collectionName (pre ++ request :: post) options w =
  hybridSearch collectionName (pre ++ post) options w.
Proof.
  intros Hd Hl.
  assert (Hskip : modality_search collectionName options request = ret []).
  { unfold modality_search. rewrite Hd, Hl. reflexivity. }
  split; [rewrite Hskip; reflexivity|].
  unfold hybridSearch, bind. destruct (ensureInitialized w) as [[e|[]] w0]; [reflexivity|].
  rewrite !try_rethrow_id. unfold bind.
  rewrite (fusion_loop_skip _ _ _ _ Hskip). reflexivity.
Qed.

End Claims.

(** ** Concrete instances *)

(** C2 as stated fails: the form under another field name gives no
    predicate, an expression that is no such form gives none either (not
    the fixed clause), and [hybridSearch] answers the well-formed one with
    the fixed clause. *)
Lemma filter_conversion_counterexample :
  query_where (in_expression "field" ["a"; "b"]) = None /\
  query_where "not-a-valid-expr" = None /\
  text_where (options_of 10 (Some (in_expression "field" ["a"; "b"]))) =
    Some (WhereIn "fileExtension" [".ts"; ".js"; ".py"]).
Proof. repeat split; vm_compute; reflexivity. Qed.

Lemma filter_conversion_witness :
  query_where (in_expression "fileExtension" [".ts"; ".py"]) =
  Some (WhereIn "fileExtension" [".ts"; ".py"]) /\
  query_where (in_expression "myfileExtension" [".ts"; ".py"]) =
  Some (WhereIn "fileExtension" [".ts"; ".py"]).
Proof.
  split.
  - apply (proj1 filter_conversion ".ts" [".py"]).
    repeat constructor.
  - apply (proj1 (proj2 (proj2 (proj2 (proj2 (proj2 filter_conversion))))) "my" ".ts" [".py"]).
    + repeat constructor; discriminate.
    + repeat constructor.
Defined.

(** The substring test at work: a longer field name, a sentence, and a
    value that holds the tested text. *)
Example query_where_substring_examples :
  query_where (in_expression "myfileExtension" ["a"; "b"]) =
    Some (WhereIn "fileExtension" ["a"; "b"]) /\
  query_where "not fileExtension in a list: see note [7]" =
    Some (WhereIn "fileExtension" ["7"]) /\
  query_where (in_expression "path" ["fileExtension in"]) =
    Some (WhereIn "fileExtension" ["fileExtension in"]) /\
  query_where "fileExtension in []" = None.
Proof. repeat split; vm_compute; reflexivity. Qed.

Lemma hybridSearch_sorted_stable_witness :
  StronglySorted (fun a b => Num.le (score b) (score a)) scenario_out /\
  exists w0 found,
    @ensureInitialized (scripted scenario_respond) [] = (inr tt, w0) /\
    @modality_results (scripted scenario_respond) "code" (options_of 3 None)
      scenario_requests w0 = (inr found, snd scenario_run) /\
    forall i j a b,
      scenario_out !! i = Some a -> scenario_out !! j = Some b -> i < j ->
      Num.eqv (score a) (score b) ->
      exists p q,
        first_index (id (document a)) (seen_ids found) = Some p /\
        first_index (id (document b)) (seen_ids found) = Some q /\
        p < q.
Proof.
  apply (@hybridSearch_sorted_stable (scripted scenario_respond) "code" scenario_requests
           (options_of 3 None) [] scenario_out (snd scenario_run)).
  vm_compute. reflexivity.
Defined.

(** C5 as stated fails: with the text search down, no choice of options
    makes the call return a list -- there is no degraded mode. *)
Lemma modality_failure_counterexample :
  ~ exists options out w',
      @hybridSearch (scripted text_down_respond) "code" scenario_requests options [] =
      (inr out, w').
Proof.
  intros (options & out & w' & Hrun). vm_compute in Hrun. discriminate.
Qed.

Lemma modality_failure_rethrown_witness :
  exists w2,
    @hybridSearch (scripted text_down_respond) "code" scenario_requests (options_of 3 None) [] =
    (inl "backend unavailable", w2).
Proof.
  eexists.
  eapply (@modality_failure_rethrown (scripted text_down_respond) "code" (options_of 3 None)
            [dense_request [Num.lit 1 2; Num.lit 1 4] 10] (text_request "fusion" 10) [] []);
    vm_compute; reflexivity.
Defined.

Lemma score_in_unit_interval_witness :
  Num.le Num.zero (score (read_result [] near_rows 0 "x")) /\
  Num.le (score (read_result [] near_rows 0 "x")) Num.one /\
  (Num.eqv (Num.lit 1 4) Num.zero -> score (read_result [] near_rows 0 "x") = Num.one) /\
  (Num.le Num.one (Num.lit 1 4) -> score (read_result [] near_rows 0 "x") = Num.zero).
Proof.
  apply (score_in_unit_interval [] near_rows 0 (read_result [] near_rows 0 "x") (Num.lit 1 4)).
  - reflexivity.
  - reflexivity.
  - reflexivity.
  - vm_compute. discriminate.
Defined.

Lemma hybridSearch_ids_distinct_witness : NoDup (result_ids scenario_out).
Proof.
  apply (@hybridSearch_ids_distinct (scripted scenario_respond) "code" scenario_requests
           (options_of 3 None) [] scenario_out (snd scenario_run)).
  vm_compute. reflexivity.
Defined.

(** C8 as stated fails: a structural key in the document's own metadata
    takes the place of the field and is lost from the metadata, and a
    first line that is [NaN] is read back as 0. *)
Lemma metadata_round_trip_counterexample :
  relativePath (read_document [] "doc2" "text" (insert_metadata clash_document)) =
    JString "b.ts" /\
  relativePath clash_document = "a.ts" /\
  metadata (read_document [] "doc2" "text" (insert_metadata clash_document)) = ∅ /\
  metadata clash_document = {["relativePath" := JString "b.ts"]} /\
  startLine (read_document [] "doc3" "text" (insert_metadata nan_line_document)) =
    JNumber Num.zero /\
  startLine nan_line_document = S754_nan.
Proof. repeat split; vm_compute; reflexivity. Qed.

Lemma metadata_round_trip_witness :
  read_document [] (id example_document) (content example_document)
    (insert_metadata example_document) = as_read [] example_document.
Proof.
  apply (metadata_round_trip [] example_document).
  - intros k Hk. apply reserved_spec in Hk as [->|[->|[->| ->]]]; vm_compute; reflexivity.
  - split; vm_compute; discriminate.
  - split; vm_compute; discriminate.
Defined.

Lemma result_vectors_witness :
  Forall (fun r => vector (document r) = [] \/
                   exists request, request ∈ scenario_requests /\
                                   is_dense request = Some (vector (document r)))
    scenario_out.
Proof.
  apply (proj2 (proj2 (@result_vectors (scripted scenario_respond))) "code" scenario_requests
           (options_of 3 None) [] scenario_out (snd scenario_run)).
  vm_compute. reflexivity.
Defined.

Lemma unmatched_request_skipped_witness :
  @modality_search (scripted scenario_respond) "code" (options_of 3 None) odd_request [] =
    (inr [], []) /\
  @hybridSearch (scripted scenario_respond) "code"
    ([dense_request [Num.lit 1 2] 10] ++ odd_request :: [text_request "fusion" 10])
    (options_of 3 None) [] =
  @hybridSearch (scripted scenario_respond) "code"
    ([dense_request [Num.lit 1 2] 10] ++ [text_request "fusion" 10])
    (options_of 3 None) [].
Proof.
  apply (@unmatched_request_skipped (scripted scenario_respond) "code"
           [dense_request [Num.lit 1 2] 10] odd_request [text_request "fusion" 10]
           (options_of 3 None) []); reflexivity.
Defined.

(** ** Further properties of the fusion *)

Section Further.
Context `{Chroma}.

(** X1 (truncation).  For a non-negative limit -- [options.limit], or 10
    when it is absent or 0 -- the returned list has as many entries as the
    limit allows of the distinct document ids the modality searches
    returned. *)
Theorem hybridSearch_length collectionName searchRequests options w out w' :
  hybridSearch collectionName searchRequests options w = (inr out, w') ->
  (0 <= int_or (options ≫= HybridSearchOptions.limit) 10)%Z ->
  exists w0 found,
    ensureInitialized w = (inr tt, w0) /\
    modality_results collectionName options searchRequests w0 = (inr found, w') /\
    length out =
    Nat.min (Z.to_nat (int_or (options ≫= HybridSearchOptions.limit) 10))
            (length (first_seen [] (seen_ids found))).
Proof.
  intros (w0 & found & Hinit & Hfound & Hok & ->)%hybridSearch_fused Hlimit.
  exists w0, found. repeat split; try assumption.
  assert (Hrs : Forall (result_ok (fun _ => True)) (concat found)).
  { eapply found_ok; [|exact Hok]. auto. }
  unfold Array_slice0. destruct (Z.ltb_spec (int_or (options ≫= HybridSearchOptions.limit) 10) 0);
    [lia|].
  rewrite length_take. f_equal.
  rewrite (Permutation_length (Array_sort_Permutation compareFn _)).
  unfold seen_ids.
  replace (first_seen [] ((fun r => id (document r)) <$> concat found))
    with (Map_keys (foldl merge_result [] (concat found)))
    by apply (Map_keys_foldl_merge (concat found) []).
  unfold Map_values, Map_keys. rewrite !length_fmap. reflexivity.
Qed.

(** X2 (no requests).  With no search request the call makes no backend
    query and returns the empty list, if the client is initialised. *)
Theorem hybridSearch_no_requests collectionName options w :
  hybridSearch collectionName [] options w =
  match ensureInitialized w with
  | (inl e, w') => (inl e, w')
  | (inr _, w') => (inr [], w')
  end.
Proof.
  unfold hybridSearch, bind. destruct (ensureInitialized w) as [[e|[]] w0]; [reflexivity|].
  rewrite try_rethrow_id. cbn. unfold ret, Array_slice0. rewrite take_nil. reflexivity.
Qed.

(** X3 (scores are numbers).  Whatever the backend answers -- distances
    missing, negative, infinite or [NaN] -- every score [hybridSearch]
    returns is a number that is at least 0, never [NaN]. *)
Theorem hybridSearch_scores_not_nan collectionName searchRequests options w out w' :
  hybridSearch collectionName searchRequests options w = (inr out, w') ->
  Forall (fun r => Num.le Num.zero (score r)) out.
Proof.
  intros (w0 & found & Hinit & Hfound & Hok & ->)%hybridSearch_fused.
  assert (Hrs : Forall (result_ok (fun _ => True)) (concat found)).
  { eapply found_ok; [|exact Hok]. auto. }
  destruct (fused_facts _ (concat found) (int_or (options ≫= HybridSearchOptions.limit) 10) Hrs)
    as (Hout & _).
  eapply Forall_impl; [exact Hout|]. intros r [Hs _].
  unfold Num.le. rewrite (NumFacts.rounded_ticks _ _ Hs). cbn [Num.ticks Num.zero].
  apply NumFacts.rounded_false_rank, Hs.
Qed.

End Further.

Lemma hybridSearch_length_witness :
  exists w0 found,
    @ensureInitialized (scripted scenario_respond) [] = (inr tt, w0) /\
    @modality_results (scripted scenario_respond) "code" (options_of 3 None)
      scenario_requests w0 = (inr found, snd scenario_run) /\
    length scenario_out =
    Nat.min (Z.to_nat (int_or (options_of 3 None ≫= HybridSearchOptions.limit) 10))
            (length (first_seen [] (seen_ids found))).
Proof.
  apply (@hybridSearch_length (scripted scenario_respond) "code" scenario_requests
           (options_of 3 None) [] scenario_out (snd scenario_run)).
  - vm_compute. reflexivity.
  - vm_compute. discriminate.
Defined.

Lemma hybridSearch_scores_not_nan_witness :
  Forall (fun r => Num.le Num.zero (score r)) scenario_out.
Proof.
  apply (@hybridSearch_scores_not_nan (scripted scenario_respond) "code" scenario_requests
           (options_of 3 None) [] scenario_out (snd scenario_run)).
  vm_compute. reflexivity.
Defined.

(* ===================================================================== *)
(** * Part IV: the rest of the adapter                                    *)
(* ===================================================================== *)

(** ** The merged entry of a document id *)

Lemma Map_get_elem {V} (m : list (string * V)) k v :
  NoDup (Map_keys m) -> (k, v) ∈ m -> Map_get m k = Some v.
Proof.
  unfold Map_get, Map_keys. induction m as [|[k' v'] m IH]; simpl.
  - intros _ Hin. by apply elem_of_nil in Hin.
  - intros [Hk Hm]%NoDup_cons [[= -> ->]|Hin]%elem_of_cons.
    + rewrite String.eqb_refl. reflexivity.
    + destruct (String.eqb_spec k' k) as [->|Hne]; simpl; [|apply IH; assumption].
      exfalso. apply Hk. apply list_elem_of_fmap. exists (k, v). auto.
Qed.

Lemma Map_get_merge m r k :
  Map_get (merge_result m r) k =
  if decide (id (document r) = k) then
    Some match Map_get m k with
         | Some existing =>
             {| document := document existing; score := average (score existing) (score r) |}
         | None => {| document := document r; score := score r |}
         end
  else Map_get m k.
Proof.
  unfold merge_result. destruct (decide (id (document r) = k)) as [<-|Hne].
  - destruct (Map_get m (id (document r))); apply Map_get_set_eq.
  - destruct (Map_get m (id (document r))); apply Map_get_set_ne, Hne.
Qed.

Lemma Map_get_foldl_merge rs : forall m k,
  Map_get (foldl merge_result m rs) k =
  match Map_get m k, occurrences k rs with
  | Some existing, occ =>
      Some {| document := document existing;
              score := foldl average (score existing) (score <$> occ) |}
  | None, [] => None
  | None, first :: more =>
      Some {| document := document first;
              score := foldl average (score first) (score <$> more) |}
  end.
Proof.
  unfold occurrences. induction rs as [|r rs IH]; intros m k.
  - cbn [foldl]. rewrite filter_nil. destruct (Map_get m k) as [[d s]|]; reflexivity.
  - cbn [foldl]. rewrite IH, Map_get_merge, filter_cons.
    destruct (decide (id (document r) = k)) as [Hk|Hk]; [|reflexivity].
    destruct (Map_get m k) as [existing|]; reflexivity.
Qed.

Section FurtherFusion.
Context `{Chroma}.

(** What [hybridSearch] computes from the collected results, with the
    facts about the merged map its properties rest on. *)
Lemma hybridSearch_merged collectionName searchRequests options w out w' :
  hybridSearch collectionName searchRequests options w = (inr out, w') ->
  exists w0 found,
    ensureInitialized w = (inr tt, w0) /\
    modality_results collectionName options searchRequests w0 = (inr found, w') /\
    let m := foldl merge_result [] (concat found) in
    Forall (entry_ok (fun _ => True)) m /\
    Map_keys m = first_seen [] (seen_ids found) /\
    NoDup (Map_keys m) /\
    out = Array_slice0 (Array_sort compareFn (Map_values m))
            (int_or (options ≫= HybridSearchOptions.limit) 10).
Proof.
  intros (w0 & found & Hinit & Hfound & Hok & ->)%hybridSearch_fused.
  exists w0, found. split; [exact Hinit|]. split; [exact Hfound|].
  assert (Hrs : Forall (result_ok (fun _ => True)) (concat found)).
  { eapply found_ok; [|exact Hok]. auto. }
  assert (Hkeys : Map_keys (foldl merge_result [] (concat found)) =
                  first_seen [] (seen_ids found))
    by apply (Map_keys_foldl_merge (concat found) []).
  cbv zeta. split; [|split; [|split]].
  - apply foldl_merge_ok; [constructor|exact Hrs].
  - exact Hkeys.
  - rewrite Hkeys. apply first_seen_NoDup. constructor.
  - reflexivity.
Qed.

(** X4 (the fused entry).  Every entry of the returned list stands for the
    results of its document id among all the modality searches returned,
    in the order the loop met them: it carries the document of the first
    of them, and its score is the first one's score averaged pairwise,
    left to right, with the scores of the later ones -- for three results
    ((s1 + s2) / 2 + s3) / 2, not the mean of the three. *)
Theorem hybridSearch_running_average collectionName searchRequests options w out w' :
  hybridSearch collectionName searchRequests options w = (inr out, w') ->
  exists w0 found,
    ensureInitialized w = (inr tt, w0) /\
    modality_results collectionName options searchRequests w0 = (inr found, w') /\
    forall r, r ∈ out ->
      exists first more,
        occurrences (id (document r)) (concat found) = first :: more /\
        document r = document first /\
        score r = foldl average (score first) (score <$> more).
Proof.
  intros (w0 & found & Hinit & Hfound & Hm)%hybridSearch_merged. cbv zeta in Hm.
  destruct Hm as (Hok & _ & Hnodup & ->).
  exists w0, found. split; [exact Hinit|]. split; [exact Hfound|].
  intros r Hr.
  assert (Hin : r ∈ Map_values (foldl merge_result [] (concat found))).
  { rewrite <- (Array_sort_Permutation compareFn).
    eapply sublist_subseteq; [apply sublist_take|exact Hr]. }
  unfold Map_values in Hin. apply list_elem_of_fmap in Hin as ([k r'] & -> & Hin).
  cbn [snd]. rewrite Forall_forall in Hok. destruct (Hok _ Hin) as (Hid & _). cbn in Hid.
  apply Map_get_elem in Hin; [|exact Hnodup].
  rewrite Map_get_foldl_merge in Hin. cbn in Hin. rewrite Hid.
  destruct (occurrences k (concat found)) as [|first more]; [discriminate|].
  injection Hin as <-. exists first, more. auto.
Qed.

(** X5 (nothing is lost below the limit).  When the limit is at least the
    number of distinct document ids the modality searches returned, the
    returned list holds each of these ids exactly once. *)
Theorem hybridSearch_complete collectionName searchRequests options w out w' :
  hybridSearch collectionName searchRequests options w = (inr out, w') ->
  exists w0 found,
    ensureInitialized w = (inr tt, w0) /\
    modality_results collectionName options searchRequests w0 = (inr found, w') /\
    ((Z.of_nat (length (first_seen [] (seen_ids found))) <=
      int_or (options ≫= HybridSearchOptions.limit) 10)%Z ->
     result_ids out ≡ₚ first_seen [] (seen_ids found)).
Proof.
  intros (w0 & found & Hinit & Hfound & Hm)%hybridSearch_merged. cbv zeta in Hm.
  destruct Hm as (Hok & Hkeys & _ & ->).
  exists w0, found. split; [exact Hinit|]. split; [exact Hfound|].
  intros Hlimit. unfold Array_slice0.
  destruct (Z.ltb_spec (int_or (options ≫= HybridSearchOptions.limit) 10) 0); [lia|].
  rewrite take_ge.
  - unfold result_ids. rewrite (Array_sort_Permutation compareFn).
    rewrite (Map_values_ids _ _ Hok). rewrite Hkeys. reflexivity.
  - rewrite (Permutation_length (Array_sort_Permutation compareFn _)).
    unfold Map_values. rewrite length_fmap.
    rewrite <- Hkeys in Hlimit. unfold Map_keys in Hlimit. rewrite length_fmap in Hlimit. lia.
Qed.

(** The modality searches read the options for the filter expression
    only. *)
Lemma modality_search_options collectionName options options' request :
  options ≫= HybridSearchOptions.filterExpr = options' ≫= HybridSearchOptions.filterExpr ->
  modality_search collectionName options request =
  modality_search collectionName options' request.
Proof.
  intros Heq. unfold modality_search, text_where. rewrite Heq. reflexivity.
Qed.

Lemma modality_results_options collectionName options options' searchRequests :
  options ≫= HybridSearchOptions.filterExpr = options' ≫= HybridSearchOptions.filterExpr ->
  modality_results collectionName options searchRequests =
  modality_results collectionName options' searchRequests.
Proof.
  intros Heq. induction searchRequests as [|request rest IH]; [reflexivity|].
  cbn [modality_results]. rewrite IH, (modality_search_options _ _ _ _ Heq). reflexivity.
Qed.

(** X6 (a negative limit).  A negative [options.limit] is handed to
    [slice] as it is and counts from the end: the call returns the list
    that the same call returns under a limit that cuts nothing -- the
    fused entries of all the distinct ids, sorted -- without its last
    entries, as many as the limit's magnitude. *)
Theorem hybridSearch_negative_limit collectionName searchRequests options w out w' :
  hybridSearch collectionName searchRequests options w = (inr out, w') ->
  forall n, options ≫= HybridSearchOptions.limit = Some n -> (n < 0)%Z ->
  exists w0 found,
    ensureInitialized w = (inr tt, w0) /\
    modality_results collectionName options searchRequests w0 = (inr found, w') /\
    length out = length (first_seen [] (seen_ids found)) - Z.to_nat (- n) /\
    forall big,
      (0 < big)%Z -> (Z.of_nat (length (first_seen [] (seen_ids found))) <= big)%Z ->
      exists full,
        hybridSearch collectionName searchRequests
          (Some {| HybridSearchOptions.limit := Some big;
                   HybridSearchOptions.filterExpr :=
                     options ≫= HybridSearchOptions.filterExpr |}) w = (inr full, w') /\
        length full = length (first_seen [] (seen_ids found)) /\
        out = take (length full - Z.to_nat (- n)) full.
Proof.
  intros (w0 & found & Hinit & Hfound & Hm)%hybridSearch_merged n Hn Hneg. cbv zeta in Hm.
  destruct Hm as (_ & Hkeys & _ & ->).
  exists w0, found. split; [exact Hinit|]. split; [exact Hfound|].
  set (sorted := Array_sort compareFn (Map_values (foldl merge_result [] (concat found)))).
  assert (Hlen : length sorted = length (first_seen [] (seen_ids found))).
  { unfold sorted. rewrite (Permutation_length (Array_sort_Permutation compareFn _)).
    rewrite <- Hkeys. unfold Map_values, Map_keys. rewrite !length_fmap. reflexivity. }
  assert (Hout : Array_slice0 sorted (int_or (options ≫= HybridSearchOptions.limit) 10) =
                 take (length sorted - Z.to_nat (- n)) sorted).
  { rewrite Hn. unfold int_or. destruct (Z.eqb_spec n 0); [lia|].
    unfold Array_slice0. destruct (Z.ltb_spec n 0); [|lia]. f_equal. lia. }
  split.
  - rewrite Hout, length_take. lia.
  - intros big Hpos Hbig. exists sorted. split; [|split; [exact Hlen|exact Hout]].
    unfold hybridSearch, bind at 1. rewrite Hinit, try_rethrow_id. unfold bind.
    rewrite fusion_loop_collect.
    rewrite <- (modality_results_options collectionName options
                  (Some {| HybridSearchOptions.limit := Some big;
                           HybridSearchOptions.filterExpr :=
                             options ≫= HybridSearchOptions.filterExpr |})
                  searchRequests eq_refl).
    rewrite Hfound. unfold ret. fold sorted. f_equal. f_equal.
    cbn [mbind option_bind HybridSearchOptions.limit]. unfold int_or.
    destruct (Z.eqb_spec big 0); [lia|].
    unfold Array_slice0. destruct (Z.ltb_spec big 0); [lia|].
    apply take_ge. lia.
Qed.

End FurtherFusion.

(** ** The queries a call makes *)

Section QueryLog.
Context (respond : QueryParams -> string + QueryResponse).

(** One iteration on a scripted backend: the request's query, if it has
    one, is answered and logged. *)
Lemma scripted_modality_search collectionName options request w :
  @modality_search (scripted respond) collectionName options request w =
  match request_query options request with
  | Some q =>
      (match respond q with
       | inl e => inl e
       | inr results => inr (read_results (default [] (is_dense request)) results)
       end, w ++ [q])
  | None => (inr [], w)
  end.
Proof.
  unfold modality_search, request_query. destruct (is_dense request) as [v|].
  - unfold search, bind, try_rethrow, ret. cbn. destruct (respond _); reflexivity.
  - destruct (is_lexical request); [|reflexivity].
    unfold bind, try_rethrow, ret. cbn. destruct (respond _); reflexivity.
Qed.

Lemma scripted_fusion_loop collectionName options searchRequests : forall results w,
  match @fusion_loop (scripted respond) collectionName options searchRequests results w with
  | (inr _, log) => log = w ++ omap (request_query options) searchRequests
  | (inl e, log) =>
      exists pre request post q,
        searchRequests = pre ++ request :: post /\
        request_query options request = Some q /\
        respond q = inl e /\
        log = w ++ omap (request_query options) pre ++ [q]
  end.
Proof.
  induction searchRequests as [|request rest IH]; intros results w.
  - cbn. rewrite app_nil_r. reflexivity.
  - cbn [fusion_loop]. unfold bind. rewrite scripted_modality_search.
    destruct (request_query options request) as [q|] eqn:Eq.
    + destruct (respond q) as [e|rs] eqn:Er.
      * exists [], request, rest, q. cbn. auto.
      * specialize (IH (foldl merge_result results
                          (read_results (default [] (is_dense request)) rs)) (w ++ [q])).
        destruct (fusion_loop _ _ rest _ _) as [[e|out] log].
        -- destruct IH as (pre & r & post & q' & -> & Hq & He & ->).
           exists (request :: pre), r, post, q'. simpl. rewrite Eq.
           cbn. rewrite <- !app_assoc. auto.
        -- rewrite IH. simpl. rewrite Eq. cbn. rewrite <- app_assoc. reflexivity.
    + specialize (IH (foldl merge_result results []) w).
      destruct (fusion_loop _ _ rest _ _) as [[e|out] log].
      * destruct IH as (pre & r & post & q' & -> & Hq & He & ->).
        exists (request :: pre), r, post, q'. simpl. rewrite Eq. auto.
      * rewrite IH. simpl. rewrite Eq. reflexivity.
Qed.

Lemma scripted_hybridSearch collectionName searchRequests options w :
  @hybridSearch (scripted respond) collectionName searchRequests options w =
  match @fusion_loop (scripted respond) collectionName options searchRequests [] w with
  | (inl e, log) => (inl e, log)
  | (inr results, log) =>
      (inr (Array_slice0 (Array_sort compareFn (Map_values results))
              (int_or (options ≫= HybridSearchOptions.limit) 10)), log)
  end.
Proof.
  unfold hybridSearch, bind, try_rethrow, ret. cbn [ensureInitialized scripted].
  destruct (fusion_loop _ _ _ _ _) as [[e|results] log]; reflexivity.
Qed.

(** Every query a call logs is the query of one of its requests. *)
Lemma scripted_hybridSearch_log collectionName searchRequests options w :
  exists requests,
    snd (@hybridSearch (scripted respond) collectionName searchRequests options w) =
    w ++ omap (request_query options) requests.
Proof.
  rewrite scripted_hybridSearch.
  pose proof (scripted_fusion_loop collectionName options searchRequests [] w) as Hl.
  destruct (fusion_loop _ _ _ _ _) as [[e|results] log]; cbn [snd].
  - destruct Hl as (pre & request & post & q & -> & Hq & _ & ->).
    exists (pre ++ [request]). rewrite omap_app. simpl. rewrite Hq. reflexivity.
  - exists searchRequests. exact Hl.
Qed.

(** X7 (one query per request, in order, no retry).  On a backend that
    logs its queries, a call that returns has made exactly one query for
    each request that is dense or text, in the order of the requests, and
    none for any other request; a call that throws has made the queries
    of the requests up to the one whose query failed, that query once,
    and none after it; and it throws that query's error. *)
Theorem hybridSearch_queries_in_order collectionName searchRequests options w :
  match @hybridSearch (scripted respond) collectionName searchRequests options w with
  | (inr _, log) => log = w ++ omap (request_query options) searchRequests
  | (inl e, log) =>
      exists pre request post q,
        searchRequests = pre ++ request :: post /\
        request_query options request = Some q /\
        respond q = inl e /\
        log = w ++ omap (request_query options) pre ++ [q]
  end.
Proof.
  rewrite scripted_hybridSearch.
  pose proof (scripted_fusion_loop collectionName options searchRequests [] w) as Hl.
  destruct (fusion_loop _ _ _ _ _) as [[e|results] log]; exact Hl.
Qed.

(** X8 (which queries are filtered).  Whatever the requests and the
    options of a call, none of its dense queries carries a predicate,
    every text query carries the fixed clause on [fileExtension] when
    [options.filterExpr] is a non-empty string and no predicate
    otherwise, and no dense query asks for 0 rows, a request limit of 0
    being replaced by 10. *)
Theorem hybridSearch_query_predicates collectionName searchRequests options :
  Forall (fun q =>
            match queryEmbeddings q with
            | Some _ => where_ q = None /\ nResults q <> 0%Z
            | None => where_ q = text_where options
            end)
    (snd (@hybridSearch (scripted respond) collectionName searchRequests options [])).
Proof.
  destruct (scripted_hybridSearch_log collectionName searchRequests options [])
    as (requests & ->).
  cbn [app]. apply Forall_forall. intros q (request & _ & Hq)%list_elem_of_omap.
  unfold request_query in Hq. destruct (is_dense request) as [v|].
  - injection Hq as <-. cbn. split; [reflexivity|].
    destruct (Z.eqb_spec (HybridSearchRequest.limit request) 0); [discriminate|assumption].
  - destruct (is_lexical request); [|discriminate]. injection Hq as <-. reflexivity.
Qed.

End QueryLog.


(** ** search and insert *)

Lemma read_results_ids vec results :
  result_ids (read_results vec results) = default [] (ids results ≫= head).
Proof.
  unfold read_results, result_ids. destruct (ids results) as [[|ids0 ?]|]; try reflexivity.
  cbn. apply list_eq. intros i. rewrite list_lookup_fmap, list_lookup_imap.
  destruct (ids0 !! i); reflexivity.
Qed.

Lemma insert_metadata_caller doc k :
  insert_metadata doc !! k =
  match metadata doc !! k with
  | Some v => Some v
  | None =>
      if decide (k = "relativePath") then Some (JString (relativePath doc))
      else if decide (k = "startLine") then Some (JNumber (startLine doc))
      else if decide (k = "endLine") then Some (JNumber (endLine doc))
      else if decide (k = "fileExtension") then Some (JString (fileExtension doc))
      else None
  end.
Proof.
  unfold insert_metadata. rewrite lookup_union.
  destruct (metadata doc !! k) as [v|].
  - destruct (_ !! k); reflexivity.
  - rewrite (left_id None _). repeat case_decide; subst; by simplify_map_eq.
Qed.

Section FurtherSearch.
Context `{Chroma}.

(** X9 (the rows of a search).  A search that returns has made one query
    -- for [options.topK] rows, 10 when it is absent or 0, under
    [options.filter] alone -- and returns one result for each id of the
    first row of ids of the answer, in the backend's order, neither
    sorted again nor cut; an answer without ids gives the empty list. *)
Theorem search_rows collectionName queryVector options w rs w' :
  search collectionName queryVector options w = (inr rs, w') ->
  exists w0 collection w1 results,
    ensureInitialized w = (inr tt, w0) /\
    getCollection collectionName w0 = (inr collection, w1) /\
    collection_query collection
      {| queryEmbeddings := Some [queryVector];
         queryTexts := None;
         nResults := int_or (options ≫= SearchOptions.topK) 10;
         include := include_fields;
         where_ := options ≫= SearchOptions.filter |} w1 = (inr results, w') /\
    result_ids rs = default [] (ids results ≫= head).
Proof.
  unfold search. intros ([] & w0 & Hinit & Hb)%bind_inr.
  rewrite try_rethrow_id in Hb.
  apply bind_inr in Hb as (collection & w1 & Hc & Hb). rewrite try_rethrow_id in Hc.
  apply bind_inr in Hb as (results & w2 & Hq & Hb).
  injection Hb as <- <-. exists w0, collection, w1, results.
  repeat split; try assumption. apply read_results_ids.
Qed.

(** X10 (columns the answer lacks).  A row the answer gives no distance
    for, or the distance [NaN], is scored 1, as an exact match is; a row
    without a document has the empty content; a row without metadata has
    empty paths, line numbers 0 and no metadata of its own. *)
Theorem missing_columns_default vec results i r :
  read_results vec results !! i = Some r ->
  (at_row (distances results) i = None \/ at_row (distances results) i = Some S754_nan ->
   score r = Num.one) /\
  (at_row (documents results) i = None -> content (document r) = "") /\
  (at_row (metadatas results) i = None ->
   relativePath (document r) = JString "" /\
   startLine (document r) = JNumber Num.zero /\
   endLine (document r) = JNumber Num.zero /\
   fileExtension (document r) = JString "" /\
   metadata (document r) = ∅).
Proof.
  intros Hr. unfold read_results in Hr.
  destruct (ids results) as [[|ids0 ?]|]; try discriminate.
  rewrite list_lookup_imap in Hr. destruct (ids0 !! i) as [id_|]; [|discriminate].
  injection Hr as <-. cbn [read_result score document read_document content relativePath
    startLine endLine fileExtension metadata].
  split; [|split].
  - intros [-> | ->]; reflexivity.
  - intros ->. reflexivity.
  - intros ->. cbn. repeat split.
Qed.

(** X11 (what insert stores).  An insert that returns has made one [add]
    of as many ids, embeddings, texts and flat mappings as there are
    documents, row [i] from document [i]; a mapping holds every key of the
    document's own metadata with the value it has there -- also under one
    of the four structural names, where it replaces the structural field
    -- each structural field under its name otherwise, and nothing else. *)
Theorem insert_rows collectionName docs w w' :
  insert collectionName docs w = (inr tt, w') ->
  exists w0 collection w1 p,
    ensureInitialized w = (inr tt, w0) /\
    getCollection collectionName w0 = (inr collection, w1) /\
    collection_add collection p w1 = (inr tt, w') /\
    forall i,
      add_ids p !! i = id <$> docs !! i /\
      add_embeddings p !! i = vector <$> docs !! i /\
      add_documents p !! i = content <$> docs !! i /\
      forall k,
        add_metadatas p !! i ≫= (.!! k) =
        docs !! i ≫= fun doc =>
          match metadata doc !! k with
          | Some v => Some v
          | None =>
              if decide (k = "relativePath") then Some (JString (relativePath doc))
              else if decide (k = "startLine") then Some (JNumber (startLine doc))
              else if decide (k = "endLine") then Some (JNumber (endLine doc))
              else if decide (k = "fileExtension") then Some (JString (fileExtension doc))
              else None
          end.
Proof.
  unfold insert. intros ([] & w0 & Hinit & Hb)%bind_inr.
  rewrite try_rethrow_id in Hb.
  apply bind_inr in Hb as (collection & w1 & Hc & Hb). rewrite try_rethrow_id in Hc.
  eexists w0, collection, w1, _. split; [exact Hinit|]. split; [exact Hc|].
  split; [exact Hb|]. intros i. cbn [add_ids add_embeddings add_documents add_metadatas].
  rewrite !list_lookup_fmap. repeat split.
  intros k. destruct (docs !! i) as [doc|]; [|reflexivity]. cbn.
  apply insert_metadata_caller.
Qed.

End FurtherSearch.

(** ** The operations on collections *)

Section FurtherCollections.
Context `{ChromaStore}.

Lemma existsb_name collectionName (collections : list CollectionInfo.t) :
  existsb (fun collection => String.eqb (CollectionInfo.name collection) collectionName)
    collections =
  bool_decide (collectionName ∈ CollectionInfo.name <$> collections).
Proof.
  induction collections as [|c cs IH]; [reflexivity|].
  cbn [existsb]. rewrite IH, fmap_cons.
  destruct (String.eqb_spec (CollectionInfo.name c) collectionName) as [->|Hne]; cbn.
  - symmetry. apply bool_decide_eq_true. left.
  - apply bool_decide_ext. rewrite elem_of_cons. split; [auto|]. intros [->|?]; [congruence|auto].
Qed.

Lemma hasCollection_eq collectionName w :
  hasCollection collectionName w =
  match ensureInitialized w with
  | (inl e, w0) => (inl e, w0)
  | (inr _, w0) =>
      match client_listCollections w0 with
      | (inl _, w1) => (inr false, w1)
      | (inr collections, w1) =>
          (inr (bool_decide (collectionName ∈ CollectionInfo.name <$> collections)), w1)
      end
  end.
Proof.
  unfold hasCollection, bind at 1. destruct (ensureInitialized w) as [[e|[]] w0]; [reflexivity|].
  unfold try_catch, bind, ret. destruct (client_listCollections w0) as [[e|collections] w1];
    [reflexivity|]. rewrite existsb_name. reflexivity.
Qed.

Lemma listCollections_eq w :
  listCollections w =
  match ensureInitialized w with
  | (inl e, w0) => (inl e, w0)
  | (inr _, w0) =>
      match client_listCollections w0 with
      | (inl e, w1) => (inl e, w1)
      | (inr collections, w1) => (inr (CollectionInfo.name <$> collections), w1)
      end
  end.
Proof.
  unfold listCollections, bind at 1. destruct (ensureInitialized w) as [[e|[]] w0]; [reflexivity|].
  rewrite try_rethrow_id. unfold bind, ret.
  destruct (client_listCollections w0) as [[e|collections] w1]; reflexivity.
Qed.

(** X12 (hasCollection and listCollections agree).  On a state on which
    [listCollections] returns a list of names, [hasCollection] returns
    whether the name is in that list, compared as a whole and with case,
    and leaves the same state. *)
Theorem hasCollection_listed collectionName w names w' :
  listCollections w = (inr names, w') ->
  hasCollection collectionName w = (inr (bool_decide (collectionName ∈ names)), w').
Proof.
  rewrite hasCollection_eq, listCollections_eq.
  destruct (ensureInitialized w) as [[e|[]] w0]; [discriminate|].
  destruct (client_listCollections w0) as [[e|collections] w1]; [discriminate|].
  intros [= <- <-]. reflexivity.
Qed.

(** X13 (hasCollection hides a failed listing).  Once the client is
    initialised [hasCollection] never throws: where listing the
    collections fails, so that [listCollections] throws the error, it
    returns [false], the answer it gives for a collection that does not
    exist.  Only a failed initialisation makes it throw. *)
Theorem hasCollection_swallows collectionName w :
  match ensureInitialized w with
  | (inl e, w0) => hasCollection collectionName w = (inl e, w0)
  | (inr _, w0) =>
      (exists b w', hasCollection collectionName w = (inr b, w')) /\
      forall e w', listCollections w = (inl e, w') ->
        hasCollection collectionName w = (inr false, w')
  end.
Proof.
  rewrite hasCollection_eq, listCollections_eq.
  destruct (ensureInitialized w) as [[e|[]] w0]; [reflexivity|].
  destruct (client_listCollections w0) as [[e|collections] w1].
  - split; [eauto|]. intros e' w' [= <- <-]. reflexivity.
  - split; [eauto|]. discriminate.
Qed.

End FurtherCollections.


(** ** query *)

(** One step of the loop over [outputFields]. *)
Lemma set_field_lookup o field value f :
  f <> "__proto__" ->
  (set_field o field value).1 !! f = if decide (field = f) then Some value else o.1 !! f.
Proof.
  intros Hf. unfold set_field.
  destruct (String.eqb_spec field "__proto__") as [->|Hne]; cbn [andb].
  - rewrite decide_False by congruence.
    destruct (o.2); [|cbn; apply lookup_insert_ne; congruence].
    destruct value as [[]|]; reflexivity.
  - cbn [fst]. destruct (decide (field = f)) as [->|Hne'].
    + apply lookup_insert_eq.
    + apply lookup_insert_ne, Hne'.
Qed.

Lemma set_field_dom o field value f :
  is_Some ((set_field o field value).1 !! f) -> field = f \/ is_Some (o.1 !! f).
Proof.
  unfold set_field. destruct (String.eqb field "__proto__" && o.2).
  - destruct value as [[]|]; auto.
  - cbn [fst]. destruct (decide (field = f)) as [->|Hne]; [auto|].
    rewrite lookup_insert_ne by exact Hne. auto.
Qed.

Lemma pick_loop_lookup result outputFields f : forall o,
  f <> "__proto__" ->
  (foldl (fun o field =>
            match get_field result field with
            | Some value => set_field o field value
            | None => o
            end) o outputFields).1 !! f =
  match get_field result f with
  | Some value => if decide (f ∈ outputFields) then Some value else o.1 !! f
  | None => o.1 !! f
  end.
Proof.
  intros o Hf. revert o. induction outputFields as [|field fields IH]; intros o.
  - cbn [foldl]. destruct (get_field result f); [|reflexivity].
    rewrite decide_False by apply not_elem_of_nil. reflexivity.
  - cbn [foldl]. rewrite IH. destruct (get_field result f) as [value|] eqn:Ef.
    + destruct (decide (f ∈ fields)) as [Hin|Hin].
      * rewrite decide_True by (right; exact Hin). reflexivity.
      * destruct (decide (field = f)) as [->|Hne].
        -- rewrite Ef, set_field_lookup, !decide_True by (auto; left). reflexivity.
        -- rewrite decide_False by (rewrite elem_of_cons; intros [?|?]; congruence).
           destruct (get_field result field); [|reflexivity].
           rewrite set_field_lookup, decide_False by assumption. reflexivity.
    + destruct (get_field result field) as [value|] eqn:Eg; [|reflexivity].
      rewrite set_field_lookup, decide_False by congruence. reflexivity.
Qed.

Lemma pick_loop_dom result outputFields f : forall o,
  is_Some ((foldl (fun o field =>
                     match get_field result field with
                     | Some value => set_field o field value
                     | None => o
                     end) o outputFields).1 !! f) ->
  f ∈ outputFields \/ is_Some (o.1 !! f).
Proof.
  induction outputFields as [|field fields IH]; intros o; cbn [foldl]; [auto|].
  intros [Hin|Ho]%IH; [left; right; exact Hin|].
  destruct (get_field result field); [|auto].
  apply set_field_dom in Ho as [->|Ho]; [left; left|auto].
Qed.

Lemma pick_fields_dom outputFields result f :
  is_Some (pick_fields outputFields result !! f) -> f ∈ outputFields.
Proof.
  intros [Hin|Ho]%pick_loop_dom; [exact Hin|].
  cbn in Ho. rewrite lookup_empty in Ho. by destruct Ho.
Qed.

Lemma pick_fields_lookup outputFields result f :
  f ∈ outputFields -> f <> "__proto__" ->
  pick_fields outputFields result !! f = get_field result f.
Proof.
  intros Hin Hf. unfold pick_fields. rewrite pick_loop_lookup by exact Hf.
  destruct (get_field result f); [|apply lookup_empty].
  rewrite decide_True by exact Hin. reflexivity.
Qed.

Lemma query_row_lookup results i id_ k :
  query_row results i id_ !! k =
  match default ∅ (get_metadatas results ≫= fun l => mjoin (l !! i)) !! k with
  | Some v => Some v
  | None =>
      if decide (k = "id") then Some (JString id_)
      else if decide (k = "content") then
        Some (JString (str_or_empty (get_documents results ≫= fun l => mjoin (l !! i))))
      else None
  end.
Proof.
  unfold query_row. cbv zeta. rewrite lookup_union.
  destruct (default ∅ _ !! k) as [v|].
  - destruct (_ !! k); reflexivity.
  - rewrite (left_id None _). repeat case_decide; subst; by simplify_map_eq.
Qed.

Lemma query_records_lookup outputFields results i rec :
  query_records outputFields results !! i = Some rec ->
  exists ids_ id_,
    get_ids results = Some ids_ /\ ids_ !! i = Some id_ /\
    rec = query_record outputFields results i id_.
Proof.
  unfold query_records. destruct (get_ids results) as [ids_|]; [|discriminate].
  rewrite list_lookup_imap. destruct (ids_ !! i) as [id_|] eqn:E; [|discriminate].
  intros [= <-]. eauto.
Qed.

Section FurtherQuery.
Context `{ChromaStore}.

Lemma query_inr collectionName filter_ outputFields limit w recs w' :
  query collectionName filter_ outputFields limit w = (inr recs, w') ->
  exists w0 collection w1 q results,
    ensureInitialized w = (inr tt, w0) /\
    getCollection collectionName w0 = (inr collection, w1) /\
    collection_get collection q w1 = (inr results, w') /\
    get_where q = query_where filter_ /\
    get_nResults q = match limit with
                     | Some n => if (n =? 0)%Z then None else Some n
                     | None => None
                     end /\
    recs = query_records outputFields results.
Proof.
  unfold query. intros ([] & w0 & Hinit & Hb)%bind_inr.
  rewrite try_rethrow_id in Hb.
  apply bind_inr in Hb as (collection & w1 & Hc & Hb). rewrite try_rethrow_id in Hc.
  apply bind_inr in Hb as (results & w2 & Hq & Hb).
  injection Hb as <- <-. eexists w0, collection, w1, _, results.
  repeat split; try eassumption; reflexivity.
Qed.

(** X14 (the records of a query).  A query that returns has made one
    [get] -- with a row limit only for a limit other than 0, and with the
    predicate the filter converts to -- and returns one record for each
    id of the answer; an answer without ids gives no record. *)
Theorem query_rows collectionName filter_ outputFields limit w recs w' :
  query collectionName filter_ outputFields limit w = (inr recs, w') ->
  exists w0 collection w1 q results,
    ensureInitialized w = (inr tt, w0) /\
    getCollection collectionName w0 = (inr collection, w1) /\
    collection_get collection q w1 = (inr results, w') /\
    get_where q = query_where filter_ /\
    (limit = None \/ limit = Some 0%Z -> get_nResults q = None) /\
    (forall n, limit = Some n -> n <> 0%Z -> get_nResults q = Some n) /\
    length recs = length (default [] (get_ids results)).
Proof.
  intros (w0 & collection & w1 & q & results & Hinit & Hc & Hq & Hw & Hn & ->)%query_inr.
  exists w0, collection, w1, q, results. repeat split; try assumption.
  - intros [-> | ->]; exact Hn.
  - intros n -> Hne. rewrite Hn. destruct (Z.eqb_spec n 0); [contradiction|reflexivity].
  - unfold query_records. destruct (get_ids results); [apply length_imap|reflexivity].
Qed.

(** X15 (no field that was not asked for).  When output fields are named,
    no record a query returns has a field outside them -- the id and the
    content included. *)
Theorem query_only_requested_fields collectionName filter_ outputFields limit w recs w' :
  query collectionName filter_ outputFields limit w = (inr recs, w') ->
  outputFields <> [] ->
  forall rec f, rec ∈ recs -> is_Some (rec !! f) -> f ∈ outputFields.
Proof.
  intros (w0 & collection & w1 & q & results & _ & _ & _ & _ & _ & ->)%query_inr Hne rec f.
  intros (i & Hi)%list_elem_of_lookup_1.
  apply query_records_lookup in Hi as (ids_ & id_ & _ & _ & ->).
  unfold query_record. destruct outputFields as [|field fields]; [contradiction|].
  apply pick_fields_dom.
Qed.

End FurtherQuery.

(** X16 (a requested field).  When output fields are named, a record has
    a requested field, other than [__proto__], exactly with the value the
    row -- its metadata, and its id and content where the metadata does
    not use these names -- has for it, if that is not [undefined]; a
    requested name that the row lacks is left out, unless it names a
    member of [Object.prototype], which the record then holds instead. *)
Theorem query_requested_field outputFields results i rec f :
  query_records outputFields results !! i = Some rec ->
  f ∈ outputFields -> f <> "__proto__" ->
  exists id_,
    (get_ids results ≫= (.!! i)) = Some id_ /\
    rec !! f =
    match query_row results i id_ !! f with
    | Some JUndefined => None
    | Some v => Some (Own v)
    | None => if bool_decide (f ∈ object_prototype) then Some (Inherited f) else None
    end.
Proof.
  intros (ids_ & id_ & Hids & Hid & ->)%query_records_lookup Hin Hf.
  exists id_. rewrite Hids. split; [exact Hid|].
  unfold query_record. destruct outputFields as [|field fields]; [by apply elem_of_nil in Hin|].
  rewrite pick_fields_lookup by assumption. reflexivity.
Qed.

(** X17 (all fields).  With no output field named, a record is the row's
    metadata, to which the id and the content are added under [id] and
    [content] only where the metadata has no key of that name: a metadata
    key [id] or [content] replaces the document's. *)
Theorem query_unfiltered_record results i rec k :
  query_records [] results !! i = Some rec ->
  exists id_,
    (get_ids results ≫= (.!! i)) = Some id_ /\
    rec !! k =
    match default ∅ (get_metadatas results ≫= fun l => mjoin (l !! i)) !! k with
    | Some v => Some (Own v)
    | None =>
        if decide (k = "id") then Some (Own (JString id_))
        else if decide (k = "content") then
          Some (Own (JString (str_or_empty (get_documents results ≫= fun l => mjoin (l !! i)))))
        else None
    end.
Proof.
  intros (ids_ & id_ & Hids & Hid & ->)%query_records_lookup.
  exists id_. rewrite Hids. split; [exact Hid|].
  unfold query_record. rewrite lookup_fmap, query_row_lookup.
  destruct (default ∅ _ !! k); [reflexivity|]. repeat case_decide; reflexivity.
Qed.

Section QueryAfterInsert.
Context `{Chroma}.

(** X18 (query after insert).  If the store hands back the rows of an
    insert unchanged, then for every inserted document whose own metadata
    uses neither [id] nor [content] nor a structural name, the record of a
    query with no output field named holds the document's id, content and
    four structural fields as they were inserted -- a line number that is
    [NaN] included, which [search] hands back as 0 -- and every key of
    its metadata. *)
Theorem query_after_insert collectionName docs w w' i doc :
  insert collectionName docs w = (inr tt, w') ->
  docs !! i = Some doc ->
  no_reserved (metadata doc) ->
  metadata doc !! "id" = None -> metadata doc !! "content" = None ->
  exists w0 collection w1 p,
    ensureInitialized w = (inr tt, w0) /\
    getCollection collectionName w0 = (inr collection, w1) /\
    collection_add collection p w1 = (inr tt, w') /\
    exists rec,
      query_records [] (stored p) !! i = Some rec /\
      rec !! "id" = Some (Own (JString (id doc))) /\
      rec !! "content" = Some (Own (JString (content doc))) /\
      rec !! "relativePath" = Some (Own (JString (relativePath doc))) /\
      rec !! "startLine" = Some (Own (JNumber (startLine doc))) /\
      rec !! "endLine" = Some (Own (JNumber (endLine doc))) /\
      rec !! "fileExtension" = Some (Own (JString (fileExtension doc))) /\
      forall k v, metadata doc !! k = Some v -> rec !! k = Some (Own v).
Proof.
  unfold insert. intros ([] & w0 & Hinit & Hb)%bind_inr Hdoc Hno Hid Hcontent.
  rewrite try_rethrow_id in Hb.
  apply bind_inr in Hb as (collection & w1 & Hc & Hb). rewrite try_rethrow_id in Hc.
  eexists w0, collection, w1, _. split; [exact Hinit|]. split; [exact Hc|].
  split; [exact Hb|].
  match goal with |- context [stored ?p] => set (params := p) end.
  assert (Hrow : forall k,
    query_record [] (stored params) i (id doc) !! k =
    Own <$> match insert_metadata doc !! k with
            | Some v => Some v
            | None =>
                if decide (k = "id") then Some (JString (id doc))
                else if decide (k = "content") then Some (JString (content doc))
                else None
            end).
  { intros k. unfold query_record. rewrite lookup_fmap, query_row_lookup. f_equal.
    cbn [stored params get_metadatas get_documents add_metadatas add_documents].
    cbn [mbind option_bind]. rewrite !list_lookup_fmap, Hdoc. reflexivity. }
  exists (query_record [] (stored params) i (id doc)). split.
  { unfold query_records. cbn [stored params get_ids add_ids].
    rewrite list_lookup_imap, list_lookup_fmap, Hdoc. reflexivity. }
  rewrite !Hrow, !insert_metadata_caller, Hid, Hcontent.
  rewrite !(Hno _) by (apply reserved_spec; auto).
  repeat split.
  intros k v Hk. rewrite Hrow, insert_metadata_caller, Hk. reflexivity.
Qed.

End QueryAfterInsert.


(** ** Scores of distances below zero *)

Module ScoreFacts.
Import Num NumFacts.
Local Open Scope Z_scope.

(** Dropping low bits of a mantissa does not take a value of at least
    2^[k] below 2^[k], as long as the mantissa stays positive. *)
Lemma shift_above m e n k :
  0 < m -> emin <= e -> 0 <= n -> 0 < m / 2 ^ n -> emin <= k ->
  2 ^ (k - emin) <= m * 2 ^ (e - emin) ->
  2 ^ (k - emin) <= (m / 2 ^ n) * 2 ^ (e + n - emin).
Proof.
  intros Hm He Hn Hq Hk Hle.
  pose proof (pow2_pos (e - emin) ltac:(lia)) as Hpe.
  pose proof (pow2_pos n Hn) as Hpn.
  destruct (Z.le_gt_cases (e + n) k) as [Hc|Hc].
  - assert (Hme : 2 ^ (k - e) <= m).
    { replace (k - emin) with ((k - e) + (e - emin)) in Hle by lia.
      rewrite Z.pow_add_r in Hle by lia. nia. }
    assert (Hdiv : 2 ^ (k - e - n) <= m / 2 ^ n).
    { apply Z.div_le_lower_bound; [exact Hpn|].
      rewrite <- Z.pow_add_r by lia. replace (n + (k - e - n)) with (k - e) by lia. exact Hme. }
    replace (k - emin) with ((k - e - n) + (e + n - emin)) by lia.
    rewrite Z.pow_add_r by lia.
    pose proof (pow2_pos (e + n - emin) ltac:(lia)). nia.
  - assert (Hlt : 2 ^ (k - emin) < 2 ^ (e + n - emin)) by (apply Z.pow_lt_mono_r; lia).
    pose proof (pow2_pos (e + n - emin) ltac:(lia)). nia.
Qed.

Lemma binary_round_aux_above mz ez lx k :
  0 < mz -> emin <= ez -> emin <= k ->
  2 ^ (k - emin) <= mz * 2 ^ (ez - emin) ->
  at_least k (binary_round_aux prec emax false mz ez lx).
Proof.
  intros Hm He Hk Hle.
  destruct (binary_round_aux_spec false mz ez lx) as (m2 & Hb & ->); [lia|].
  set (n1 := rnd_shift mz ez) in *. set (e1 := ez + n1) in *.
  set (n2 := rnd_shift m2 e1).
  pose proof (rnd_shift_nonneg mz ez) as Hn1. fold n1 in Hn1.
  pose proof (rnd_shift_nonneg m2 e1) as Hn2. fold n2 in Hn2.
  pose proof (rnd_shift_pos mz ez Hm He) as Hm1. fold n1 in Hm1.
  assert (Hm2 : 0 < m2) by lia.
  assert (He1 : emin <= e1) by (unfold e1; lia).
  pose proof (rnd_shift_pos m2 e1 Hm2 He1) as Hm3. fold n2 in Hm3.
  pose proof (shift_above mz ez n1 k Hm He Hn1 Hm1 Hk Hle) as H1. fold e1 in H1.
  assert (H2 : 2 ^ (k - emin) <= m2 * 2 ^ (e1 - emin)).
  { pose proof (pow2_pos (e1 - emin) ltac:(lia)). nia. }
  pose proof (shift_above m2 e1 n2 k Hm2 He1 Hn2 Hm3 Hk H2) as H3.
  destruct (m2 / 2 ^ n2) as [|p|p] eqn:E3; try lia.
  cbn [rnd_result]. destruct (e1 + n2 <=? emax - prec); cbn [at_least]; [|reflexivity].
  repeat split; [lia|exact H3].
Qed.

Lemma binary_round_above M e k :
  emin <= e -> emin <= k ->
  2 ^ (k - emin) <= Zpos M * 2 ^ (e - emin) ->
  at_least k (binary_round prec emax false M e).
Proof.
  intros He Hk Hle. unfold binary_round.
  pose proof (shl_align_spec M e (fexp prec emax (Zpos (digits2_pos M) + e))) as [H1 H2].
  pose proof (fexp_ge_emin (Zpos (digits2_pos M) + e)) as Hf.
  destruct (shl_align M e _) as [mz ez]. cbn [fst snd] in H1, H2.
  set (j := Z.max 0 _) in *.
  apply binary_round_aux_above; try lia.
  rewrite H1, H2.
  replace (e - emin) with (j + (e - j - emin)) in Hle by lia.
  rewrite Z.pow_add_r in Hle by lia. lia.
Qed.

Lemma at_least_max k x : at_least k x -> max zero x = x.
Proof.
  intros Hx. apply max_zero_positive.
  destruct x as [s|s| |s m e]; cbn [at_least] in Hx; try tauto.
  - subst s. exact I.
  - destruct Hx as [-> _]. exact I.
Qed.

Lemma at_least_le k x y :
  ticks y = Some (Ticks (2 ^ (k - emin))) -> at_least k x -> le y x.
Proof.
  intros Hy Hx. unfold le, xle. rewrite Hy.
  destruct x as [s|s| |s m e]; cbn [at_least] in Hx; try tauto; cbn [ticks xcompare].
  - subst s. discriminate.
  - destruct Hx as (-> & He & Hle). cbn [cond_Zopp]. intros Hc.
    apply Z.compare_gt_iff in Hc. lia.
Qed.

(** [1 - d] for a negative finite [d] of magnitude at least
    2^[k] - 1 ticks-wise: at least 2^[k], for [k] 0 or 1. *)
Lemma sub_one_negative m e k :
  emin <= e -> 0 <= k ->
  2 ^ (k - emin) <= 2 ^ (- emin) + Zpos m * 2 ^ (e - emin) ->
  at_least k (sub one (S754_finite true m e)).
Proof.
  intros He Hk Hle. rewrite one_eq. unfold sub, SFsub. cbv zeta.
  set (ez := Z.min (-52) e).
  assert (Hez : emin <= ez) by (unfold ez; rewrite emin_eq in *; lia).
  pose proof (aligned_ticks false 4503599627370496 (-52) ez Hez ltac:(unfold ez; lia)) as HA.
  pose proof (aligned_ticks false m e ez Hez ltac:(unfold ez; lia)) as HB.
  cbn [cond_Zopp negb] in *. rewrite one_ticks_eq in HA.
  set (A := Zpos (fst (shl_align 4503599627370496 (-52) ez))) in *.
  set (B := Zpos (fst (shl_align m e ez))) in *.
  cbn [binary_normalize Z.add].
  apply binary_round_above; [exact Hez|rewrite emin_eq; lia|].
  rewrite Pos2Z.inj_add. fold A B.
  rewrite Z.mul_add_distr_r, <- HA, <- HB. exact Hle.
Qed.

Lemma ticks_two : ticks two = Some (Ticks (2 ^ (1 - emin))).
Proof. reflexivity. Qed.

Lemma ticks_minus_one : ticks (of_Z (-1)) = Some (Ticks (- 2 ^ (- emin))).
Proof. reflexivity. Qed.

Lemma score_of_negative d :
  wf d -> le d zero ->
  le one (distance_to_score (num_or_zero (Some d))) /\
  (le d (of_Z (-1)) -> le two (distance_to_score (num_or_zero (Some d)))).
Proof.
  intros Wd Hd. unfold distance_to_score.
  destruct d as [s|[]| |[] m e]; cbn [num_or_zero truthy].
  - split; [apply le_refl; discriminate|].
    unfold le, xle. rewrite ticks_minus_one. cbn [ticks zero xcompare].
    pose proof (pow2_pos (- emin) ltac:(rewrite emin_eq; lia)).
    intros Hc. exfalso. apply Hc. apply Z.compare_gt_iff. lia.
  - split; intros; cbn; unfold le, xle; cbn; discriminate.
  - exfalso. apply Hd. reflexivity.
  - contradiction.
  - cbn [wf] in Wd.
    pose proof (pow2_pos (e - emin) ltac:(lia)) as Hp.
    pose proof (pow2_pos (- emin) ltac:(rewrite emin_eq; lia)) as Hq.
    split.
    + assert (Ha : at_least 0 (sub one (S754_finite true m e))).
      { apply sub_one_negative; [exact Wd|lia|]. replace (0 - emin) with (- emin) by lia. lia. }
      rewrite (at_least_max _ _ Ha). apply (at_least_le 0); [|exact Ha].
      rewrite ticks_one. reflexivity.
    + intros Hle. unfold le, xle in Hle. rewrite ticks_minus_one in Hle.
      cbn [ticks xcompare cond_Zopp] in Hle.
      assert (Hm : 2 ^ (- emin) <= Zpos m * 2 ^ (e - emin)).
      { destruct (Z.le_gt_cases (2 ^ (- emin)) (Zpos m * 2 ^ (e - emin))) as [|Hgt]; [assumption|].
        exfalso. apply Hle. apply Z.compare_gt_iff. lia. }
      assert (Ha : at_least 1 (sub one (S754_finite true m e))).
      { apply sub_one_negative; [exact Wd|lia|].
        replace (1 - emin) with (1 + (- emin)) by lia.
        rewrite Z.pow_add_r by (rewrite ?emin_eq; lia). change (2 ^ 1) with 2. lia. }
      rewrite (at_least_max _ _ Ha). apply (at_least_le 1); [|exact Ha].
      exact ticks_two.
  - exfalso. cbn [wf] in Wd. apply Hd. cbn [ticks zero xcompare cond_Zopp].
    pose proof (pow2_pos (e - emin) ltac:(lia)). apply Z.compare_gt_iff. lia.
Qed.

End ScoreFacts.

(** X19 (no clamp above).  The score is cut off at 0 only: a backend row
    whose raw distance is a binary64 value of at most 0 -- as an inner
    product distance can be -- gets a score of at least 1, and one whose
    distance is -1 or less a score of at least 2. *)
Theorem score_not_clamped_above vec results i r d :
  read_results vec results !! i = Some r ->
  at_row (distances results) i = Some d ->
  valid_binary Num.prec Num.emax d = true ->
  Num.le d Num.zero ->
  Num.le Num.one (score r) /\
  (Num.le d (Num.of_Z (-1)) -> Num.le Num.two (score r)).
Proof.
  intros Hr Hd Hvalid Hneg. apply NumFacts.valid_binary_wf in Hvalid.
  unfold read_results in Hr. destruct (ids results) as [[|ids0 ?]|]; try discriminate.
  rewrite list_lookup_imap in Hr. destruct (ids0 !! i) as [id_|]; [|discriminate].
  injection Hr as <-. cbn [read_result score]. rewrite Hd.
  apply ScoreFacts.score_of_negative; assumption.
Qed.


(** ** The shape of a converted filter *)

Module WhereFacts.
Import Str.

Lemma span_not_run c l :
  (c ∉ fst (span_not c l)) /\ fst (span_not c l) ⊆ l.
Proof.
  induction l as [|x l [IH1 IH2]]; cbn [span_not].
  - split; [apply not_elem_of_nil|reflexivity].
  - destruct (Ascii.eqb_spec x c) as [->|Hne]; cbn [fst].
    + split; [apply not_elem_of_nil|apply list_subseteq_nil].
    + destruct (span_not c l) as [run rest]. cbn [fst] in *. split.
      * rewrite not_elem_of_cons. split; [congruence|exact IH1].
      * intros y [->|Hy]%elem_of_cons; [left|right; apply IH2, Hy].
Qed.

Lemma match_brackets_group l group :
  match_brackets l = Some group -> close_bracket ∉ group.
Proof.
  induction l as [|c l IH]; cbn [match_brackets]; [discriminate|].
  destruct (Ascii.eqb c open_bracket); [|exact IH].
  pose proof (span_not_run close_bracket l) as [Hrun _].
  destruct (span_not close_bracket l) as [[|x run] [|y rest]]; try exact IH.
  intros [= <-]. exact Hrun.
Qed.

Lemma split_on_pieces c l :
  split_on c l <> [] /\ Forall (fun piece => (c ∉ piece) /\ piece ⊆ l) (split_on c l).
Proof.
  induction l as [|x l [IH0 IH]]; cbn [split_on].
  - split; [discriminate|]. constructor; [|constructor].
    split; [apply not_elem_of_nil|reflexivity].
  - destruct (Ascii.eqb_spec x c) as [->|Hne].
    + split; [discriminate|]. constructor.
      * split; [apply not_elem_of_nil|apply list_subseteq_nil].
      * eapply Forall_impl; [exact IH|]. intros piece [H1 H2]. split; [exact H1|].
        intros y Hy. right. apply H2, Hy.
    + destruct (split_on c l) as [|piece pieces]; [contradiction|].
      split; [discriminate|]. inversion IH as [|? ? [H1 H2] Hrest]; subst. constructor.
      * split; [rewrite not_elem_of_cons; split; [congruence|exact H1]|].
        intros y [->|Hy]%elem_of_cons; [left|right; apply H2, Hy].
      * eapply Forall_impl; [exact Hrest|]. intros q [H3 H4]. split; [exact H3|].
        intros y Hy. right. apply H4, Hy.
Qed.

Lemma trim_start_subseteq l : trim_start l ⊆ l.
Proof.
  induction l as [|x l IH]; cbn [trim_start]; [reflexivity|].
  destruct (is_whitespace x); [|reflexivity]. intros y Hy. right. apply IH, Hy.
Qed.

Lemma trim_chars_subseteq l : trim_chars l ⊆ l.
Proof.
  unfold trim_chars. intros y Hy. rewrite <- (Permutation_rev (trim_start _)) in Hy.
  apply trim_start_subseteq in Hy. rewrite <- (Permutation_rev (trim_start l)) in Hy.
  apply trim_start_subseteq in Hy. exact Hy.
Qed.

Lemma strip_quotes_elem c l : c ∈ strip_quotes l -> c ∈ l /\ c <> quote /\ c <> dquote.
Proof.
  unfold strip_quotes. rewrite list_elem_of_In, List.filter_In, <- list_elem_of_In.
  intros [Hin Hq]. split; [exact Hin|].
  apply negb_true_iff, orb_false_iff in Hq as [H1 H2].
  split; intros ->; [rewrite Ascii.eqb_refl in H1|rewrite Ascii.eqb_refl in H2]; discriminate.
Qed.

End WhereFacts.

(** X20 (what a converted filter can be).  Whatever the filter text, the
    predicate [query] hands to the backend -- if it hands one -- is an
    [$in] clause on [fileExtension], made only for a text that contains
    [fileExtension in]; it lists at least one value, and no value
    contains a comma, a closing bracket or a quote of either kind. *)
Theorem query_where_shape filter_ p :
  query_where filter_ = Some p ->
  exists values,
    p = WhereIn "fileExtension" values /\
    values <> [] /\
    Str.includes "fileExtension in" filter_ = true /\
    Forall (fun v =>
              Forall (fun c => c <> Str.comma /\ c <> Str.close_bracket /\
                               c <> Str.quote /\ c <> Str.dquote)
                (list_ascii_of_string v)) values.
Proof.
  unfold query_where. destruct (_ && _); [|discriminate].
  destruct (Str.includes "fileExtension in" filter_); [|discriminate].
  destruct (Str.match_brackets (list_ascii_of_string filter_)) as [group|] eqn:Eg; [|discriminate].
  intros [= <-]. eexists. split; [reflexivity|].
  apply WhereFacts.match_brackets_group in Eg.
  destruct (WhereFacts.split_on_pieces Str.comma group) as [Hne Hpieces].
  split; [|split; [reflexivity|]].
  - destruct (Str.split_on Str.comma group); [contradiction|discriminate].
  - apply Forall_fmap. eapply Forall_impl; [exact Hpieces|].
    intros piece [Hcomma Hsub]. cbn. rewrite list_ascii_of_string_of_list_ascii.
    apply Forall_forall. intros c (Hin & Hq & Hdq)%WhereFacts.strip_quotes_elem.
    apply WhereFacts.trim_chars_subseteq in Hin.
    repeat split; try assumption; intros ->; [contradiction|].
    apply Eg, Hsub, Hin.
Qed.


(** ** Before the client is initialised *)

Section FurtherInitialisation.
Context `{ChromaStore}.

(** X21 (an uninitialised client).  When initialisation fails, every
    operation throws the error of the initialisation and makes no call on
    the client or on a collection -- also [hasCollection], which answers
    [false] for every later failure. *)
Theorem uninitialised_client_throws w e w0 :
  ensureInitialized w = (inl e, w0) ->
  (forall collectionName dimension description,
     createCollection collectionName dimension description w = (inl e, w0)) /\
  (forall collectionName dimension description,
     createHybridCollection collectionName dimension description w = (inl e, w0)) /\
  (forall collectionName, dropCollection collectionName w = (inl e, w0)) /\
  (forall collectionName, hasCollection collectionName w = (inl e, w0)) /\
  listCollections w = (inl e, w0) /\
  (forall collectionName docs, insert collectionName docs w = (inl e, w0)) /\
  (forall collectionName docs, insertHybrid collectionName docs w = (inl e, w0)) /\
  (forall collectionName queryVector options,
     search collectionName queryVector options w = (inl e, w0)) /\
  (forall collectionName searchRequests options,
     hybridSearch collectionName searchRequests options w = (inl e, w0)) /\
  (forall collectionName ids_, delete_ collectionName ids_ w = (inl e, w0)) /\
  (forall collectionName filter_ outputFields limit,
     query collectionName filter_ outputFields limit w = (inl e, w0)).
Proof.
  intros Hinit.
  repeat split; intros;
    unfold createHybridCollection, createCollection, dropCollection, hasCollection,
      listCollections, insertHybrid, insert, search, hybridSearch, delete_, query;
    unfold bind at 1; rewrite Hinit; reflexivity.
Qed.

End FurtherInitialisation.


(** ** Concrete instances of the further properties *)

Lemma hybridSearch_running_average_witness :
  exists w0 found,
    @ensureInitialized (scripted scenario_respond) [] = (inr tt, w0) /\
    @modality_results (scripted scenario_respond) "code" (options_of 3 None)
      scenario_requests w0 = (inr found, snd scenario_run) /\
    forall r, r ∈ scenario_out ->
      exists first more,
        occurrences (id (document r)) (concat found) = first :: more /\
        document r = document first /\
        score r = foldl average (score first) (score <$> more).
Proof.
  apply (@hybridSearch_running_average (scripted scenario_respond) "code" scenario_requests
           (options_of 3 None) [] scenario_out (snd scenario_run)).
  vm_compute. reflexivity.
Defined.

Lemma hybridSearch_complete_witness :
  exists w0 found,
    @ensureInitialized (scripted scenario_respond) [] = (inr tt, w0) /\
    @modality_results (scripted scenario_respond) "code" (options_of 3 None)
      scenario_requests w0 = (inr found, snd scenario_run) /\
    ((Z.of_nat (length (first_seen [] (seen_ids found))) <=
      int_or (options_of 3 None ≫= HybridSearchOptions.limit) 10)%Z ->
     result_ids scenario_out ≡ₚ first_seen [] (seen_ids found)).
Proof.
  apply (@hybridSearch_complete (scripted scenario_respond) "code" scenario_requests
           (options_of 3 None) [] scenario_out (snd scenario_run)).
  vm_compute. reflexivity.
Defined.

Lemma hybridSearch_negative_limit_witness :
  exists w0 found,
    @ensureInitialized (scripted scenario_respond) [] = (inr tt, w0) /\
    @modality_results (scripted scenario_respond) "code" (options_of (-1) None)
      scenario_requests w0 = (inr found, snd negative_run) /\
    length negative_out = length (first_seen [] (seen_ids found)) - Z.to_nat (- -1) /\
    forall big,
      (0 < big)%Z -> (Z.of_nat (length (first_seen [] (seen_ids found))) <= big)%Z ->
      exists full,
        @hybridSearch (scripted scenario_respond) "code" scenario_requests
          (Some {| HybridSearchOptions.limit := Some big;
                   HybridSearchOptions.filterExpr :=
                     options_of (-1) None ≫= HybridSearchOptions.filterExpr |}) [] =
          (inr full, snd negative_run) /\
        length full = length (first_seen [] (seen_ids found)) /\
        negative_out = take (length full - Z.to_nat (- -1)) full.
Proof.
  apply (@hybridSearch_negative_limit (scripted scenario_respond) "code" scenario_requests
           (options_of (-1) None) [] negative_out (snd negative_run)).
  - vm_compute. reflexivity.
  - reflexivity.
  - lia.
Defined.

(** The scenario under limit -1: the list under limit 3 without its last
    entry. *)
Example negative_limit_scenario : negative_out = take 2 scenario_out.
Proof. vm_compute. reflexivity. Qed.

Lemma search_rows_witness :
  exists w0 collection w1 results,
    @ensureInitialized (scripted scenario_respond) [] = (inr tt, w0) /\
    @getCollection (scripted scenario_respond) "code" w0 = (inr collection, w1) /\
    @collection_query (scripted scenario_respond) collection
      {| queryEmbeddings := Some [[Num.lit 1 2]];
         queryTexts := None;
         nResults := int_or (None ≫= SearchOptions.topK) 10;
         include := include_fields;
         where_ := None ≫= SearchOptions.filter |} w1 = (inr results, snd search_run) /\
    result_ids search_out = default [] (ids results ≫= head).
Proof.
  apply (@search_rows (scripted scenario_respond) "code" [Num.lit 1 2] None [] search_out
           (snd search_run)).
  vm_compute. reflexivity.
Defined.

Lemma missing_columns_default_witness :
  exists r, read_results [] bare_rows !! 0 = Some r /\
    score r = Num.one /\ content (document r) = "" /\ metadata (document r) = ∅.
Proof.
  eexists. split; [reflexivity|].
  destruct (missing_columns_default [] bare_rows 0 _ eq_refl) as (Hs & Hc & Hm).
  split; [apply Hs; left; reflexivity|]. split; [apply Hc; reflexivity|].
  apply Hm. reflexivity.
Defined.

Lemma insert_rows_witness :
  exists w0 collection w1 p,
    @ensureInitialized (scripted empty_respond) [] = (inr tt, w0) /\
    @getCollection (scripted empty_respond) "code" w0 = (inr collection, w1) /\
    @collection_add (scripted empty_respond) collection p w1 = (inr tt, []) /\
    forall i,
      add_ids p !! i = id <$> [example_document] !! i /\
      add_embeddings p !! i = vector <$> [example_document] !! i /\
      add_documents p !! i = content <$> [example_document] !! i /\
      forall k,
        add_metadatas p !! i ≫= (.!! k) =
        [example_document] !! i ≫= fun doc =>
          match metadata doc !! k with
          | Some v => Some v
          | None =>
              if decide (k = "relativePath") then Some (JString (relativePath doc))
              else if decide (k = "startLine") then Some (JNumber (startLine doc))
              else if decide (k = "endLine") then Some (JNumber (endLine doc))
              else if decide (k = "fileExtension") then Some (JString (fileExtension doc))
              else None
          end.
Proof.
  apply (@insert_rows (scripted empty_respond) "code" [example_document] [] []).
  reflexivity.
Defined.

Lemma hasCollection_listed_witness :
  @hasCollection _ example_store "code" [] = (inr true, []) /\
  @hasCollection _ example_store "Code" [] = (inr false, []).
Proof.
  split.
  - apply (@hasCollection_listed _ example_store "code" [] ["code"; "docs"] []). reflexivity.
  - apply (@hasCollection_listed _ example_store "Code" [] ["code"; "docs"] []). reflexivity.
Defined.

Lemma query_rows_witness :
  exists w0 collection w1 q results,
    @ensureInitialized (scripted empty_respond) [] = (inr tt, w0) /\
    @getCollection (scripted empty_respond) "code" w0 = (inr collection, w1) /\
    @collection_get _ example_store collection q w1 = (inr results, snd (query_run [])) /\
    get_where q = query_where "" /\
    (Some 10%Z = None \/ Some 10%Z = Some 0%Z -> get_nResults q = None) /\
    (forall n, Some 10%Z = Some n -> n <> 0%Z -> get_nResults q = Some n) /\
    length (query_out []) = length (default [] (get_ids results)).
Proof.
  apply (@query_rows _ example_store "code" "" [] (Some 10%Z) [] (query_out [])
           (snd (query_run []))).
  reflexivity.
Defined.

Lemma query_only_requested_fields_witness :
  Forall (fun rec => forall f, is_Some (rec !! f) -> f ∈ ["id"; "author"; "toString"])
    (query_out ["id"; "author"; "toString"]).
Proof.
  apply Forall_forall. intros rec Hrec f.
  apply (@query_only_requested_fields _ example_store "code" "" ["id"; "author"; "toString"]
           (Some 10%Z) [] (query_out ["id"; "author"; "toString"])
           (snd (query_run ["id"; "author"; "toString"]))).
  - reflexivity.
  - discriminate.
  - exact Hrec.
Defined.

Lemma query_requested_field_witness :
  exists rec,
    query_records ["id"; "author"; "toString"]
      (stored (insert_params [example_document])) !! 0 = Some rec /\
    rec !! "author" = Some (Own (JString "developer")) /\
    rec !! "toString" = Some (Inherited "toString").
Proof.
  eexists. split; [reflexivity|]. split.
  - destruct (query_requested_field ["id"; "author"; "toString"]
                (stored (insert_params [example_document])) 0 _ "author" eq_refl)
      as (id_ & Hid & ->).
    + right. left.
    + discriminate.
    + injection Hid as <-. reflexivity.
  - destruct (query_requested_field ["id"; "author"; "toString"]
                (stored (insert_params [example_document])) 0 _ "toString" eq_refl)
      as (id_ & Hid & ->).
    + right. right. left.
    + discriminate.
    + injection Hid as <-. reflexivity.
Defined.

Lemma query_unfiltered_record_witness :
  exists rec,
    query_records [] (stored (insert_params [example_document])) !! 0 = Some rec /\
    rec !! "id" = Some (Own (JString "doc1")).
Proof.
  eexists. split; [reflexivity|].
  destruct (query_unfiltered_record (stored (insert_params [example_document])) 0 _ "id" eq_refl)
    as (id_ & Hid & ->).
  injection Hid as <-. reflexivity.
Defined.

Lemma query_after_insert_witness :
  exists w0 collection w1 p,
    @ensureInitialized (scripted empty_respond) [] = (inr tt, w0) /\
    @getCollection (scripted empty_respond) "code" w0 = (inr collection, w1) /\
    @collection_add (scripted empty_respond) collection p w1 = (inr tt, []) /\
    exists rec,
      query_records [] (stored p) !! 0 = Some rec /\
      rec !! "id" = Some (Own (JString (id example_document))) /\
      rec !! "content" = Some (Own (JString (content example_document))) /\
      rec !! "relativePath" = Some (Own (JString (relativePath example_document))) /\
      rec !! "startLine" = Some (Own (JNumber (startLine example_document))) /\
      rec !! "endLine" = Some (Own (JNumber (endLine example_document))) /\
      rec !! "fileExtension" = Some (Own (JString (fileExtension example_document))) /\
      forall k v, metadata example_document !! k = Some v -> rec !! k = Some (Own v).
Proof.
  apply (@query_after_insert (scripted empty_respond) "code" [example_document] [] [] 0
           example_document).
  - reflexivity.
  - reflexivity.
  - intros k Hk. apply reserved_spec in Hk.
    destruct Hk as [-> | [-> | [-> | ->]]]; reflexivity.
  - reflexivity.
  - reflexivity.
Defined.

Lemma score_not_clamped_above_witness :
  exists r, read_results [] far_rows !! 0 = Some r /\
    Num.le Num.one (score r) /\ Num.le Num.two (score r).
Proof.
  eexists. split; [reflexivity|].
  destruct (score_not_clamped_above [] far_rows 0 _ (Num.of_Z (-1)) eq_refl eq_refl eq_refl)
    as [H1 H2].
  - vm_compute. discriminate.
  - split; [exact H1|]. apply H2. vm_compute. discriminate.
Defined.

Lemma query_where_shape_witness :
  exists values,
    WhereIn "fileExtension" [".ts"; ".py"] = WhereIn "fileExtension" values /\
    values <> [] /\
    Str.includes "fileExtension in" (in_expression "fileExtension" [".ts"; ".py"]) = true /\
    Forall (fun v =>
              Forall (fun c => c <> Str.comma /\ c <> Str.close_bracket /\
                               c <> Str.quote /\ c <> Str.dquote)
                (list_ascii_of_string v)) values.
Proof.
  apply (query_where_shape (in_expression "fileExtension" [".ts"; ".py"])).
  vm_compute. reflexivity.
Defined.

Lemma uninitialised_client_throws_witness :
  @hasCollection _ offline_store "code" [] = (inl "Chroma client not initialized", []) /\
  @query _ offline_store "code" "" [] None [] = (inl "Chroma client not initialized", []).
Proof.
  destruct (@uninitialised_client_throws _ offline_store [] "Chroma client not initialized" []
              eq_refl) as (_ & _ & _ & Hhas & _ & _ & _ & _ & _ & _ & Hquery).
  split; [apply Hhas|apply Hquery].
Defined.
